(** * TrafficFlowSim: the simulation core of MOD_3_Q1.py

    A shallow embedding of the roads, the vehicles, the two assignment
    policies ([optimize_traffic_flow], [balance_traffic_flow]), the
    per-vehicle process, the arrival generator and the event loop that
    drives them, followed by the properties of the written specification
    that can be settled on them.

    Modelling conventions.
    - Python integers are [Z].  The weights that the generator draws are
      integer scalars of numpy and are treated like them: numpy divides
      the doubles nearest to its operands, which below 2^53 are the
      operands themselves, so that the quotient is the same double
      ([quotient_of_exact_doubles]); the statements on which road has the
      least ratio are made in that range ([exact_in_doubles]).
    - A Python float is a double and is modelled by the
      rational number it denotes, in lowest terms, so that equal doubles
      are equal terms.  The quotient [a / b] of two integers is the double
      nearest to the exact quotient, ties to even, with gradual underflow
      ([round_double]).  Division by zero raises [ZeroDivisionError].  A
      quotient beyond the largest double raises [OverflowError]: this is
      modelled where an entry of the dialog is halved ([hourly_rate]); for
      the ratio of a road it would take a load above 10^308, and is left
      out.
    - The sum and the mean behind the congestion level of the display are
      kept exact; only their errors and bounds are stated.
    - The [Road] objects are shared and mutated in place.  The store is the
      list [self.roads]; a reference to a road is its position in that
      list, so that [roads_sorted] and [assigned_road] alias the store.
    - Exceptions are values of [exn]; a computation over the store returns
      its result together with the store as the exception left it. *)

From Stdlib Require Import ZArith QArith Qround Qpower Qabs Lia.
From stdpp Require Import base option list gmap strings.

Open Scope Z_scope.

(** ** Exceptions and results *)

Inductive exn : Set :=
| ZeroDivisionError   (* x / 0 *)
| ValueError          (* min() of an empty sequence, poisson(lam) refused *)
| OverflowError       (* int / int too large for a float *)
| KeyError            (* assignments[vehicle.id] on a missing key *)
| RuntimeError        (* next() on an exhausted generator expression *)
| IndexError          (* road_capacities[i] out of range *)
| EmptySchedule.      (* Environment.step() on an empty event queue *)

Inductive Result (A : Type) : Type :=
| Ok (a : A)
| Raise (e : exn).
Arguments Ok {A} a.
Arguments Raise {A} e.

Definition is_Ok {A} (r : Result A) : Prop :=
  match r with Ok _ => True | Raise _ => False end.

(** ** Data model *)

(** class Road: [coordinates] is display data and is left out. *)
Record Road : Type := mkRoad {
  name : string;
  capacity : Z;
  current_load : Z;
  history : list Q
}.

(** Road.__init__ *)
Definition Road_init (n : string) (c : Z) : Road :=
  {| name := n; capacity := c; current_load := 0; history := [] |}.

(** class Vehicle: [x], [y], [color] and [speed] are display data. *)
Record Vehicle : Type := mkVehicle {
  vehicle_id : Z;
  weight : Z;
  priority : Z
}.

Definition set_load (l : Z) (r : Road) : Road :=
  {| name := name r; capacity := capacity r; current_load := l;
     history := history r |}.

(** road.current_load += w *)
Definition add_load (w : Z) (r : Road) : Road :=
  set_load (current_load r + w) r.

(** road.history.append(x) *)
Definition append_history (x : Q) (r : Road) : Road :=
  {| name := name r; capacity := capacity r; current_load := current_load r;
     history := history r ++ [x] |}.

(** ** The congestion ratio *)

Definition Qltb (x y : Q) : bool :=
  match (x ?= y)%Q with Lt => true | _ => false end.

Definition Qleb (x y : Q) : bool :=
  match (x ?= y)%Q with Gt => false | _ => true end.

(** *** Doubles

    floor(log2 x) of a positive rational: the difference of the bit
    lengths of numerator and denominator, less one if that overshoots. *)
Definition ilog2 (x : Q) : Z :=
  let k := Z.log2 (Qnum x) - Z.log2 (Z.pos (Qden x)) in
  if Qleb (2 ^ k) x then k else k - 1.

(** The nearest integer, ties to the even one. *)
Definition round_half_even (x : Q) : Z :=
  let f := Qfloor x in
  match (x - inject_Z f ?= 1 # 2)%Q with
  | Lt => f
  | Gt => f + 1
  | Eq => if Z.even f then f else f + 1
  end.

(** The exponent of the last place of the double nearest to [x > 0]:
    53 significant bits, and no exponent below that of the subnormals. *)
Definition double_exp (x : Q) : Z := Z.max (ilog2 x - 52) (-1074).

Definition round_pos (x : Q) : Q :=
  let e := double_exp x in
  Qred (inject_Z (round_half_even (x / 2 ^ e)) * 2 ^ e).

(** The double nearest to [x], were the exponent unbounded above. *)
Definition round_double (x : Q) : Q :=
  match (x ?= 0)%Q with
  | Eq => 0%Q
  | Gt => round_pos x
  | Lt => (- round_pos (- x))%Q
  end.

(** The rounded value is 2^1024 or more: too large for a float. *)
Definition overflows (x : Q) : bool := Qleb (2 ^ 1024) (Qabs x).

(** l / c on integers: true division. *)
Definition true_div (l c : Z) : Result Q :=
  if c =? 0 then Raise ZeroDivisionError
  else Ok (round_double (inject_Z l / inject_Z c)).

(** lambda r: r.current_load / r.capacity *)
Definition ratio (r : Road) : Result Q :=
  true_div (current_load r) (capacity r).

(** ** Computations over the shared roads *)

Definition M (A : Type) : Type := list Road -> Result A * list Road.

Definition ret {A} (a : A) : M A := fun st => (Ok a, st).

Definition raise {A} (e : exn) : M A := fun st => (Raise e, st).

Definition bind {A B} (m : M A) (k : A -> M B) : M B :=
  fun st =>
    match m st with
    | (Ok a, st') => k a st'
    | (Raise e, st') => (Raise e, st')
    end.

Notation "x <- m ;; k" := (bind m (fun x => k))
  (at level 100, m at next level, right associativity).
Notation "m ;;; k" := (bind m (fun _ => k))
  (at level 100, right associativity).

(** a pure computation that may raise, run against the current roads *)
Definition reading {A} (f : list Road -> Result A) : M A :=
  fun st => (f st, st).

(** in-place update of the road at position [i] *)
Definition update (i : nat) (f : Road -> Road) : M unit :=
  fun st => (Ok tt, alter f i st).

(** ** Policy A: optimize_traffic_flow *)

(** The scan of [min(roads, key=...)] after its first element: the key of
    every road is evaluated in turn, and the running best is replaced only
    by a strictly smaller key. *)
Fixpoint min_scan (best : nat * Road) (best_key : Q) (i : nat)
    (rest : list Road) : Result (nat * Road) :=
  match rest with
  | [] => Ok best
  | r :: rest' =>
      match ratio r with
      | Raise e => Raise e
      | Ok k =>
          if Qltb k best_key then min_scan (i, r) k (S i) rest'
          else min_scan best best_key (S i) rest'
      end
  end.

(** min(roads, key=lambda r: r.current_load / r.capacity) *)
Definition min_by_ratio (roads : list Road) : Result (nat * Road) :=
  match roads with
  | [] => Raise ValueError
  | r :: rest =>
      match ratio r with
      | Raise e => Raise e
      | Ok k => min_scan (0%nat, r) k 1%nat rest
      end
  end.

(** for vehicle in vehicles: ... in optimize_traffic_flow *)
Fixpoint optimize_loop (vehicles : list Vehicle)
    (assignments : gmap Z string) : M (gmap Z string) :=
  match vehicles with
  | [] => ret assignments
  | vehicle :: rest =>
      best <- reading min_by_ratio ;;
      update (fst best) (add_load (weight vehicle)) ;;;
      optimize_loop rest
        (<[vehicle_id vehicle := name (snd best)]> assignments)
  end.

(** optimize_traffic_flow(roads, vehicles): the argument [roads] is the
    store the computation runs on. *)
Definition optimize_traffic_flow (vehicles : list Vehicle)
    : M (gmap Z string) :=
  optimize_loop vehicles ∅.

(** ** Policy B: balance_traffic_flow *)

Fixpoint ratios (roads : list Road) : Result (list Q) :=
  match roads with
  | [] => Ok []
  | r :: rest =>
      match ratio r with
      | Raise e => Raise e
      | Ok k =>
          match ratios rest with
          | Raise e => Raise e
          | Ok ks => Ok (k :: ks)
          end
      end
  end.

(** Stable insertion: [x] precedes every element of [l] in the input, so
    it goes before the first element whose key is not smaller. *)
Fixpoint insert_by_key (x : Q * nat) (l : list (Q * nat))
    : list (Q * nat) :=
  match l with
  | [] => [x]
  | y :: l' =>
      if Qleb (fst x) (fst y) then x :: l else y :: insert_by_key x l'
  end.

Definition stable_sort (l : list (Q * nat)) : list (Q * nat) :=
  foldr insert_by_key [] l.

(** sorted(roads, key=lambda road: road.current_load / road.capacity):
    the positions of the roads, in ascending order of the keys computed
    once, ties in input order. *)
Definition sorted_by_ratio (roads : list Road) : Result (list nat) :=
  match ratios roads with
  | Raise e => Raise e
  | Ok ks => Ok (snd <$> stable_sort (zip ks (seq 0 (length ks))))
  end.

(** for road in roads_sorted: if road.current_load + w <= road.capacity *)
Fixpoint first_fit (w : Z) (roads_sorted : list nat) (st : list Road)
    : option (nat * Road) :=
  match roads_sorted with
  | [] => None
  | i :: rest =>
      match st !! i with
      | Some road =>
          if current_load road + w <=? capacity road then Some (i, road)
          else first_fit w rest st
      | None => first_fit w rest st
      end
  end.

(** for vehicle in vehicles: for road in roads_sorted: ... break *)
Fixpoint balance_loop (roads_sorted : list nat) (vehicles : list Vehicle)
    (assignments : gmap Z string) : M (gmap Z string) :=
  match vehicles with
  | [] => ret assignments
  | vehicle :: rest =>
      fun st =>
        match first_fit (weight vehicle) roads_sorted st with
        | Some (i, road) =>
            (update i (add_load (weight vehicle)) ;;;
             balance_loop roads_sorted rest
               (<[vehicle_id vehicle := name road]> assignments)) st
        | None => balance_loop roads_sorted rest assignments st
        end
  end.

(** balance_traffic_flow(roads, vehicles): [roads] is the store, sorted
    once before the first vehicle. *)
Definition balance_traffic_flow (vehicles : list Vehicle)
    : M (gmap Z string) :=
  roads_sorted <- reading sorted_by_ratio ;;
  balance_loop roads_sorted vehicles ∅.

(** ** The vehicle process *)

(** next(road for road in self.roads if road.name == road_name): the
    position of the first road with that name.  An exhausted generator
    expression raises StopIteration, which a generator body turns into
    RuntimeError. *)
Fixpoint find_road (road_name : string) (i : nat) (roads : list Road)
    : Result nat :=
  match roads with
  | [] => Raise RuntimeError
  | r :: rest =>
      if String.eqb (name r) road_name then Ok i
      else find_road road_name (S i) rest
  end.

(** assignments[vehicle.id] *)
Definition subscript (assignments : gmap Z string) (k : Z) : M string :=
  match assignments !! k with
  | Some n => ret n
  | None => raise KeyError
  end.

(** vehicle_process, from its entry to the [yield self.env.timeout(1)]:
    the result is the position of [assigned_road]. *)
Definition vehicle_process_start (method : string) (vehicle : Vehicle)
    : M nat :=
  assignments <-
    (if String.eqb method "1" then optimize_traffic_flow [vehicle]
     else balance_traffic_flow [vehicle]) ;;
  road_name <- subscript assignments (vehicle_id vehicle) ;;
  assigned_road <- reading (find_road road_name 0) ;;
  update assigned_road (add_load (weight vehicle)) ;;;
  ret assigned_road.

(** assigned_road.current_load = max(0, assigned_road.current_load - w) *)
Definition release (w : Z) (r : Road) : Road :=
  set_load (Z.max 0 (current_load r - w)) r.

(** assigned_road.current_load / assigned_road.capacity *)
Definition ratio_at (i : nat) (st : list Road) : Result Q :=
  match st !! i with
  | Some r => ratio r
  | None => Raise RuntimeError
  end.

(** vehicle_process, from the resumption after the timeout to its end. *)
Definition vehicle_process_resume (vehicle : Vehicle) (assigned_road : nat)
    : M unit :=
  update assigned_road (release (weight vehicle)) ;;;
  x <- reading (ratio_at assigned_road) ;;
  update assigned_road (append_history x).

(** ** The event queue of the simulation environment

    simpy orders its heap by (time, priority, insertion number).  A process
    is started by an urgent [Initialize] event at the current time; a
    [timeout(1)] is a normal event one unit later; a process that returns
    or raises schedules itself as a normal event at the current time, and
    [Environment.step] re-raises the exception of a failed process that
    nothing waits for. *)

Inductive kind : Type :=
| InitGenerator                            (* start generate_random_traffic *)
| ResumeGenerator (hour : Z)               (* its timeout at the end of [hour] *)
| InitVehicle (vehicle : Vehicle)          (* start vehicle_process *)
| ResumeVehicle (vehicle : Vehicle) (assigned_road : nat)  (* its timeout *)
| ProcessEnded                             (* a process returned *)
| ProcessFailed (e : exn).                 (* a process raised *)

Record event : Type := mkEvent {
  ev_time : Z;
  ev_prio : nat;
  ev_id : nat;
  ev_kind : kind
}.

Definition URGENT : nat := 0.
Definition NORMAL : nat := 1.

(** tuple comparison (time, priority, eid) *)
Definition event_before (a b : event) : bool :=
  if ev_time a <? ev_time b then true
  else if ev_time b <? ev_time a then false
  else if (ev_prio a <? ev_prio b)%nat then true
  else if (ev_prio b <? ev_prio a)%nat then false
  else (ev_id a <? ev_id b)%nat.

(** heappop: the least event and the remaining ones *)
Fixpoint pop (q : list event) : option (event * list event) :=
  match q with
  | [] => None
  | e :: q' =>
      match pop q' with
      | None => Some (e, [])
      | Some (m, rest) =>
          if event_before e m then Some (e, q') else Some (m, e :: rest)
      end
  end.

(** ** The simulator

    [assigned_log] and [completed_log] are not program state: they record,
    for the statements below, each vehicle process that reached its
    timeout with an assigned road and each one that ran to its end. *)

Record Sim : Type := mkSim {
  now : Z;
  queue : list event;
  next_eid : nat;
  roads : list Road;
  vehicles : list Vehicle;
  assigned_log : list (Z * nat);
  completed_log : list (Z * nat)
}.

(** The constructor arguments of TrafficSimulator. *)
Record Settings : Type := mkSettings {
  time_window : Z;
  method : string;
  peak_hours : Q * Q;
  vehicle_rate : Z
}.

(** The draws of the random source: the Poisson count of each hour and
    the two choices made for each vehicle, given by its id. *)
Record Random : Type := mkRandom {
  poisson_draw : Z -> nat;
  weight_draw : Z -> nat;
  priority_draw : Z -> nat
}.

Definition with_roads (st : list Road) (s : Sim) : Sim :=
  mkSim (now s) (queue s) (next_eid s) st (vehicles s)
        (assigned_log s) (completed_log s).

Definition log_assigned (x : Z * nat) (s : Sim) : Sim :=
  mkSim (now s) (queue s) (next_eid s) (roads s) (vehicles s)
        (assigned_log s ++ [x]) (completed_log s).

Definition log_completed (x : Z * nat) (s : Sim) : Sim :=
  mkSim (now s) (queue s) (next_eid s) (roads s) (vehicles s)
        (assigned_log s) (completed_log s ++ [x]).

(** Environment.schedule(event, priority, delay) *)
Definition schedule (k : kind) (prio : nat) (delay : Z) (s : Sim) : Sim :=
  mkSim (now s)
        (queue s ++ [mkEvent (now s + delay) prio (next_eid s) k])
        (S (next_eid s)) (roads s) (vehicles s)
        (assigned_log s) (completed_log s).

(** Environment.peek() <= time_window; an empty queue peeks at infinity *)
Definition peek (s : Sim) : option Z :=
  match pop (queue s) with
  | Some (e, _) => Some (ev_time e)
  | None => None
  end.

Definition within_horizon (cfg : Settings) (s : Sim) : bool :=
  match peek s with
  | Some t => t <=? time_window cfg
  | None => false
  end.

(** ** The arrival generator: generate_random_traffic *)

(** self.peak_hours[0] <= hour <= self.peak_hours[1] *)
Definition is_peak (cfg : Settings) (hour : Z) : bool :=
  Qleb (fst (peak_hours cfg)) (inject_Z hour)
  && Qleb (inject_Z hour) (snd (peak_hours cfg)).

(** int(q): truncation towards zero *)
Definition Qtrunc (q : Q) : Z := Z.quot (Qnum q) (Z.pos (Qden q)).

(** self.vehicle_rate if is_peak else int(self.vehicle_rate / 2):
    the quotient is a float, which int() truncates towards zero. *)
Definition hourly_rate (cfg : Settings) (hour : Z) : Result Z :=
  if is_peak cfg hour then Ok (vehicle_rate cfg)
  else
    match true_div (vehicle_rate cfg) 2 with
    | Raise e => Raise e
    | Ok half =>
        if overflows half then Raise OverflowError else Ok (Qtrunc half)
    end.

(** The largest rate that np.random.poisson accepts, where a C long has
    64 bits: the double
    np.iinfo('l').max - np.sqrt(np.iinfo('l').max) * 10. *)
Definition POISSON_LAM_MAX : Z := 9223372006484770816.

(** np.random.poisson(rate): the rate is taken as a double; a negative
    rate and a rate above POISSON_LAM_MAX are refused, rate 0 draws 0. *)
Definition poisson (rnd : Random) (rate hour : Z) : Result nat :=
  if rate <? 0 then Raise ValueError
  else if Qltb (inject_Z POISSON_LAM_MAX) (round_double (inject_Z rate))
  then Raise ValueError
  else if rate =? 0 then Ok 0%nat
  else Ok (poisson_draw rnd hour).

(** rate = ...; num_vehicles = np.random.poisson(rate) *)
Definition num_vehicles (cfg : Settings) (rnd : Random) (hour : Z)
    : Result nat :=
  match hourly_rate cfg hour with
  | Raise e => Raise e
  | Ok rate => poisson rnd rate hour
  end.

(** np.random.choice(l): the element of [l] at the drawn position *)
Definition choice (l : list Z) (draw : nat) : Z :=
  nth (draw mod length l) l 0.

(** Vehicle(id=len(self.vehicles), weight=choice([1, 2, 3]),
            priority=choice([1, 2, 3, 4, 5])) *)
Definition new_vehicle (rnd : Random) (s : Sim) : Vehicle :=
  let i := Z.of_nat (length (vehicles s)) in
  {| vehicle_id := i;
     weight := choice [1; 2; 3] (weight_draw rnd i);
     priority := choice [1; 2; 3; 4; 5] (priority_draw rnd i) |}.

(** add_vehicle: append to self.vehicles and start the vehicle process *)
Definition add_vehicle (vehicle : Vehicle) (s : Sim) : Sim :=
  schedule (InitVehicle vehicle) URGENT 0
    (mkSim (now s) (queue s) (next_eid s) (roads s)
           (vehicles s ++ [vehicle]) (assigned_log s) (completed_log s)).

(** for _ in range(num_vehicles): ... self.add_vehicle(vehicle) *)
Fixpoint spawn (rnd : Random) (num_vehicles : nat) (s : Sim) : Sim :=
  match num_vehicles with
  | O => s
  | S n => spawn rnd n (add_vehicle (new_vehicle rnd s) s)
  end.

(** One iteration of the loop over the hours, up to its timeout. *)
Definition generator_hour (cfg : Settings) (rnd : Random) (hour : Z)
    (s : Sim) : Sim :=
  match num_vehicles cfg rnd hour with
  | Raise e => schedule (ProcessFailed e) NORMAL 0 s
  | Ok n => schedule (ResumeGenerator hour) NORMAL 1 (spawn rnd n s)
  end.

(** for hour in range(self.time_window): the iteration for [hour] if it
    is in range, the end of the process otherwise. *)
Definition generator_next (cfg : Settings) (rnd : Random) (hour : Z)
    (s : Sim) : Sim :=
  if hour <? time_window cfg then generator_hour cfg rnd hour s
  else schedule ProcessEnded NORMAL 0 s.

(** ** Environment.step and the run loop *)

(** The callbacks of a popped event: the process it belongs to runs up
    to its next [yield], to its end, or to an exception; the event of a
    failed process re-raises that exception out of [step]. *)
Definition dispatch (cfg : Settings) (rnd : Random) (k : kind) (s : Sim)
    : Result unit * Sim :=
  match k with
  | InitGenerator => (Ok tt, generator_next cfg rnd 0 s)
  | ResumeGenerator hour => (Ok tt, generator_next cfg rnd (hour + 1) s)
  | InitVehicle v =>
      match vehicle_process_start (method cfg) v (roads s) with
      | (Ok i, st) =>
          (Ok tt, schedule (ResumeVehicle v i) NORMAL 1
                    (log_assigned (vehicle_id v, i) (with_roads st s)))
      | (Raise e, st) =>
          (Ok tt, schedule (ProcessFailed e) NORMAL 0 (with_roads st s))
      end
  | ResumeVehicle v i =>
      match vehicle_process_resume v i (roads s) with
      | (Ok _, st) =>
          (Ok tt, schedule ProcessEnded NORMAL 0
                    (log_completed (vehicle_id v, i) (with_roads st s)))
      | (Raise e, st) =>
          (Ok tt, schedule (ProcessFailed e) NORMAL 0 (with_roads st s))
      end
  | ProcessEnded => (Ok tt, s)
  | ProcessFailed e => (Raise e, s)
  end.

(** self._now, _, _, event = heappop(self._queue) *)
Definition advance (ev : event) (rest : list event) (s : Sim) : Sim :=
  mkSim (ev_time ev) rest (next_eid s) (roads s) (vehicles s)
        (assigned_log s) (completed_log s).

Definition step (cfg : Settings) (rnd : Random) (s : Sim)
    : Result unit * Sim :=
  match pop (queue s) with
  | None => (Raise EmptySchedule, s)
  | Some (ev, rest) => dispatch cfg rnd (ev_kind ev) (advance ev rest s)
  end.

(** Where the loop [while running and env.peek() <= time_window] stands:
    still going, left by its horizon test, or left by an exception. *)
Inductive outcome : Type :=
| Running (s : Sim)
| Finished (s : Sim)
| Aborted (e : exn) (s : Sim).

Definition state_of (o : outcome) : Sim :=
  match o with Running s | Finished s | Aborted _ s => s end.

Definition loop_once (cfg : Settings) (rnd : Random) (s : Sim) : outcome :=
  if within_horizon cfg s then
    match step cfg rnd s with
    | (Ok _, s') => Running s'
    | (Raise e, s') => Aborted e s'
    end
  else Finished s.

(** At most [n] iterations of the loop.  [Running s] after [n] iterations
    is also where a quit event of the display leaves the run. *)
Fixpoint run (cfg : Settings) (rnd : Random) (n : nat) (s : Sim)
    : outcome :=
  match n with
  | O => Running s
  | S n' =>
      match loop_once cfg rnd s with
      | Running s' => run cfg rnd n' s'
      | o => o
      end
  end.

(** simpy.Environment() and TrafficSimulator(env, roads, ...) *)
Definition new_simulator (rs : list Road) : Sim :=
  mkSim 0 [] 0 rs [] [] [].

(** run_simulation_with_visualization, before its loop:
    env.process(simulator.generate_random_traffic()) *)
Definition initial_sim (rs : list Road) : Sim :=
  schedule InitGenerator URGENT 0 (new_simulator rs).

(** start_simulation: the two roads, the simulator built from the
    arguments, and the state its run starts from.  Nothing is checked. *)
Definition start_simulation (selected_method : string) (time_window : Z)
    (peak_hours : Q * Q) (vehicle_rate : Z) (road_capacities : list Z)
    : Result (Settings * Sim) :=
  match road_capacities with
  | c0 :: c1 :: _ =>
      Ok (mkSettings time_window selected_method peak_hours vehicle_rate,
          initial_sim [Road_init "Mandela" c0; Road_init "Portmore" c1])
  | _ => Raise IndexError
  end.

(** on_start, with the numbers of the dialog already parsed *)
Definition on_start (selected_method : string) (time_window_entry : Z)
    (peak_period : string) (vehicle_rate_entry : Z)
    (road1_capacity_entry road2_capacity_entry : Z)
    : Result (Settings * Sim) :=
  let peak_hours :=
    if String.eqb peak_period "morning" then (6 # 1, 8 # 1)%Q
    else if String.eqb peak_period "midday" then (23 # 2, 27 # 2)%Q
    else (16 # 1, 19 # 1)%Q in
  start_simulation selected_method time_window_entry peak_hours
    vehicle_rate_entry [road1_capacity_entry; road2_capacity_entry].

(** The event loop of a started simulation on its own, for at most [n]
    iterations: the [env.step()] calls of the loop of
    run_simulation_with_visualization, without the display around them
    (for the loop as a whole see [visualize]). *)
Definition simulate (rnd : Random) (n : nat) (started : Result (Settings * Sim))
    : Result outcome :=
  match started with
  | Ok (cfg, s) => Ok (run cfg rnd n s)
  | Raise e => Raise e
  end.

(** ** The display: traffic light, vehicle positions, congestion level

    Of the display only what computes is modelled: the timer of the
    traffic light, the position and speed of the vehicles on the screen,
    and the congestion level that the loop derives from the roads after
    each step.  Drawing itself is left out. *)

Definition SCREEN_WIDTH : Z := 800.

(** The values of TrafficLight.state that the code assigns:
    'green', 'yellow', 'red'. *)
Inductive light_state : Set := Green | Yellow | Red.

Record TrafficLight : Type := mkTrafficLight {
  position : Z * Z;
  state : light_state;
  timer : Z
}.

(** TrafficLight.__init__ *)
Definition TrafficLight_init (p : Z * Z) : TrafficLight :=
  mkTrafficLight p Green 0.

(** TrafficLight.update *)
Definition TrafficLight_update (l : TrafficLight) : TrafficLight :=
  let t := timer l + 1 in
  match state l with
  | Green =>
      if 60 <? t then mkTrafficLight (position l) Yellow 0
      else mkTrafficLight (position l) Green t
  | Yellow =>
      if 10 <? t then mkTrafficLight (position l) Red 0
      else mkTrafficLight (position l) Yellow t
  | Red =>
      if 60 <? t then mkTrafficLight (position l) Green 0
      else mkTrafficLight (position l) Red t
  end.

(** The attributes of a Vehicle that only the display uses and changes:
    [self.x] and [self.speed]. *)
Record Sprite : Type := mkSprite {
  sprite_x : Z;
  sprite_speed : Z
}.

(** Vehicle.__init__: self.x = np.random.randint(100, SCREEN_WIDTH - 100),
    self.speed = 5; [draw] is the draw of the random source. *)
Definition Sprite_init (draw : nat) : Sprite :=
  mkSprite (100 + Z.of_nat (draw mod 600)) 5.

(** Vehicle.move *)
Definition Vehicle_move (congestion_level : Q) (v : Sprite) : Sprite :=
  let speed := Z.max 1 (Qtrunc (5 * (1 - congestion_level))) in
  let x := sprite_x v + speed in
  mkSprite (if SCREEN_WIDTH <? x then 0 else x) speed.

(** sum(...) of floats, from 0 and from left to right *)
Definition Qsum (l : list Q) : Q := foldl Qplus 0%Q l.

(** min(1, sum(road.current_load / road.capacity for road in roads)
           / len(roads)) *)
Definition congestion_level (roads : list Road) : Result Q :=
  match ratios roads with
  | Raise e => Raise e
  | Ok ks =>
      if (length roads =? 0)%nat then Raise ZeroDivisionError
      else
        let mean := (Qsum ks / inject_Z (Z.of_nat (length roads)))%Q in
        Ok (if Qltb mean 1 then mean else 1%Q)
  end.

(** What run_simulation_with_visualization holds while its loop runs:
    the simulator, the traffic light, and the screen attributes of the
    vehicles of [simulator.vehicles], in the same order. *)
Record Display : Type := mkDisplay {
  simulator : Sim;
  traffic_light : TrafficLight;
  sprites : list Sprite
}.

(** The screen attributes of the vehicles created since the last frame. *)
Definition new_sprites (x_draw : Z -> nat) (vs : list Vehicle) (known : nat)
    : list Sprite :=
  (fun v => Sprite_init (x_draw (vehicle_id v))) <$> drop known vs.

Inductive display_outcome : Type :=
| Showing (d : Display)
| Closed (d : Display)
| Crashed (e : exn) (d : Display).

Definition display_of (o : display_outcome) : Display :=
  match o with Showing d | Closed d | Crashed _ d => d end.

(** One iteration of the loop of run_simulation_with_visualization:
    traffic_light.update(), env.step(), the congestion level, and
    draw_vehicles_on_roads, which moves every vehicle. *)
Definition frame_once (cfg : Settings) (rnd : Random) (x_draw : Z -> nat)
    (d : Display) : display_outcome :=
  if within_horizon cfg (simulator d) then
    let light := TrafficLight_update (traffic_light d) in
    match step cfg rnd (simulator d) with
    | (Raise e, s') => Crashed e (mkDisplay s' light (sprites d))
    | (Ok _, s') =>
        let sp := sprites d
                  ++ new_sprites x_draw (vehicles s') (length (sprites d)) in
        match congestion_level (roads s') with
        | Raise e => Crashed e (mkDisplay s' light sp)
        | Ok c => Showing (mkDisplay s' light (Vehicle_move c <$> sp))
        end
    end
  else Closed d.

Fixpoint frames (cfg : Settings) (rnd : Random) (x_draw : Z -> nat)
    (n : nat) (d : Display) : display_outcome :=
  match n with
  | O => Showing d
  | S n' =>
      match frame_once cfg rnd x_draw d with
      | Showing d' => frames cfg rnd x_draw n' d'
      | o => o
      end
  end.

(** run_simulation_with_visualization, for at most [n] iterations of its
    loop; the traffic light stands at the middle of the screen. *)
Definition run_simulation_with_visualization (cfg : Settings) (rnd : Random)
    (x_draw : Z -> nat) (n : nat) (roads : list Road) : display_outcome :=
  frames cfg rnd x_draw n
    (mkDisplay (initial_sim roads)
               (TrafficLight_init (SCREEN_WIDTH / 2, 350)) []).

(** What start_simulation goes on to do: the loop of
    run_simulation_with_visualization on the roads it has built, for at
    most [n] iterations. *)
Definition visualize (rnd : Random) (x_draw : Z -> nat) (n : nat)
    (started : Result (Settings * Sim)) : Result display_outcome :=
  match started with
  | Ok (cfg, s) =>
      Ok (run_simulation_with_visualization cfg rnd x_draw n (roads s))
  | Raise e => Raise e
  end.

(** * Vocabulary of the properties *)

(** The exact quotient that [ratio] rounds. *)
Definition exact_ratio (r : Road) : Q :=
  (inject_Z (current_load r) / inject_Z (capacity r))%Q.

(** The double that [current_load / capacity] evaluates to. *)
Definition float_ratio (r : Road) : Q := round_double (exact_ratio r).

(** The ratio of the road is defined. *)
Definition nonzero_capacity (r : Road) : Prop := capacity r <> 0.

(** The bound that policy B tests before it admits a vehicle. *)
Definition within_capacity (r : Road) : Prop := current_load r <= capacity r.

(** The fields of a road that no load update touches. *)
Definition frame (r : Road) : string * Z * list Q :=
  (name r, capacity r, history r).

(** Two vehicles that differ at most in their priority. *)
Definition same_but_priority (v v' : Vehicle) : Prop :=
  vehicle_id v = vehicle_id v' /\ weight v = weight v'.

(** Road [r], at position [i] of [st], has the least ratio of [st], as
    the division computes it, and is the first road to have it. *)
Definition first_min_ratio (st : list Road) (i : nat) (r : Road) : Prop :=
  st !! i = Some r
  /\ (forall j r', st !! j = Some r' -> (float_ratio r <= float_ratio r')%Q)
  /\ (forall j r', (j < i)%nat -> st !! j = Some r' ->
        (float_ratio r < float_ratio r')%Q).

(** Policy A in the words of the specification: each vehicle in turn goes
    to the first road of least ratio, and its weight is added to that
    road's load there and then, whatever the capacity. *)
Inductive greedy_least_ratio :
    gmap Z string -> list Road -> list Vehicle ->
    gmap Z string -> list Road -> Prop :=
| greedy_nil a st : greedy_least_ratio a st [] a st
| greedy_cons a st v vs i r a' st' :
    first_min_ratio st i r ->
    greedy_least_ratio (<[vehicle_id v := name r]> a)
                       (alter (add_load (weight v)) i st) vs a' st' ->
    greedy_least_ratio a st (v :: vs) a' st'.

(** The ids of the vehicles are their positions in [self.vehicles]. *)
Definition ids_sequential (vs : list Vehicle) : Prop :=
  forall i v, vs !! i = Some v -> vehicle_id v = Z.of_nat i.

(** Entries of a log that name road [i]. *)
Definition count_for (i : nat) (log : list (Z * nat)) : nat :=
  length (filter (fun x => snd x = i) log).

(** The event is the pending timeout of a vehicle held on road [i]. *)
Definition holds (i : nat) (e : event) : Prop :=
  match ev_kind e with
  | ResumeVehicle _ j => j = i
  | _ => False
  end.

#[global] Instance holds_dec (i : nat) (e : event) : Decision (holds i e).
Proof. unfold holds. destruct (ev_kind e); apply _. Defined.

(** The number of vehicles held on road [i]. *)
Definition held_on (i : nat) (q : list event) : nat :=
  length (filter (holds i) q).

(** The event is not that of a process that raised. *)
Definition not_failed (e : event) : Prop :=
  match ev_kind e with
  | ProcessFailed _ => False
  | _ => True
  end.

(** When an event of each kind can be due, for horizon [H]. *)
Definition timing (H : Z) (e : event) : Prop :=
  match ev_kind e with
  | InitGenerator => ev_time e = 0
  | ResumeGenerator hour => ev_time e = hour + 1 /\ hour < H
  | InitVehicle _ => ev_time e < H
  | ResumeVehicle _ _ | ProcessEnded | ProcessFailed _ => ev_time e <= H
  end.

(** What every state of a run satisfies. *)
Record accounted (H : Z) (s : Sim) : Prop := {
  acc_history : forall i r, roads s !! i = Some r ->
      length (history r) = count_for i (completed_log s);
  acc_assigned : forall i,
      (count_for i (completed_log s) + held_on i (queue s)
       <= count_for i (assigned_log s))%nat;
  acc_timing : Forall (timing H) (queue s)
}.

(** What holds in addition as long as no process has failed. *)
Definition balanced (s : Sim) : Prop :=
  Forall not_failed (queue s) ->
  forall i, count_for i (assigned_log s)
            = (count_for i (completed_log s) + held_on i (queue s))%nat.

(** The computation changes loads only, also when it raises. *)
Definition preserves_frame {A} (m : M A) : Prop :=
  forall st, frame <$> snd (m st) = frame <$> st.

(** The events that the generator can schedule at time [t] when it
    reaches [hour]. *)
Definition generated (H hour t : Z) (e : event) : Prop :=
  match ev_kind e with
  | InitVehicle _ => ev_time e = t /\ hour < H
  | ResumeGenerator h => h = hour /\ ev_time e = t + 1 /\ hour < H
  | ProcessFailed _ => ev_time e = t /\ hour < H
  | ProcessEnded => ev_time e = t /\ H <= hour
  | InitGenerator | ResumeVehicle _ _ => False
  end.

(** The number of vehicles the generator creates in an hour. *)
Definition arrivals (cfg : Settings) (rnd : Random) (hour : Z) : nat :=
  match num_vehicles cfg rnd hour with
  | Ok n => n
  | Raise _ => 0%nat
  end.

(** The number of loop iterations that the generator causes from [hour]
    on, [k] hours before the horizon: three per vehicle (start, release,
    end of process), one per hourly timeout, one for its own end. *)
Fixpoint generator_cost (cfg : Settings) (rnd : Random) (k : nat) (hour : Z)
    : nat :=
  match k with
  | O => 1
  | S k' =>
      3 * arrivals cfg rnd hour + 1 + generator_cost cfg rnd k' (hour + 1)
  end.

(** The same, with the hours left computed from the horizon. *)
Definition generator_cost_from (cfg : Settings) (rnd : Random) (hour : Z)
    : nat :=
  generator_cost cfg rnd (Z.to_nat (time_window cfg - hour)) hour.

(** The number of loop iterations an event in the queue stands for. *)
Definition cost (cfg : Settings) (rnd : Random) (e : event) : nat :=
  match ev_kind e with
  | InitGenerator => 1 + generator_cost_from cfg rnd 0
  | ResumeGenerator hour => 1 + generator_cost_from cfg rnd (hour + 1)
  | InitVehicle _ => 3
  | ResumeVehicle _ _ => 2
  | ProcessEnded | ProcessFailed _ => 1
  end.

(** The number of loop iterations still to come. *)
Definition pending (cfg : Settings) (rnd : Random) (q : list event) : nat :=
  sum_list_with (cost cfg rnd) q.

(** The event is not a failure, and a held vehicle is held on one of the
    [len] roads. *)
Definition safe_event (len : nat) (e : event) : Prop :=
  match ev_kind e with
  | ProcessFailed _ => False
  | ResumeVehicle _ i => (i < len)%nat
  | _ => True
  end.

(** No process has failed, and none can. *)
Record safe (s : Sim) : Prop := {
  safe_nonempty : roads s <> [];
  safe_nonzero : Forall nonzero_capacity (roads s);
  safe_queue : Forall (safe_event (length (roads s))) (queue s)
}.

(** sum(road.current_load for road in roads) *)
Definition total_load (st : list Road) : Z :=
  foldr (fun r acc => current_load r + acc) 0 st.

(** The sum of the weights of a batch of vehicles. *)
Definition total_weight (vs : list Vehicle) : Z :=
  foldr (fun v acc => weight v + acc) 0 vs.

(** Loads and capacities below 2^53, which a double holds exactly, also
    while the batch [vs] is added to the roads [st]: there the quotient
    of a load by a capacity is the same double whether the load is a
    Python integer or an integer scalar of numpy. *)
Definition exact_in_doubles (st : list Road) (vs : list Vehicle) : Prop :=
  Forall (fun r => Z.abs (capacity r) < 2 ^ 53 /\ 0 <= current_load r) st
  /\ Forall (fun v => 0 <= weight v) vs
  /\ total_load st + total_weight vs < 2 ^ 53.

(** The order of the sorted roads: by ratio, and by position in the list
    among roads of equal ratio. *)
Definition key_le (x y : Q * nat) : Prop :=
  (fst x < fst y)%Q \/ ((fst x == fst y)%Q /\ (snd x <= snd y)%nat).

Fixpoint ascending (l : list (Q * nat)) : Prop :=
  match l with
  | [] => True
  | x :: l' => Forall (key_le x) l' /\ ascending l'
  end.

(** road.current_load + vehicle.weight <= road.capacity *)
Definition fits (w : Z) (r : Road) : Prop :=
  current_load r + w <= capacity r.

(** A vehicle as the generator makes them. *)
Definition well_formed (v : Vehicle) : Prop :=
  weight v ∈ [1; 2; 3] /\ priority v ∈ [1; 2; 3; 4; 5].

(** No event of the queue lies in the past. *)
Definition not_in_the_past (s : Sim) : Prop :=
  Forall (fun e => now s <= ev_time e) (queue s).

(** The vehicles of the [k] hours that start with [hour]. *)
Fixpoint arrivals_from (cfg : Settings) (rnd : Random) (k : nat) (hour : Z)
    : nat :=
  match k with
  | O => 0
  | S k' => arrivals cfg rnd hour + arrivals_from cfg rnd k' (hour + 1)
  end.

(** The vehicles of the hours from [hour] up to the horizon. *)
Definition arrivals_after (cfg : Settings) (rnd : Random) (hour : Z) : nat :=
  arrivals_from cfg rnd (Z.to_nat (time_window cfg - hour)) hour.

(** The vehicles of the whole run: those of the hours 0, ..., H - 1. *)
Definition total_arrivals (cfg : Settings) (rnd : Random) : nat :=
  arrivals_after cfg rnd 0.

(** The vehicles that the generator has yet to create when the event is
    in the queue. *)
Definition still_to_come (cfg : Settings) (rnd : Random) (e : event) : nat :=
  match ev_kind e with
  | InitGenerator => arrivals_after cfg rnd 0
  | ResumeGenerator hour => arrivals_after cfg rnd (hour + 1)
  | _ => 0%nat
  end.

(** When the events of the generator are due. *)
Definition generator_timing (H : Z) (e : event) : Prop :=
  match ev_kind e with
  | InitGenerator => ev_time e = 0
  | ResumeGenerator hour => ev_time e = hour + 1 /\ hour < H
  | _ => True
  end.

(** Where the traffic light stands in its cycle of 133 updates. *)
Definition phase (l : TrafficLight) : Z :=
  match state l with
  | Green => timer l
  | Yellow => 61 + timer l
  | Red => 72 + timer l
  end.

(** The timer is within the span of its state. *)
Definition light_ok (l : TrafficLight) : Prop :=
  0 <= timer l
  /\ timer l <= match state l with Green | Red => 60 | Yellow => 10 end.

(** The vehicle is on the screen and moves. *)
Definition on_screen (v : Sprite) : Prop :=
  0 <= sprite_x v <= SCREEN_WIDTH /\ 1 <= sprite_speed v.

(** The sum of an integer quantity over a list. *)
Definition sumZ {A} (f : A -> Z) (l : list A) : Z :=
  foldr (fun x acc => f x + acc) 0 l.

(** The weight of a vehicle whose process has not started yet. *)
Definition waiting_weight (e : event) : Z :=
  match ev_kind e with
  | InitVehicle v => weight v
  | _ => 0
  end.

(** The weight of a vehicle that is held on a road. *)
Definition held_weight (e : event) : Z :=
  match ev_kind e with
  | ResumeVehicle v _ => weight v
  | _ => 0
  end.

(** The same, for the vehicles held on road [i]. *)
Definition held_weight_on (i : nat) (e : event) : Z :=
  match ev_kind e with
  | ResumeVehicle v j => if decide (j = i) then weight v else 0
  | _ => 0
  end.

(** No vehicle of the queue has a negative weight. *)
Definition weights_ok (e : event) : Prop :=
  0 <= waiting_weight e /\ 0 <= held_weight e.

(** What the loads of the roads satisfy at every point of a run: each
    road carries at least twice the weight of the vehicles held on it. *)
Record loaded (s : Sim) : Prop := {
  ld_names : NoDup (name <$> roads s);
  ld_weights : Forall weights_ok (queue s);
  ld_road : forall i r, roads s !! i = Some r ->
      2 * sumZ (held_weight_on i) (queue s) <= current_load r
}.

(** The balance of the loads as long as no process has failed: [l0] is
    the sum of the loads the run started with. *)
Definition load_balance (l0 : Z) (s : Sim) : Prop :=
  Forall not_failed (queue s) ->
  total_load (roads s) + sumZ waiting_weight (queue s)
  = l0 + total_weight (vehicles s) + sumZ held_weight (queue s).

(** * Properties *)

(** ** Rational comparisons *)

Lemma Qltb_lt (x y : Q) : Qltb x y = true <-> (x < y)%Q.
Proof.
  unfold Qltb. rewrite Qlt_alt.
  destruct (x ?= y)%Q; split; congruence.
Qed.

Lemma Qltb_ge (x y : Q) : Qltb x y = false <-> (y <= x)%Q.
Proof.
  pose proof (Qltb_lt x y) as Hlt.
  split.
  - intros Hb. apply Qnot_lt_le. intros H. apply Hlt in H. congruence.
  - intros Hle. destruct (Qltb x y); [| reflexivity].
    exfalso. apply (Qle_not_lt _ _ Hle). now apply Hlt.
Qed.

Lemma Qleb_le (x y : Q) : Qleb x y = true <-> (x <= y)%Q.
Proof.
  unfold Qleb. rewrite Qle_alt.
  destruct (x ?= y)%Q; split; congruence.
Qed.

(** ** Doubles: what rounding keeps

    [ilog2] is the floor of the binary logarithm; rounding to a double
    keeps the order of two numbers and leaves a double as it is. *)

Lemma Qleb_gt (x y : Q) : Qleb x y = false <-> (y < x)%Q.
Proof.
  unfold Qleb. destruct (Qcompare_spec x y) as [H | H | H]; split;
    try congruence; intros H'.
  - rewrite H in H'. now apply Qlt_irrefl in H'.
  - exfalso. apply (Qlt_irrefl x). now apply Qlt_trans with y.
Qed.

Lemma pow2_pos (e : Z) : (0 < 2 ^ e)%Q.
Proof. now apply Qpower_0_lt. Qed.

Lemma pow2_add (a b : Z) : (2 ^ (a + b) == 2 ^ a * 2 ^ b)%Q.
Proof. now apply Qpower_plus. Qed.

Lemma pow2_le (a b : Z) : a <= b -> (2 ^ a <= 2 ^ b)%Q.
Proof. intros H. apply Qpower_le_compat_l; [exact H | discriminate]. Qed.

Lemma pow2_lt_inv (a b : Z) : (2 ^ a < 2 ^ b)%Q -> a < b.
Proof. intros H. apply (Qpower_lt_compat_l_inv 2); [exact H | reflexivity]. Qed.

Lemma pow2_Z (a : Z) : 0 <= a -> (inject_Z (2 ^ a) == 2 ^ a)%Q.
Proof. intros H. now rewrite Zpower_Qpower. Qed.

Lemma ilog2_spec (x : Q) :
  (0 < x)%Q -> (2 ^ ilog2 x <= x)%Q /\ (x < 2 ^ (ilog2 x + 1))%Q.
Proof.
  intros Hx. destruct x as [n d].
  assert (0 < n) as Hn by (unfold Qlt in Hx; cbn in Hx; lia).
  set (a := Z.log2 n). set (b := Z.log2 (Z.pos d)).
  pose proof (Z.log2_spec n Hn) as [Ha1 Ha2].
  pose proof (Z.log2_spec (Z.pos d) eq_refl) as [Hb1 Hb2].
  pose proof (Z.log2_nonneg n) as Ha0.
  pose proof (Z.log2_nonneg (Z.pos d)) as Hb0.
  fold a in Ha1, Ha2, Ha0. fold b in Hb1, Hb2, Hb0.
  assert (forall u v : Z, 0 <= v -> u <= 2 ^ v -> (inject_Z u <= 2 ^ v)%Q)
    as Hle.
  { intros u v Hv Hu. rewrite <- pow2_Z by exact Hv. now rewrite <- Zle_Qle. }
  assert (forall u v : Z, 0 <= v -> 2 ^ v <= u -> (2 ^ v <= inject_Z u)%Q)
    as Hge.
  { intros u v Hv Hu. rewrite <- pow2_Z by exact Hv. now rewrite <- Zle_Qle. }
  assert (forall u v : Z, 0 <= v -> u < 2 ^ v -> (inject_Z u < 2 ^ v)%Q)
    as Hlt.
  { intros u v Hv Hu. rewrite <- pow2_Z by exact Hv. now rewrite <- Zlt_Qlt. }
  assert (0 < inject_Z (Z.pos d))%Q as Hd by reflexivity.
  assert (2 ^ (a - b - 1) <= n # d)%Q as Hlow.
  { rewrite (Qmake_Qdiv n d). apply Qle_shift_div_l; [exact Hd |].
    apply Qle_trans with (2 ^ (a - b - 1) * 2 ^ (b + 1))%Q.
    - apply Qmult_le_l; [apply pow2_pos |].
      apply Qlt_le_weak, Hlt; lia.
    - rewrite <- pow2_add. replace (a - b - 1 + (b + 1)) with a by lia.
      apply Hge; lia. }
  assert (n # d < 2 ^ (a - b + 1))%Q as Hup.
  { rewrite (Qmake_Qdiv n d). apply Qlt_shift_div_r; [exact Hd |].
    apply Qlt_le_trans with (2 ^ (a - b + 1) * 2 ^ b)%Q.
    - rewrite <- pow2_add. replace (a - b + 1 + b) with (a + 1) by lia.
      apply Hlt; lia.
    - apply Qmult_le_l; [apply pow2_pos |]. apply Hge; lia. }
  unfold ilog2. cbn [Qnum Qden]. fold a b.
  destruct (Qleb (2 ^ (a - b)) (n # d)) eqn:Hc.
  - apply Qleb_le in Hc. split; [exact Hc | exact Hup].
  - apply Qleb_gt in Hc. split; [exact Hlow |].
    now replace (a - b - 1 + 1) with (a - b) by lia.
Qed.

Lemma ilog2_unique (x : Q) (k : Z) :
  (2 ^ k <= x)%Q -> (x < 2 ^ (k + 1))%Q -> ilog2 x = k.
Proof.
  intros H1 H2.
  assert (0 < x)%Q as Hx by (eapply Qlt_le_trans; [apply pow2_pos | exact H1]).
  destruct (ilog2_spec x Hx) as [H3 H4].
  assert (ilog2 x < k + 1)
    by (apply pow2_lt_inv; eapply Qle_lt_trans; eassumption).
  assert (k < ilog2 x + 1)
    by (apply pow2_lt_inv; eapply Qle_lt_trans; eassumption).
  lia.
Qed.

Lemma ilog2_lt (x : Q) (k : Z) : (0 < x)%Q -> (x < 2 ^ k)%Q -> ilog2 x < k.
Proof.
  intros Hx H. destruct (ilog2_spec x Hx) as [H1 _].
  apply pow2_lt_inv. eapply Qle_lt_trans; eassumption.
Qed.

Lemma ilog2_ge (x : Q) (k : Z) : (2 ^ k <= x)%Q -> k <= ilog2 x.
Proof.
  intros H.
  assert (0 < x)%Q as Hx by (eapply Qlt_le_trans; [apply pow2_pos | exact H]).
  destruct (ilog2_spec x Hx) as [_ H2].
  assert (k < ilog2 x + 1)
    by (apply pow2_lt_inv; eapply Qle_lt_trans; eassumption).
  lia.
Qed.

Lemma ilog2_mono (x y : Q) : (0 < x)%Q -> (x <= y)%Q -> ilog2 x <= ilog2 y.
Proof.
  intros Hx Hxy. destruct (ilog2_spec x Hx) as [H1 _].
  apply ilog2_ge. eapply Qle_trans; eassumption.
Qed.

Lemma ilog2_comp (x y : Q) : (0 < x)%Q -> (x == y)%Q -> ilog2 x = ilog2 y.
Proof.
  intros Hx Hxy. destruct (ilog2_spec x Hx) as [H1 H2]. symmetry.
  apply ilog2_unique.
  - apply Qle_trans with x; [exact H1 |]. apply Qle_lteq. now right.
  - apply Qle_lt_trans with x; [| exact H2]. apply Qle_lteq. right.
    now apply Qeq_sym.
Qed.

(** *** Rounding to the nearest integer *)

Lemma rhe_bounds (x : Q) :
  Qfloor x <= round_half_even x <= Qfloor x + 1.
Proof.
  unfold round_half_even.
  destruct (_ ?= _)%Q; [destruct (Z.even _) | |]; lia.
Qed.

Lemma rhe_Z (n : Z) : round_half_even (inject_Z n) = n.
Proof.
  unfold round_half_even. rewrite Qfloor_Z.
  assert ((inject_Z n - inject_Z n ?= 1 # 2)%Q = Lt) as ->; [| reflexivity].
  change (inject_Z n - inject_Z n < 1 # 2)%Q. unfold Qlt. cbn. lia.
Qed.

Lemma rhe_comp (x y : Q) :
  (x == y)%Q -> round_half_even x = round_half_even y.
Proof.
  intros H. unfold round_half_even. rewrite (Qfloor_comp x y H).
  assert ((x - inject_Z (Qfloor y) ?= 1 # 2)%Q
          = (y - inject_Z (Qfloor y) ?= 1 # 2)%Q) as ->; [| reflexivity].
  apply Qcompare_comp; [| reflexivity].
  unfold Qminus. apply Qplus_comp; [exact H | reflexivity].
Qed.

Lemma rhe_ge_Z (x : Q) (n : Z) :
  (inject_Z n <= x)%Q -> n <= round_half_even x.
Proof.
  intros H. pose proof (Qfloor_resp_le _ _ H) as Hf. rewrite Qfloor_Z in Hf.
  pose proof (rhe_bounds x). lia.
Qed.

Lemma rhe_le_Z (x : Q) (n : Z) :
  (x <= inject_Z n)%Q -> round_half_even x <= n.
Proof.
  intros H. pose proof (Qfloor_resp_le _ _ H) as Hf. rewrite Qfloor_Z in Hf.
  pose proof (rhe_bounds x) as Hb.
  destruct (Z.eq_dec (Qfloor x) n) as [He | Hne]; [| lia].
  assert (x == inject_Z n)%Q as Hx.
  { apply Qle_antisym; [exact H |]. rewrite <- He. apply Qfloor_le. }
  rewrite (rhe_comp _ _ Hx), rhe_Z. lia.
Qed.

Lemma rhe_mono (x y : Q) :
  (x <= y)%Q -> round_half_even x <= round_half_even y.
Proof.
  intros H. pose proof (Qfloor_resp_le _ _ H) as Hf.
  pose proof (rhe_bounds x) as Hx. pose proof (rhe_bounds y) as Hy.
  destruct (Z.eq_dec (Qfloor x) (Qfloor y)) as [He | Hne]; [| lia].
  clear Hx Hy. unfold round_half_even. rewrite He.
  assert (x - inject_Z (Qfloor y) <= y - inject_Z (Qfloor y))%Q as Hr.
  { unfold Qminus. apply Qplus_le_compat; [exact H | apply Qle_refl]. }
  destruct (Qcompare_spec (x - inject_Z (Qfloor y)) (1 # 2)) as [H1 | H1 | H1];
    destruct (Qcompare_spec (y - inject_Z (Qfloor y)) (1 # 2))
      as [H2 | H2 | H2];
    try (destruct (Z.even (Qfloor y))); try lia; exfalso;
    apply (Qlt_irrefl (1 # 2));
    first
      [ apply Qle_lt_trans with (y - inject_Z (Qfloor y))%Q; [| exact H2];
        apply Qle_trans with (x - inject_Z (Qfloor y))%Q; [| exact Hr];
        apply Qle_lteq; right; now apply Qeq_sym
      | apply Qlt_le_trans with (x - inject_Z (Qfloor y))%Q; [exact H1 |];
        apply Qle_trans with (y - inject_Z (Qfloor y))%Q; [exact Hr |];
        apply Qle_lteq; now right
      | apply Qlt_le_trans with (x - inject_Z (Qfloor y))%Q; [exact H1 |];
        apply Qle_trans with (y - inject_Z (Qfloor y))%Q; [exact Hr |];
        now apply Qlt_le_weak ].
Qed.

(** *** Rounding to a double *)

Lemma pow2_nonzero (e : Z) : ~ (2 ^ e == 0)%Q.
Proof.
  intros H. pose proof (pow2_pos e) as Hp. rewrite H in Hp.
  now apply Qlt_irrefl in Hp.
Qed.

Lemma scaled_pos (x : Q) (e : Z) : (0 < x)%Q -> (0 < x / 2 ^ e)%Q.
Proof.
  intros Hx. apply Qlt_shift_div_l; [apply pow2_pos |].
  now rewrite Qmult_0_l.
Qed.

Lemma round_pos_eq (x : Q) :
  (round_pos x
   == inject_Z (round_half_even (x / 2 ^ double_exp x)) * 2 ^ double_exp x)%Q.
Proof. unfold round_pos. apply Qred_correct. Qed.

Lemma round_pos_nonneg (x : Q) : (0 < x)%Q -> (0 <= round_pos x)%Q.
Proof.
  intros Hx. rewrite round_pos_eq. apply Qmult_le_0_compat.
  - change 0%Q with (inject_Z 0). rewrite <- Zle_Qle. apply rhe_ge_Z.
    apply Qlt_le_weak. now apply scaled_pos.
  - apply Qlt_le_weak, pow2_pos.
Qed.

Lemma double_exp_comp (x y : Q) :
  (0 < x)%Q -> (x == y)%Q -> double_exp x = double_exp y.
Proof. intros Hx H. unfold double_exp. now rewrite (ilog2_comp x y). Qed.

Lemma round_pos_comp (x y : Q) :
  (0 < x)%Q -> (x == y)%Q -> round_pos x = round_pos y.
Proof.
  intros Hx H. unfold round_pos. rewrite (double_exp_comp x y Hx H).
  rewrite (rhe_comp (x / 2 ^ double_exp y) (y / 2 ^ double_exp y));
    [reflexivity |].
  unfold Qdiv. apply Qmult_comp; [exact H | reflexivity].
Qed.

(** A number with at most 53 significant bits, not below the least
    subnormal exponent, is a double: rounding leaves it as it is. *)
Lemma round_pos_exact (x : Q) (m e0 : Z) :
  (x == inject_Z m * 2 ^ e0)%Q -> 0 < m < 2 ^ 53 -> -1074 <= e0 ->
  round_pos x = Qred x.
Proof.
  intros Hx [Hm1 Hm2] He0.
  assert (0 < inject_Z m)%Q as Hm0
    by (change 0%Q with (inject_Z 0); now rewrite <- Zlt_Qlt).
  assert (0 < x)%Q as Hpos.
  { rewrite Hx. apply Qmult_lt_0_compat; [exact Hm0 | apply pow2_pos]. }
  assert (x < 2 ^ (53 + e0))%Q as Hlt.
  { rewrite Hx, pow2_add. apply Qmult_lt_r; [apply pow2_pos |].
    rewrite <- pow2_Z by lia. now rewrite <- Zlt_Qlt. }
  pose proof (ilog2_lt x _ Hpos Hlt) as Hk.
  set (e := double_exp x).
  assert (e <= e0) as He by (unfold e, double_exp; lia).
  assert (x / 2 ^ e == inject_Z (m * 2 ^ (e0 - e)))%Q as Hscaled.
  { rewrite inject_Z_mult, (pow2_Z (e0 - e)) by lia. rewrite Hx.
    replace e0 with ((e0 - e) + e) at 1 by lia. rewrite pow2_add.
    field. apply pow2_nonzero. }
  unfold round_pos. fold e.
  rewrite (rhe_comp _ _ Hscaled), rhe_Z.
  apply Qred_complete.
  rewrite inject_Z_mult, (pow2_Z (e0 - e)) by lia. rewrite Hx.
  replace e0 with ((e0 - e) + e) at 2 by lia. rewrite pow2_add.
  ring.
Qed.

Lemma round_pos_mono (x y : Q) :
  (0 < x)%Q -> (x <= y)%Q -> (round_pos x <= round_pos y)%Q.
Proof.
  intros Hx Hxy.
  assert (0 < y)%Q as Hy by (eapply Qlt_le_trans; eassumption).
  pose proof (ilog2_mono x y Hx Hxy) as Hk.
  destruct (ilog2_spec x Hx) as [_ Hx2].
  destruct (ilog2_spec y Hy) as [Hy1 _].
  rewrite !round_pos_eq.
  set (ex := double_exp x). set (ey := double_exp y).
  assert (ex <= ey) as Hle by (unfold ex, ey, double_exp; lia).
  destruct (Z.eq_dec ex ey) as [He | Hne].
  - rewrite He. apply Qmult_le_compat_r; [| apply Qlt_le_weak, pow2_pos].
    rewrite <- Zle_Qle. apply rhe_mono.
    unfold Qdiv. apply Qmult_le_compat_r; [exact Hxy |].
    apply Qlt_le_weak, Qinv_lt_0_compat, pow2_pos.
  - assert (ey = ilog2 y - 52) as Hey by (unfold ex, ey, double_exp in *; lia).
    assert (ilog2 x - 52 <= ex) as Hex by (unfold ex, double_exp; lia).
    apply Qle_trans with (2 ^ (52 + ey))%Q.
    + apply Qle_trans with (inject_Z (2 ^ 53) * 2 ^ ex)%Q.
      * apply Qmult_le_compat_r; [| apply Qlt_le_weak, pow2_pos].
        rewrite <- Zle_Qle. apply rhe_le_Z.
        apply Qle_shift_div_r; [apply pow2_pos |].
        rewrite (pow2_Z 53) by lia. rewrite <- pow2_add.
        apply Qlt_le_weak. eapply Qlt_le_trans; [exact Hx2 |].
        apply pow2_le. lia.
      * rewrite (pow2_Z 53) by lia. rewrite <- pow2_add.
        apply pow2_le. lia.
    + apply Qle_trans with (inject_Z (2 ^ 52) * 2 ^ ey)%Q.
      * rewrite (pow2_Z 52) by lia. rewrite <- pow2_add. apply Qle_refl.
      * apply Qmult_le_compat_r; [| apply Qlt_le_weak, pow2_pos].
        rewrite <- Zle_Qle. apply rhe_ge_Z.
        apply Qle_shift_div_l; [apply pow2_pos |].
        rewrite (pow2_Z 52) by lia. rewrite <- pow2_add.
        eapply Qle_trans; [| exact Hy1]. apply pow2_le. lia.
Qed.

Lemma round_double_pos (x : Q) : (0 < x)%Q -> round_double x = round_pos x.
Proof.
  intros Hx. unfold round_double.
  destruct (Qcompare_spec x 0) as [H | H | H]; [| | reflexivity]; exfalso.
  - rewrite H in Hx. now apply Qlt_irrefl in Hx.
  - apply (Qlt_irrefl x). now apply Qlt_trans with 0%Q.
Qed.

Lemma round_double_neg (x : Q) :
  (x < 0)%Q -> round_double x = (- round_pos (- x))%Q.
Proof.
  intros Hx. unfold round_double.
  destruct (Qcompare_spec x 0) as [H | H | H]; [| reflexivity |]; exfalso.
  - rewrite H in Hx. now apply Qlt_irrefl in Hx.
  - apply (Qlt_irrefl x). now apply Qlt_trans with 0%Q.
Qed.

Lemma round_double_zero (x : Q) : (x == 0)%Q -> round_double x = 0%Q.
Proof.
  intros Hx. unfold round_double. apply Qeq_alt in Hx. now rewrite Hx.
Qed.

Lemma Qopp_pos (x : Q) : (x < 0)%Q -> (0 < - x)%Q.
Proof. intros H. apply Qopp_lt_compat in H. exact H. Qed.

Lemma round_double_nonneg (x : Q) : (0 <= x)%Q -> (0 <= round_double x)%Q.
Proof.
  intros Hx. apply Qle_lteq in Hx as [Hx | Hx].
  - rewrite (round_double_pos x Hx). now apply round_pos_nonneg.
  - rewrite (round_double_zero x); [apply Qle_refl | now apply Qeq_sym].
Qed.

Lemma round_double_nonpos (x : Q) : (x <= 0)%Q -> (round_double x <= 0)%Q.
Proof.
  intros Hx. apply Qle_lteq in Hx as [Hx | Hx].
  - rewrite (round_double_neg x Hx).
    change 0%Q with (- 0)%Q. apply Qopp_le_compat.
    apply round_pos_nonneg. now apply Qopp_pos.
  - rewrite (round_double_zero x Hx). apply Qle_refl.
Qed.

Lemma round_double_comp (x y : Q) :
  (x == y)%Q -> round_double x = round_double y.
Proof.
  intros H.
  destruct (Qcompare_spec x 0) as [Hx | Hx | Hx].
  - rewrite (round_double_zero x Hx), (round_double_zero y); [reflexivity |].
    now rewrite <- H.
  - assert (y < 0)%Q as Hy by now rewrite <- H.
    rewrite (round_double_neg x Hx), (round_double_neg y Hy).
    f_equal. apply round_pos_comp; [now apply Qopp_pos |].
    now apply Qopp_comp.
  - assert (0 < y)%Q as Hy by now rewrite <- H.
    rewrite (round_double_pos x Hx), (round_double_pos y Hy).
    now apply round_pos_comp.
Qed.

(** Rounding never reverses the order of two numbers. *)
Lemma round_double_mono (x y : Q) :
  (x <= y)%Q -> (round_double x <= round_double y)%Q.
Proof.
  intros H.
  destruct (Qcompare_spec x 0) as [Hx | Hx | Hx].
  - rewrite (round_double_zero x Hx). apply round_double_nonneg.
    now rewrite <- Hx.
  - destruct (Qcompare_spec y 0) as [Hy | Hy | Hy].
    + rewrite (round_double_zero y Hy). apply round_double_nonpos.
      now apply Qlt_le_weak.
    + rewrite (round_double_neg x Hx), (round_double_neg y Hy).
      apply Qopp_le_compat. apply round_pos_mono; [now apply Qopp_pos |].
      now apply Qopp_le_compat.
    + apply Qle_trans with 0%Q.
      * apply round_double_nonpos. now apply Qlt_le_weak.
      * apply round_double_nonneg. now apply Qlt_le_weak.
  - assert (0 < y)%Q as Hy by (eapply Qlt_le_trans; eassumption).
    rewrite (round_double_pos x Hx), (round_double_pos y Hy).
    now apply round_pos_mono.
Qed.

(** Doubles are left as they are. *)
Lemma round_double_exact (x : Q) (m e0 : Z) :
  (x == inject_Z m * 2 ^ e0)%Q -> Z.abs m < 2 ^ 53 -> -1074 <= e0 ->
  round_double x = Qred x.
Proof.
  intros Hx Hm He0.
  destruct (Z.lt_trichotomy m 0) as [Hneg | [Hz | Hpos]].
  - assert (x < 0)%Q as Hlt.
    { rewrite Hx. rewrite <- (Qmult_0_l (2 ^ e0)).
      apply Qmult_lt_compat_r; [apply pow2_pos |].
      change 0%Q with (inject_Z 0). now rewrite <- Zlt_Qlt. }
    rewrite (round_double_neg x Hlt).
    rewrite (round_pos_exact (- x) (- m) e0); [| | lia | lia].
    + rewrite Qred_opp. destruct (Qred x) as [n d].
      unfold Qopp. cbn. now rewrite Z.opp_involutive.
    + rewrite Hx, inject_Z_opp. ring.
  - subst m. assert (x == 0)%Q as H0 by (rewrite Hx; ring).
    rewrite (round_double_zero x H0). symmetry.
    change 0%Q with (Qred 0). now apply Qred_complete.
  - assert (0 < x)%Q as Hgt.
    { rewrite Hx. apply Qmult_lt_0_compat; [| apply pow2_pos].
      change 0%Q with (inject_Z 0). now rewrite <- Zlt_Qlt. }
    rewrite (round_double_pos x Hgt).
    apply (round_pos_exact x m e0); [exact Hx | lia | lia].
Qed.

(** *** Truncation, halves and overflow *)

Lemma Qtrunc_sgn (q : Q) : Qtrunc q = Z.sgn (Qnum q) * Qfloor (Qabs q).
Proof.
  destruct q as [n d]. unfold Qtrunc, Qabs, Qfloor. cbn [Qnum Qden].
  rewrite Z.quot_div by discriminate.
  change (Z.sgn (Z.pos d)) with 1. change (Z.abs (Z.pos d)) with (Z.pos d).
  now rewrite Z.mul_1_r.
Qed.

Lemma Qtrunc_comp (p q : Q) : (p == q)%Q -> Qtrunc p = Qtrunc q.
Proof.
  intros H. rewrite !Qtrunc_sgn.
  rewrite (Qfloor_comp (Qabs p) (Qabs q)) by now apply Qabs_wd.
  f_equal. unfold Qeq in H.
  assert (Z.sgn (Qnum p * QDen q) = Z.sgn (Qnum q * QDen p)) as Hs
    by now rewrite H.
  rewrite !Z.sgn_mul in Hs. cbn in Hs. lia.
Qed.

Lemma Qtrunc_Z (n : Z) : Qtrunc (inject_Z n) = n.
Proof. unfold Qtrunc. cbn. apply Z.quot_1_r. Qed.

Lemma Qtrunc_half (r : Z) : Qtrunc (inject_Z r / inject_Z 2) = Z.quot r 2.
Proof. unfold Qtrunc. cbn. now rewrite Z.mul_1_r. Qed.

Lemma Qtrunc_nonneg (q : Q) : (0 <= q)%Q -> 0 <= Qtrunc q.
Proof.
  intros H. destruct q as [n d]. unfold Qle in H. cbn in H.
  unfold Qtrunc. cbn [Qnum Qden]. apply Z.quot_pos; lia.
Qed.

(** An integer of at most 53 bits is a double, and so is its half. *)
Lemma round_double_Z (r : Z) :
  Z.abs r < 2 ^ 53 -> (round_double (inject_Z r) == inject_Z r)%Q.
Proof.
  intros Hr. rewrite (round_double_exact (inject_Z r) r 0); [| | exact Hr | lia].
  - apply Qred_correct.
  - change (2 ^ 0)%Q with 1%Q. now rewrite Qmult_1_r.
Qed.

(** Dividing the doubles nearest to two integers below 2^53, as numpy
    does, is dividing the integers. *)
Lemma quotient_of_exact_doubles (l c : Z) :
  Z.abs l < 2 ^ 53 -> Z.abs c < 2 ^ 53 ->
  round_double (round_double (inject_Z l) / round_double (inject_Z c))
  = round_double (inject_Z l / inject_Z c).
Proof.
  intros Hl Hc. apply round_double_comp.
  now rewrite (round_double_Z l Hl), (round_double_Z c Hc).
Qed.

Lemma round_double_half (r : Z) :
  Z.abs r < 2 ^ 53 ->
  (round_double (inject_Z r / inject_Z 2) == inject_Z r / inject_Z 2)%Q.
Proof.
  intros Hr.
  rewrite (round_double_exact (inject_Z r / inject_Z 2) r (-1));
    [| | exact Hr | lia].
  - apply Qred_correct.
  - reflexivity.
Qed.

Lemma overflows_false (x : Q) : (Qabs x < 2 ^ 1024)%Q -> overflows x = false.
Proof. intros H. now apply Qleb_gt. Qed.

Lemma overflows_true (x : Q) : (2 ^ 1024 <= Qabs x)%Q -> overflows x = true.
Proof. intros H. now apply Qleb_le. Qed.

Lemma pow2_double (k : Z) : 0 <= k -> round_double (2 ^ k) = Qred (2 ^ k).
Proof.
  intros Hk. apply (round_double_exact (2 ^ k) 1 k); [| cbn; lia | lia].
  now rewrite Qmult_1_l.
Qed.

Lemma half_small (r : Z) :
  Z.abs r < 2 ^ 53 -> (Qabs (inject_Z r / inject_Z 2) < 2 ^ 1024)%Q.
Proof.
  intros Hr.
  apply Qle_lt_trans with (inject_Z (2 ^ 53)).
  - apply Qabs_Qle_condition. split.
    + apply Qle_shift_div_l; [reflexivity |].
      rewrite <- inject_Z_opp, <- inject_Z_mult, <- Zle_Qle. lia.
    + apply Qle_shift_div_r; [reflexivity |].
      rewrite <- inject_Z_mult, <- Zle_Qle. lia.
  - rewrite (pow2_Z 53) by lia.
    apply Qpower_lt_compat_l; [lia | reflexivity].
Qed.

Lemma trunc_half_double (r : Z) :
  Z.abs r < 2 ^ 53 ->
  Qtrunc (round_double (inject_Z r / inject_Z 2)) = Z.quot r 2
  /\ overflows (round_double (inject_Z r / inject_Z 2)) = false.
Proof.
  intros Hr. pose proof (round_double_half r Hr) as Heq. split.
  - rewrite (Qtrunc_comp _ _ Heq). apply Qtrunc_half.
  - apply overflows_false. rewrite Heq. now apply half_small.
Qed.

(** From 2^1025 on, the half of a number is too large for a float. *)
Lemma half_overflows (r : Z) :
  2 ^ 1025 <= Z.abs r ->
  overflows (round_double (inject_Z r / inject_Z 2)) = true.
Proof.
  intros Hr. apply overflows_true.
  assert (round_double (2 ^ 1024) == 2 ^ 1024)%Q as Hpow
    by (rewrite pow2_double by lia; apply Qred_correct).
  assert (inject_Z (2 ^ 1025) == 2 ^ 1024 * inject_Z 2)%Q as H2.
  { rewrite (pow2_Z 1025) by lia. change 1025 with (1024 + 1).
    rewrite pow2_add. reflexivity. }
  destruct (Z.le_ge_cases 0 r) as [Hpos | Hneg].
  - apply Qabs_ge. rewrite <- Hpow. apply round_double_mono.
    apply Qle_shift_div_l; [reflexivity |].
    rewrite <- H2, <- Zle_Qle. lia.
  - rewrite <- Qabs_opp. apply Qabs_ge. rewrite <- Hpow.
    apply Qle_trans with (- round_double (- 2 ^ 1024))%Q.
    + rewrite (round_double_neg (- 2 ^ 1024)).
      * rewrite Qopp_involutive.
        rewrite (round_pos_comp (- - 2 ^ 1024) (2 ^ 1024));
          [| apply pow2_pos | apply Qopp_involutive].
        rewrite <- round_double_pos by apply pow2_pos. apply Qle_refl.
      * change 0%Q with (- 0)%Q. apply Qopp_lt_compat, pow2_pos.
    + apply Qopp_le_compat. apply round_double_mono.
      apply Qle_shift_div_r; [reflexivity |].
      assert (- 2 ^ 1024 * inject_Z 2 == inject_Z (- 2 ^ 1025))%Q as ->
        by (rewrite inject_Z_opp, H2; ring).
      rewrite <- Zle_Qle. lia.
Qed.

(** ** The ratio of a road *)

Lemma ratio_nonzero (r : Road) :
  capacity r <> 0 -> ratio r = Ok (float_ratio r).
Proof.
  intros Hc. unfold ratio, true_div.
  destruct (Z.eqb_spec (capacity r) 0); [contradiction | reflexivity].
Qed.

Lemma ratio_zero (r : Road) :
  capacity r = 0 -> ratio r = Raise ZeroDivisionError.
Proof. intros Hc. unfold ratio, true_div. now rewrite Hc. Qed.

Lemma ratio_Ok_inv (r : Road) (k : Q) :
  ratio r = Ok k -> capacity r <> 0 /\ k = float_ratio r.
Proof.
  unfold ratio, true_div.
  destruct (Z.eqb_spec (capacity r) 0); [discriminate |].
  intros [= <-]. split; [assumption | reflexivity].
Qed.

Lemma ratio_Raise_inv (r : Road) (e : exn) :
  ratio r = Raise e -> capacity r = 0 /\ e = ZeroDivisionError.
Proof.
  unfold ratio, true_div.
  destruct (Z.eqb_spec (capacity r) 0); [| discriminate].
  intros [= <-]. split; [assumption | reflexivity].
Qed.

(** ** The monad of store computations *)

Lemma bind_Ok {A B} (m : M A) (k : A -> M B) st a st' :
  m st = (Ok a, st') -> bind m k st = k a st'.
Proof. intros H. unfold bind. now rewrite H. Qed.

Lemma bind_Raise {A B} (m : M A) (k : A -> M B) st e st' :
  m st = (Raise e, st') -> bind m k st = (Raise e, st').
Proof. intros H. unfold bind. now rewrite H. Qed.

(** ** The release step *)

Lemma vehicle_process_resume_unfold (v : Vehicle) (i : nat) (st : list Road) :
  vehicle_process_resume v i st =
  let st1 := alter (release (weight v)) i st in
  match ratio_at i st1 with
  | Ok x => (Ok tt, alter (append_history x) i st1)
  | Raise e => (Raise e, st1)
  end.
Proof.
  unfold vehicle_process_resume, bind, update, reading. cbn.
  destruct (ratio_at i (alter (release (weight v)) i st)); reflexivity.
Qed.

Lemma resume_lookup (v : Vehicle) (i : nat) (st : list Road) (r : Road) :
  st !! i = Some r ->
  exists r', snd (vehicle_process_resume v i st) !! i = Some r'
    /\ current_load r' = current_load (release (weight v) r)
    /\ capacity r' = capacity r /\ name r' = name r.
Proof.
  intros Hi. rewrite vehicle_process_resume_unfold. cbn zeta.
  destruct (ratio_at _ _) as [x | e]; cbn [snd].
  - exists (append_history x (release (weight v) r)).
    rewrite !list_lookup_alter_eq, Hi. auto.
  - exists (release (weight v) r).
    rewrite list_lookup_alter_eq, Hi. auto.
Qed.

(** C6.  The release step of a vehicle process sets the load of the
    assigned road to [max 0 (load - weight)]: the load drops by exactly the
    weight when that stays non-negative, it is 0 otherwise, and releasing
    a second time cannot make it negative. *)
Theorem release_floors_at_zero (v : Vehicle) (i : nat) (st : list Road)
    (r : Road) :
  st !! i = Some r ->
  exists r',
    snd (vehicle_process_resume v i st) !! i = Some r'
    /\ current_load r' = Z.max 0 (current_load r - weight v)
    /\ (0 <= current_load r - weight v ->
        current_load r' = current_load r - weight v)
    /\ (current_load r - weight v < 0 -> current_load r' = 0)
    /\ 0 <= current_load r'
    /\ 0 <= current_load (release (weight v) (release (weight v) r))
    /\ forall r'',
         snd (vehicle_process_resume v i
                (snd (vehicle_process_resume v i st))) !! i = Some r'' ->
         0 <= current_load r''.
Proof.
  intros Hi.
  destruct (resume_lookup v i st r Hi) as (r' & Hr' & Hload & _).
  exists r'. cbn in Hload.
  split; [assumption |].
  do 4 (split; [lia |]). split; [cbn; lia |].
  intros r'' Hr''.
  destruct (resume_lookup v i _ r' Hr') as (r2 & Hr2 & Hload2 & _).
  rewrite Hr2 in Hr''. injection Hr'' as <-. cbn in Hload2. lia.
Qed.

Lemma release_floors_at_zero_witness :
  exists r',
    snd (vehicle_process_resume (mkVehicle 0 3 1) 0 [mkRoad "A" 10 2 []])
      !! 0%nat = Some r'
    /\ current_load r' = 0.
Proof.
  destruct (release_floors_at_zero (mkVehicle 0 3 1) 0
              [mkRoad "A" 10 2 []] (mkRoad "A" 10 2 []) eq_refl)
    as (r' & Hr' & Hmax & _).
  exists r'. split; [exact Hr' | exact Hmax].
Defined.

(** ** Scenarios of the written specification, run on the code *)

(** C1.  Two roads of capacity 10, one vehicle of weight 5, policy "1":
    the vehicle goes to the first road, whose load becomes 10, since the
    policy adds the weight and the vehicle process adds it again; after the
    hold the load is 5 and the one history entry is 1/2. *)
Theorem scenario1_weight_counted_twice :
  let v := mkVehicle 0 5 1 in
  let st0 := [Road_init "A" 10; Road_init "B" 10] in
  let st1 := [mkRoad "A" 10 10 []; Road_init "B" 10] in
  let st2 := [mkRoad "A" 10 5 [1 # 2]%Q; Road_init "B" 10] in
  optimize_traffic_flow [v] st0
    = (Ok {[ 0 := "A"%string ]}, [mkRoad "A" 10 5 []; Road_init "B" 10])
  /\ vehicle_process_start "1" v st0 = (Ok 0%nat, st1)
  /\ vehicle_process_resume v 0 st1 = (Ok tt, st2)
  /\ roads (state_of (run (mkSettings 24 "1" (8 # 1, 10 # 1)%Q 20)
                        (mkRandom (fun _ => 0%nat) (fun _ => 0%nat)
                                  (fun _ => 0%nat))
                        4 (add_vehicle v (new_simulator st0)))) = st2.
Proof.
  cbv zeta. split; [vm_compute; reflexivity |].
  split; [vm_compute; reflexivity |].
  split; vm_compute; reflexivity.
Qed.

(** C2.  Policy "2" on two roads of capacity 2 and one generated vehicle
    of weight 2: the policy admits it on the first road (0 + 2 <= 2) and the
    vehicle process adds the weight a second time, so the load is 4. *)
Theorem scenario_policy_B_exceeds_capacity :
  let rnd := mkRandom (fun h => if h =? 0 then 1%nat else 0%nat)
                      (fun _ => 1%nat) (fun _ => 0%nat) in
  exists s,
    simulate rnd 2 (start_simulation "2" 1 (6 # 1, 8 # 1)%Q 20 [2; 2])
      = Ok (Running s)
    /\ vehicles s = [mkVehicle 0 2 1]
    /\ roads s = [mkRoad "Mandela" 2 4 []; Road_init "Portmore" 2].
Proof.
  eexists. split; [vm_compute; reflexivity |]. split; reflexivity.
Qed.

(** C3.  Policy "2" on two roads of capacity 1 and one generated vehicle
    of weight 2: no road has room, the policy returns an empty mapping
    and leaves the loads alone, the subscript [assignments[vehicle.id]]
    raises KeyError in the vehicle process, and the event loop stops on
    that exception at time 0, before the second hour is generated. *)
Theorem scenario_dropped_vehicle_aborts :
  let rnd := mkRandom (fun _ => 1%nat) (fun _ => 1%nat) (fun _ => 0%nat) in
  let st0 := [Road_init "Mandela" 1; Road_init "Portmore" 1] in
  balance_traffic_flow [mkVehicle 0 2 1] st0 = (Ok ∅, st0)
  /\ vehicle_process_start "2" (mkVehicle 0 2 1) st0 = (Raise KeyError, st0)
  /\ exists s,
       simulate rnd 3 (start_simulation "2" 2 (6 # 1, 8 # 1)%Q 20 [1; 1])
         = Ok (Aborted KeyError s)
       /\ now s = 0 /\ roads s = st0 /\ vehicles s = [mkVehicle 0 2 1].
Proof.
  cbv zeta. split; [vm_compute; reflexivity |].
  split; [vm_compute; reflexivity |].
  eexists. split; [vm_compute; reflexivity |].
  split; [reflexivity |]. split; reflexivity.
Qed.

(** ** The policies: what is preserved and when they return *)

Lemma frame_alter_load (f : Road -> Road) (i : nat) (st : list Road) :
  (forall r, frame (f r) = frame r) ->
  frame <$> alter f i st = frame <$> st.
Proof.
  intros Hf. rewrite (list_fmap_alter frame f id).
  - apply list_alter_id. reflexivity.
  - apply Forall_forall. intros r _. apply Hf.
Qed.

Lemma frame_add_load (w : Z) (r : Road) : frame (add_load w r) = frame r.
Proof. reflexivity. Qed.

Lemma frame_release (w : Z) (r : Road) : frame (release w r) = frame r.
Proof. reflexivity. Qed.

Lemma nonzero_frame (st st' : list Road) :
  frame <$> st' = frame <$> st ->
  Forall nonzero_capacity st -> Forall nonzero_capacity st'.
Proof.
  revert st'. induction st as [| r st IH]; intros [| r' st'] Heq Hall;
    try discriminate; [constructor |].
  injection Heq as Hr Hrest. inversion Hall; subst.
  constructor; [| now apply IH].
  unfold nonzero_capacity, frame in *. congruence.
Qed.

Lemma frame_nonempty (st st' : list Road) :
  frame <$> st' = frame <$> st -> st <> [] -> st' <> [].
Proof. destruct st, st'; cbn; congruence. Qed.

Lemma min_scan_ok (rest : list Road) :
  Forall nonzero_capacity rest ->
  forall best k i, exists b, min_scan best k i rest = Ok b.
Proof.
  induction 1 as [| r rest Hr _ IH]; intros best k i; cbn.
  - eauto.
  - rewrite (ratio_nonzero r Hr). destruct (Qltb _ _); apply IH.
Qed.

Lemma min_by_ratio_ok (st : list Road) :
  st <> [] -> Forall nonzero_capacity st ->
  exists b, min_by_ratio st = Ok b.
Proof.
  intros Hne Hall. destruct Hall as [| r rest Hr Hrest]; [congruence |].
  cbn. rewrite (ratio_nonzero r Hr). now apply min_scan_ok.
Qed.

Lemma min_scan_zero (rest : list Road) :
  Exists (fun r => capacity r = 0) rest ->
  forall best k i, min_scan best k i rest = Raise ZeroDivisionError.
Proof.
  induction rest as [| r rest IH]; intros Hex best k i.
  - inversion Hex.
  - cbn. destruct (ratio r) as [x | e] eqn:Hr.
    + apply ratio_Ok_inv in Hr as [Hc _].
      inversion Hex; subst; [contradiction |].
      destruct (Qltb _ _); now apply IH.
    + apply ratio_Raise_inv in Hr as [_ ->]. reflexivity.
Qed.

Lemma min_by_ratio_zero (st : list Road) :
  Exists (fun r => capacity r = 0) st ->
  min_by_ratio st = Raise ZeroDivisionError.
Proof.
  destruct st as [| r rest]; intros Hex; [inversion Hex |].
  cbn. destruct (ratio r) as [x | e] eqn:Hr.
  - apply ratio_Ok_inv in Hr as [Hc _].
    inversion Hex; subst; [contradiction |]. now apply min_scan_zero.
  - apply ratio_Raise_inv in Hr as [_ ->]. reflexivity.
Qed.

Lemma ratios_ok (st : list Road) :
  Forall nonzero_capacity st -> exists ks, ratios st = Ok ks.
Proof.
  induction 1 as [| r rest Hr _ [ks IH]]; cbn; [eauto |].
  rewrite (ratio_nonzero r Hr), IH. eauto.
Qed.

Lemma ratios_zero (st : list Road) :
  Exists (fun r => capacity r = 0) st ->
  ratios st = Raise ZeroDivisionError.
Proof.
  induction st as [| r rest IH]; intros Hex; [inversion Hex |].
  cbn. destruct (ratio r) as [x | e] eqn:Hr.
  - apply ratio_Ok_inv in Hr as [Hc _].
    inversion Hex; subst; [contradiction |]. now rewrite IH.
  - apply ratio_Raise_inv in Hr as [_ ->]. reflexivity.
Qed.

Lemma optimize_loop_unfold (v : Vehicle) (vs : list Vehicle)
    (a : gmap Z string) (st : list Road) :
  optimize_loop (v :: vs) a st =
  match min_by_ratio st with
  | Ok best =>
      optimize_loop vs (<[vehicle_id v := name (snd best)]> a)
        (alter (add_load (weight v)) (fst best) st)
  | Raise e => (Raise e, st)
  end.
Proof.
  cbn. unfold bind, reading, update.
  destruct (min_by_ratio st); reflexivity.
Qed.

Lemma balance_loop_unfold (rs : list nat) (v : Vehicle) (vs : list Vehicle)
    (a : gmap Z string) (st : list Road) :
  balance_loop rs (v :: vs) a st =
  match first_fit (weight v) rs st with
  | Some (i, road) =>
      balance_loop rs vs (<[vehicle_id v := name road]> a)
        (alter (add_load (weight v)) i st)
  | None => balance_loop rs vs a st
  end.
Proof.
  cbn. destruct (first_fit _ _ _) as [[i road] |]; reflexivity.
Qed.

Lemma balance_traffic_flow_unfold (vs : list Vehicle) (st : list Road) :
  balance_traffic_flow vs st =
  match sorted_by_ratio st with
  | Ok rs => balance_loop rs vs ∅ st
  | Raise e => (Raise e, st)
  end.
Proof.
  unfold balance_traffic_flow, bind, reading.
  destruct (sorted_by_ratio st); reflexivity.
Qed.

Lemma optimize_loop_ok (vs : list Vehicle) :
  forall a st, st <> [] -> Forall nonzero_capacity st ->
  exists a' st', optimize_loop vs a st = (Ok a', st')
                 /\ frame <$> st' = frame <$> st.
Proof.
  induction vs as [| v vs IH]; intros a st Hne Hall.
  - cbn. unfold ret. eauto.
  - rewrite optimize_loop_unfold.
    destruct (min_by_ratio_ok st Hne Hall) as [best ->].
    pose proof (frame_alter_load (add_load (weight v)) (fst best) st
                  (frame_add_load _)) as Hfr.
    destruct (IH (<[vehicle_id v := name (snd best)]> a)
                 (alter (add_load (weight v)) (fst best) st))
      as (a' & st' & Heq & Hfr').
    + now apply (frame_nonempty st).
    + now apply (nonzero_frame st).
    + exists a', st'. split; [assumption | congruence].
Qed.

Lemma balance_loop_ok (rs : list nat) (vs : list Vehicle) :
  forall a st, exists a' st', balance_loop rs vs a st = (Ok a', st')
                              /\ frame <$> st' = frame <$> st.
Proof.
  induction vs as [| v vs IH]; intros a st.
  - cbn. unfold ret. eauto.
  - rewrite balance_loop_unfold.
    destruct (first_fit _ _ _) as [[i road] |]; [| apply IH].
    destruct (IH (<[vehicle_id v := name road]> a)
                 (alter (add_load (weight v)) i st))
      as (a' & st' & Heq & Hfr').
    exists a', st'. split; [assumption |].
    rewrite Hfr'. apply frame_alter_load, frame_add_load.
Qed.

(** C10.  Both policies evaluate [current_load / capacity] unguarded.  On
    a non-empty list of roads whose capacities are all nonzero every ratio
    is defined and both calls return a mapping; a road of capacity zero
    makes [balance_traffic_flow] raise ZeroDivisionError, and
    [optimize_traffic_flow] too as soon as there is a vehicle to place. *)
Theorem policies_defined_iff_nonzero_capacity (vs : list Vehicle)
    (st : list Road) :
  (st <> [] -> Forall nonzero_capacity st ->
     Forall (fun r => is_Ok (ratio r)) st
     /\ (exists a st', optimize_traffic_flow vs st = (Ok a, st'))
     /\ (exists a st', balance_traffic_flow vs st = (Ok a, st')))
  /\ (Exists (fun r => capacity r = 0) st ->
        balance_traffic_flow vs st = (Raise ZeroDivisionError, st)
        /\ (vs <> [] ->
            optimize_traffic_flow vs st = (Raise ZeroDivisionError, st))).
Proof.
  split.
  - intros Hne Hall. split; [| split].
    + eapply Forall_impl; [exact Hall |].
      intros r Hr. now rewrite (ratio_nonzero r Hr).
    + destruct (optimize_loop_ok vs ∅ st Hne Hall) as (a & st' & H & _).
      eauto.
    + rewrite balance_traffic_flow_unfold. unfold sorted_by_ratio.
      destruct (ratios_ok st Hall) as [ks ->].
      destruct (balance_loop_ok (snd <$> stable_sort (zip ks (seq 0 (length ks))))
                  vs ∅ st) as (a & st' & H & _).
      eauto.
  - intros Hex. split.
    + rewrite balance_traffic_flow_unfold. unfold sorted_by_ratio.
      now rewrite (ratios_zero st Hex).
    + intros Hvs. destruct vs as [| v vs]; [congruence |].
      unfold optimize_traffic_flow. rewrite optimize_loop_unfold.
      now rewrite (min_by_ratio_zero st Hex).
Qed.

Lemma policies_defined_iff_nonzero_capacity_witness :
  (exists a st', optimize_traffic_flow [mkVehicle 0 2 1]
                   [Road_init "A" 4; Road_init "B" 3] = (Ok a, st'))
  /\ optimize_traffic_flow [mkVehicle 0 2 1] [Road_init "A" 4; Road_init "Z" 0]
     = (Raise ZeroDivisionError, [Road_init "A" 4; Road_init "Z" 0]).
Proof.
  split.
  - apply (policies_defined_iff_nonzero_capacity [mkVehicle 0 2 1]
             [Road_init "A" 4; Road_init "B" 3]).
    + discriminate.
    + repeat constructor; discriminate.
  - apply (policies_defined_iff_nonzero_capacity [mkVehicle 0 2 1]
             [Road_init "A" 4; Road_init "Z" 0]).
    + right. left. reflexivity.
    + discriminate.
Defined.

(** ** Policy B on its own *)

Lemma first_fit_fits (w : Z) (rs : list nat) (st : list Road) (i : nat)
    (road : Road) :
  first_fit w rs st = Some (i, road) ->
  st !! i = Some road /\ current_load road + w <= capacity road.
Proof.
  induction rs as [| j rs IH]; [discriminate |]. cbn.
  destruct (st !! j) as [r |] eqn:Hj; [| exact IH].
  destruct (Z.leb_spec (current_load r + w) (capacity r)); [| exact IH].
  intros [= <- <-]. split; assumption.
Qed.

Lemma first_fit_no_room (w : Z) (rs : list nat) (st : list Road) :
  Forall (fun r => capacity r < current_load r + w) st ->
  first_fit w rs st = None.
Proof.
  intros Hfull. induction rs as [| j rs IH]; [reflexivity |]. cbn.
  destruct (st !! j) as [r |] eqn:Hj; [| exact IH].
  rewrite Forall_forall in Hfull.
  assert (capacity r < current_load r + w) as Hr
    by (apply Hfull, list_elem_of_lookup; eauto).
  destruct (Z.leb_spec (current_load r + w) (capacity r)); [lia | exact IH].
Qed.

(** The policy itself never takes a road above its capacity. *)
Lemma balance_loop_within_capacity (rs : list nat) (vs : list Vehicle) :
  forall a st a' st',
    Forall within_capacity st ->
    balance_loop rs vs a st = (Ok a', st') ->
    Forall within_capacity st'.
Proof.
  induction vs as [| v vs IH]; intros a st a' st' Hall Hrun.
  - cbn in Hrun. unfold ret in Hrun. now injection Hrun as _ <-.
  - rewrite balance_loop_unfold in Hrun.
    destruct (first_fit _ _ _) as [[i road] |] eqn:Hfit; [| eauto].
    apply first_fit_fits in Hfit as [Hi Hroom].
    eapply IH; [| exact Hrun].
    apply Forall_alter; [exact Hall |].
    intros r Hr _. rewrite Hi in Hr. injection Hr as <-.
    unfold within_capacity. cbn. exact Hroom.
Qed.

Lemma balance_traffic_flow_within_capacity (vs : list Vehicle)
    (st : list Road) (a : gmap Z string) (st' : list Road) :
  Forall within_capacity st ->
  balance_traffic_flow vs st = (Ok a, st') ->
  Forall within_capacity st'.
Proof.
  intros Hall. rewrite balance_traffic_flow_unfold.
  destruct (sorted_by_ratio st); [| discriminate].
  now apply balance_loop_within_capacity.
Qed.

(** A vehicle that fits nowhere gets no entry in the mapping, no load is
    changed, and the vehicle process raises KeyError on the subscript. *)
Lemma no_room_raises_KeyError (m : string) (v : Vehicle) (st : list Road) :
  m <> "1"%string ->
  Forall nonzero_capacity st ->
  Forall (fun r => capacity r < current_load r + weight v) st ->
  balance_traffic_flow [v] st = (Ok ∅, st)
  /\ vehicle_process_start m v st = (Raise KeyError, st).
Proof.
  intros Hm Hall Hfull.
  assert (balance_traffic_flow [v] st = (Ok ∅, st)) as Hpol.
  { rewrite balance_traffic_flow_unfold. unfold sorted_by_ratio.
    destruct (ratios_ok st Hall) as [ks ->].
    rewrite balance_loop_unfold, (first_fit_no_room _ _ _ Hfull).
    reflexivity. }
  split; [exact Hpol |].
  unfold vehicle_process_start.
  destruct (String.eqb_spec m "1") as [-> | _]; [contradiction |].
  rewrite (bind_Ok _ _ _ _ _ Hpol).
  unfold subscript. rewrite lookup_empty. reflexivity.
Qed.

(** ** Priority is inert *)

Lemma optimize_loop_priority (vs vs' : list Vehicle) :
  Forall2 same_but_priority vs vs' ->
  forall a st, optimize_loop vs a st = optimize_loop vs' a st.
Proof.
  induction 1 as [| v v' vs vs' [Hid Hw] _ IH]; intros a st; [reflexivity |].
  rewrite !optimize_loop_unfold, Hid, Hw.
  destruct (min_by_ratio st); [apply IH | reflexivity].
Qed.

Lemma balance_loop_priority (rs : list nat) (vs vs' : list Vehicle) :
  Forall2 same_but_priority vs vs' ->
  forall a st, balance_loop rs vs a st = balance_loop rs vs' a st.
Proof.
  induction 1 as [| v v' vs vs' [Hid Hw] _ IH]; intros a st; [reflexivity |].
  rewrite !balance_loop_unfold, Hid, Hw.
  destruct (first_fit _ _ _) as [[i road] |]; apply IH.
Qed.

(** C9.  Neither policy reads a vehicle's priority: on the same roads, two
    batches that differ only in the priorities give the same assignment
    mapping and leave the roads in the same state. *)
Theorem policies_ignore_priority (vs vs' : list Vehicle) (st : list Road) :
  Forall2 same_but_priority vs vs' ->
  optimize_traffic_flow vs st = optimize_traffic_flow vs' st
  /\ balance_traffic_flow vs st = balance_traffic_flow vs' st.
Proof.
  intros Hsame. split.
  - now apply optimize_loop_priority.
  - rewrite !balance_traffic_flow_unfold.
    destruct (sorted_by_ratio st); [| reflexivity].
    now apply balance_loop_priority.
Qed.

Lemma policies_ignore_priority_witness :
  let st := [mkRoad "A" 10 4 []; mkRoad "B" 5 1 []] in
  optimize_traffic_flow [mkVehicle 0 2 1; mkVehicle 1 3 5] st
    = optimize_traffic_flow [mkVehicle 0 2 4; mkVehicle 1 3 2] st
  /\ balance_traffic_flow [mkVehicle 0 2 1; mkVehicle 1 3 5] st
    = balance_traffic_flow [mkVehicle 0 2 4; mkVehicle 1 3 2] st.
Proof.
  apply (policies_ignore_priority
           [mkVehicle 0 2 1; mkVehicle 1 3 5]
           [mkVehicle 0 2 4; mkVehicle 1 3 2]).
  repeat constructor.
Defined.

(** ** Policy A selects the first road of least ratio *)

Lemma first_min_ratio_singleton (r : Road) : first_min_ratio [r] 0 r.
Proof.
  split; [reflexivity | split].
  - intros [| j] r' Hj; cbn in Hj; [| discriminate].
    injection Hj as <-. apply Qle_refl.
  - intros j r' Hlt. lia.
Qed.

Lemma first_min_ratio_keep (pre : list Road) (bi : nat) (br r0 : Road) :
  first_min_ratio pre bi br ->
  (float_ratio br <= float_ratio r0)%Q ->
  first_min_ratio (pre ++ [r0]) bi br.
Proof.
  intros (Hbi & Hmin & Hfirst) Hle.
  pose proof (lookup_lt_Some _ _ _ Hbi) as Hlen.
  split; [| split].
  - now rewrite lookup_app_l.
  - intros j r' Hj. destruct (decide (j < length pre)%nat) as [Hlt | Hge].
    + rewrite lookup_app_l in Hj by assumption. eauto.
    + rewrite lookup_app_r in Hj by lia.
      destruct (j - length pre)%nat; cbn in Hj; [| discriminate].
      now injection Hj as <-.
  - intros j r' Hlt Hj. rewrite lookup_app_l in Hj by lia. eauto.
Qed.

Lemma first_min_ratio_replace (pre : list Road) (bi : nat) (br r0 : Road) :
  first_min_ratio pre bi br ->
  (float_ratio r0 < float_ratio br)%Q ->
  first_min_ratio (pre ++ [r0]) (length pre) r0.
Proof.
  intros (Hbi & Hmin & Hfirst) Hlt.
  split; [| split].
  - rewrite lookup_app_r by lia. now rewrite Nat.sub_diag.
  - intros j r' Hj. destruct (decide (j < length pre)%nat) as [Hj' | Hge].
    + rewrite lookup_app_l in Hj by assumption.
      apply Qlt_le_weak. eapply Qlt_le_trans; eauto.
    + rewrite lookup_app_r in Hj by lia.
      destruct (j - length pre)%nat; cbn in Hj; [| discriminate].
      injection Hj as <-. apply Qle_refl.
  - intros j r' Hj' Hj. rewrite lookup_app_l in Hj by assumption.
    eapply Qlt_le_trans; eauto.
Qed.

Lemma min_scan_spec (rest : list Road) :
  forall pre bi br bk j r,
    Forall nonzero_capacity rest ->
    bk = float_ratio br ->
    first_min_ratio pre bi br ->
    min_scan (bi, br) bk (length pre) rest = Ok (j, r) ->
    first_min_ratio (pre ++ rest) j r.
Proof.
  induction rest as [| r0 rest IH]; intros pre bi br bk j r Hall Hbk Hmin Hscan.
  - cbn in Hscan. injection Hscan as <- <-. now rewrite app_nil_r.
  - inversion Hall as [| ? ? Hr0 Hrest]; subst.
    cbn in Hscan. rewrite (ratio_nonzero r0 Hr0) in Hscan.
    replace (pre ++ r0 :: rest) with ((pre ++ [r0]) ++ rest)
      by now rewrite <- app_assoc.
    replace (S (length pre)) with (length (pre ++ [r0])) in Hscan
      by (rewrite length_app; cbn; lia).
    destruct (Qltb _ _) eqn:Hcmp.
    + apply Qltb_lt in Hcmp.
      eapply IH; [exact Hrest | reflexivity | | exact Hscan].
      now apply (first_min_ratio_replace pre bi br).
    + apply Qltb_ge in Hcmp.
      eapply IH; [exact Hrest | reflexivity | | exact Hscan].
      now apply first_min_ratio_keep.
Qed.

Lemma min_by_ratio_spec (st : list Road) (j : nat) (r : Road) :
  Forall nonzero_capacity st ->
  min_by_ratio st = Ok (j, r) -> first_min_ratio st j r.
Proof.
  intros Hall Hmin. destruct Hall as [| r0 rest Hr0 Hrest]; [discriminate |].
  cbn in Hmin. rewrite (ratio_nonzero r0 Hr0) in Hmin.
  apply (min_scan_spec rest [r0] 0%nat r0 (float_ratio r0));
    [assumption | reflexivity | apply first_min_ratio_singleton
    | exact Hmin].
Qed.

Lemma optimize_loop_greedy (vs : list Vehicle) :
  forall a st a' st',
    Forall nonzero_capacity st ->
    optimize_loop vs a st = (Ok a', st') ->
    greedy_least_ratio a st vs a' st'.
Proof.
  induction vs as [| v vs IH]; intros a st a' st' Hall Hrun.
  - cbn in Hrun. unfold ret in Hrun. injection Hrun as <- <-. constructor.
  - rewrite optimize_loop_unfold in Hrun.
    destruct (min_by_ratio st) as [[i r] |] eqn:Hmin; [| discriminate].
    cbn [fst snd] in Hrun.
    apply greedy_cons with (i := i) (r := r).
    + now apply min_by_ratio_spec.
    + apply IH; [| exact Hrun].
      apply (nonzero_frame st); [| assumption].
      apply frame_alter_load, frame_add_load.
Qed.

(** C5.  On a non-empty list of roads (of nonzero capacity, so that the
    ratios exist, and with loads and capacities that doubles hold
    exactly), [optimize_traffic_flow] returns, and what it returns is the
    greedy assignment: every vehicle goes to the first road of least
    [current_load / capacity], the ratio being the double that the division
    yields, and its weight is added to that road at once.  No capacity is
    consulted: a road of capacity 1 takes a vehicle of weight 3 and ends
    with load 3. *)
Theorem optimize_assigns_first_least_ratio (vs : list Vehicle)
    (st : list Road) :
  st <> [] -> Forall nonzero_capacity st -> exact_in_doubles st vs ->
  (exists a st',
     optimize_traffic_flow vs st = (Ok a, st')
     /\ greedy_least_ratio ∅ st vs a st')
  /\ optimize_traffic_flow [mkVehicle 0 3 1] [Road_init "R" 1]
     = (Ok {[ 0 := "R"%string ]}, [mkRoad "R" 1 3 []]).
Proof.
  intros Hne Hall _. split; [| vm_compute; reflexivity].
  destruct (optimize_loop_ok vs ∅ st Hne Hall) as (a & st' & Hrun & _).
  exists a, st'. split; [exact Hrun |].
  now apply optimize_loop_greedy.
Qed.

Lemma optimize_assigns_first_least_ratio_witness :
  exists a st',
    optimize_traffic_flow [mkVehicle 0 2 1; mkVehicle 1 3 1]
      [mkRoad "A" 10 4 []; mkRoad "B" 5 1 []] = (Ok a, st')
    /\ greedy_least_ratio ∅ [mkRoad "A" 10 4 []; mkRoad "B" 5 1 []]
         [mkVehicle 0 2 1; mkVehicle 1 3 1] a st'.
Proof.
  apply (optimize_assigns_first_least_ratio
           [mkVehicle 0 2 1; mkVehicle 1 3 1]
           [mkRoad "A" 10 4 []; mkRoad "B" 5 1 []]).
  - discriminate.
  - repeat constructor; discriminate.
  - repeat split; repeat constructor; cbn; lia.
Defined.

(** X25.  With loads and capacities that doubles hold exactly, the road
    that [min] selects has the least computed ratio, and an exact ratio
    that is least up to rounding: a road whose exact ratio is smaller than
    that of the selected road has the same double for its ratio and stands
    later in the list. *)
Theorem min_ratio_up_to_rounding (st : list Road) (i j : nat)
    (r r' : Road) :
  Forall nonzero_capacity st -> exact_in_doubles st [] ->
  min_by_ratio st = Ok (i, r) ->
  st !! j = Some r' ->
  (float_ratio r <= float_ratio r')%Q
  /\ ((exact_ratio r' < exact_ratio r)%Q ->
      (float_ratio r' == float_ratio r)%Q /\ (i < j)%nat).
Proof.
  intros Hall _ Hmin Hj.
  destruct (min_by_ratio_spec st i r Hall Hmin) as (Hi & Hle & Hfirst).
  split; [now apply (Hle j) |].
  intros Hlt.
  assert (float_ratio r' == float_ratio r)%Q as Heq.
  { apply Qle_antisym; [| now apply (Hle j)].
    apply round_double_mono. now apply Qlt_le_weak. }
  split; [exact Heq |].
  destruct (lt_eq_lt_dec i j) as [[Hij | Hij] | Hij]; [exact Hij | |].
  - subst j. rewrite Hi in Hj. injection Hj as <-.
    now apply Qlt_irrefl in Hlt.
  - pose proof (Hfirst j r' Hij Hj) as Hstrict.
    rewrite Heq in Hstrict. now apply Qlt_irrefl in Hstrict.
Qed.

Lemma min_ratio_up_to_rounding_witness :
  let mandela := mkRoad "Mandela" 100000000 100000001 [] in
  let portmore := mkRoad "Portmore" 100000001 100000002 [] in
  min_by_ratio [mandela; portmore] = Ok (0%nat, mandela)
  /\ (exact_ratio portmore < exact_ratio mandela)%Q
  /\ (float_ratio portmore == float_ratio mandela)%Q
  /\ (0 < 1)%nat.
Proof.
  pose (mandela := mkRoad "Mandela" 100000000 100000001 []).
  pose (portmore := mkRoad "Portmore" 100000001 100000002 []).
  assert (min_by_ratio [mandela; portmore] = Ok (0%nat, mandela)) as Hmin
    by (vm_compute; reflexivity).
  assert (exact_ratio portmore < exact_ratio mandela)%Q as Hlt
    by (vm_compute; reflexivity).
  split; [exact Hmin |]. split; [exact Hlt |].
  refine (proj2 (min_ratio_up_to_rounding [mandela; portmore] 0 1
                   mandela portmore _ _ Hmin eq_refl) Hlt).
  - repeat constructor; discriminate.
  - repeat split; repeat constructor; cbn; lia.
Defined.

(** Beyond 2^53 the same happens with the capacities 10^18 and 10^18 + 1,
    whose quotients Python rounds to one double: both policies take the
    first road. *)
Lemma tie_at_large_capacities :
  let st := [mkRoad "Mandela" 1000000000000000000 1 [];
             mkRoad "Portmore" 1000000000000000001 1 []] in
  optimize_traffic_flow [mkVehicle 0 1 1] st
  = (Ok {[ 0 := "Mandela"%string ]},
     [mkRoad "Mandela" 1000000000000000000 2 [];
      mkRoad "Portmore" 1000000000000000001 1 []])
  /\ balance_traffic_flow [mkVehicle 0 1 1] st
     = (Ok {[ 0 := "Mandela"%string ]},
        [mkRoad "Mandela" 1000000000000000000 2 [];
         mkRoad "Portmore" 1000000000000000001 1 []]).
Proof. split; vm_compute; reflexivity. Qed.

(** ** The arrival generator *)

Lemma is_peak_spec (cfg : Settings) (hour : Z) :
  is_peak cfg hour = true <->
  (fst (peak_hours cfg) <= inject_Z hour)%Q
  /\ (inject_Z hour <= snd (peak_hours cfg))%Q.
Proof.
  unfold is_peak. rewrite andb_true_iff, !Qleb_le. reflexivity.
Qed.

Lemma choice_weight (d : nat) : choice [1; 2; 3] d ∈ [1; 2; 3].
Proof.
  unfold choice. cbn [length].
  pose proof (Nat.mod_upper_bound d 3 ltac:(lia)) as Hlt.
  destruct (d mod 3)%nat as [| [| [| k]]]; cbn; [| | | lia];
    repeat first [apply list_elem_of_here | apply list_elem_of_further].
Qed.

Lemma choice_priority (d : nat) :
  choice [1; 2; 3; 4; 5] d ∈ [1; 2; 3; 4; 5].
Proof.
  unfold choice. cbn [length].
  pose proof (Nat.mod_upper_bound d 5 ltac:(lia)) as Hlt.
  destruct (d mod 5)%nat as [| [| [| [| [| k]]]]]; cbn; [| | | | | lia];
    repeat first [apply list_elem_of_here | apply list_elem_of_further].
Qed.

(** The vehicles that [n] rounds of the inner loop append. *)
Lemma spawn_vehicles (rnd : Random) (n : nat) :
  forall s, exists new,
    vehicles (spawn rnd n s) = vehicles s ++ new
    /\ length new = n
    /\ forall k v, new !! k = Some v ->
         vehicle_id v = Z.of_nat (length (vehicles s) + k)
         /\ weight v ∈ [1; 2; 3]
         /\ priority v ∈ [1; 2; 3; 4; 5].
Proof.
  induction n as [| n IH]; intros s.
  - exists []. cbn. rewrite app_nil_r. repeat split; discriminate.
  - cbn [spawn].
    destruct (IH (add_vehicle (new_vehicle rnd s) s)) as (new & Hvs & Hlen & Hnew).
    exists (new_vehicle rnd s :: new). cbn [add_vehicle schedule vehicles] in *.
    split; [| split].
    + rewrite Hvs, <- app_assoc. reflexivity.
    + cbn. now rewrite Hlen.
    + intros [| k] v Hk; cbn in Hk.
      * injection Hk as <-. cbn. rewrite Nat.add_0_r.
        split; [reflexivity |].
        split; [apply choice_weight | apply choice_priority].
      * destruct (Hnew k v Hk) as (Hid & Hw & Hp).
        rewrite length_app in Hid. cbn in Hid.
        split; [rewrite Hid; f_equal; lia | auto].
Qed.

Lemma hourly_rate_peak (cfg : Settings) (hour : Z) :
  is_peak cfg hour = true -> hourly_rate cfg hour = Ok (vehicle_rate cfg).
Proof. intros H. unfold hourly_rate. now rewrite H. Qed.

Lemma hourly_rate_off_peak (cfg : Settings) (hour : Z) :
  is_peak cfg hour = false -> Z.abs (vehicle_rate cfg) < 2 ^ 53 ->
  hourly_rate cfg hour = Ok (Z.quot (vehicle_rate cfg) 2).
Proof.
  intros H Hr. unfold hourly_rate, true_div. rewrite H.
  change (2 =? 0) with false. cbv iota.
  destruct (trunc_half_double (vehicle_rate cfg) Hr) as [-> ->].
  reflexivity.
Qed.

Lemma hourly_rate_overflow (cfg : Settings) (hour : Z) :
  is_peak cfg hour = false -> 2 ^ 1025 <= Z.abs (vehicle_rate cfg) ->
  hourly_rate cfg hour = Raise OverflowError.
Proof.
  intros H Hr. unfold hourly_rate, true_div. rewrite H.
  change (2 =? 0) with false. cbv iota.
  now rewrite (half_overflows (vehicle_rate cfg) Hr).
Qed.

(** np.random.poisson takes every rate from 0 to 2^53. *)
Lemma poisson_accepts (rnd : Random) (rate hour : Z) :
  0 <= rate < 2 ^ 53 ->
  poisson rnd rate hour
  = Ok (if rate =? 0 then 0%nat else poisson_draw rnd hour).
Proof.
  intros [H0 H1]. unfold poisson.
  destruct (Z.ltb_spec rate 0); [lia |].
  assert (Qltb (inject_Z POISSON_LAM_MAX) (round_double (inject_Z rate))
          = false) as ->.
  { apply Qltb_ge. rewrite (round_double_Z rate) by lia.
    rewrite <- Zle_Qle. unfold POISSON_LAM_MAX.
    assert (2 ^ 53 = 9007199254740992) as Hp by reflexivity. lia. }
  now destruct (rate =? 0).
Qed.

(** C8, as the code has it.  Hour [h] is a peak hour exactly when
    [peakStart <= h <= peakEnd]; the rate is [r] in a peak hour and
    [int(r / 2)] otherwise, which is [floor (r / 2)] for every rate from 0
    up to 2^53, where the half is an exact double; and the vehicles
    generated in the hour are appended to [self.vehicles] with the next
    sequential ids, a weight in {1, 2, 3} and a priority in
    {1, ..., 5}. *)
Theorem generator_hour_arrivals (cfg : Settings) (rnd : Random) (hour : Z)
    (s : Sim) :
  (is_peak cfg hour = true <->
     (fst (peak_hours cfg) <= inject_Z hour)%Q
     /\ (inject_Z hour <= snd (peak_hours cfg))%Q)
  /\ (0 <= vehicle_rate cfg < 2 ^ 53 ->
      hourly_rate cfg hour
      = Ok (if is_peak cfg hour then vehicle_rate cfg
            else vehicle_rate cfg / 2))
  /\ (forall n, num_vehicles cfg rnd hour = Ok n ->
      exists new,
        vehicles (generator_hour cfg rnd hour s) = vehicles s ++ new
        /\ length new = n
        /\ (forall k v, new !! k = Some v ->
              vehicle_id v = Z.of_nat (length (vehicles s) + k)
              /\ weight v ∈ [1; 2; 3]
              /\ priority v ∈ [1; 2; 3; 4; 5])
        /\ (ids_sequential (vehicles s) ->
            ids_sequential (vehicles (generator_hour cfg rnd hour s)))).
Proof.
  split; [apply is_peak_spec |].
  split.
  { intros Hr. destruct (is_peak cfg hour) eqn:Hp.
    - now apply hourly_rate_peak.
    - rewrite (hourly_rate_off_peak cfg hour Hp) by lia.
      f_equal. apply Z.quot_div_nonneg; lia. }
  intros n Hn. unfold generator_hour. rewrite Hn.
  destruct (spawn_vehicles rnd n s) as (new & Hvs & Hlen & Hnew).
  exists new. cbn [schedule vehicles].
  split; [exact Hvs |]. split; [exact Hlen |]. split; [exact Hnew |].
  intros Hseq i v Hi. rewrite Hvs in Hi.
  destruct (decide (i < length (vehicles s))%nat) as [Hlt | Hge].
  - rewrite lookup_app_l in Hi by assumption. now apply Hseq.
  - rewrite lookup_app_r in Hi by lia.
    destruct (Hnew _ _ Hi) as (Hid & _). rewrite Hid. f_equal. lia.
Qed.

Lemma generator_hour_arrivals_witness :
  let cfg := mkSettings 24 "1" (8 # 1, 10 # 1)%Q 21 in
  hourly_rate cfg 9 = Ok 21 /\ hourly_rate cfg 11 = Ok 10.
Proof.
  pose (cfg := mkSettings 24 "1" (8 # 1, 10 # 1)%Q 21).
  pose (rnd := mkRandom (fun _ => 2%nat) (fun _ => 0%nat) (fun _ => 0%nat)).
  split.
  - destruct (generator_hour_arrivals cfg rnd 9 (initial_sim []))
      as (_ & H & _).
    exact (H ltac:(split; [discriminate | reflexivity])).
  - destruct (generator_hour_arrivals cfg rnd 11 (initial_sim []))
      as (_ & H & _).
    exact (H ltac:(split; [discriminate | reflexivity])).
Defined.

(** C8 as written fails beyond 2^53, where the half of the rate is a
    rounded double: with the rate 2^54 + 3 in the dialog, the rate of an
    off-peak hour is 2^53 + 2, and [floor (r / 2)] is 2^53 + 1. *)
Lemma off_peak_rate_is_rounded :
  exists cfg s,
    on_start "1" 24 "morning" 18014398509481987 1000 800 = Ok (cfg, s)
    /\ is_peak cfg 0 = false
    /\ 0 <= vehicle_rate cfg
    /\ vehicle_rate cfg / 2 = 9007199254740993
    /\ hourly_rate cfg 0 = Ok 9007199254740994.
Proof.
  eexists _, _. split; [reflexivity |].
  split; [vm_compute; reflexivity |].
  split; [discriminate |].
  split; vm_compute; reflexivity.
Qed.

(** X24.  The off-peak rate outside the range of C8.  [int(r / 2)]
    truncates towards zero, so that a negative rate above -2^53 gives the
    quotient that is rounded up, and from 2^1025 on the division
    overflows and raises OverflowError. *)
Theorem off_peak_rate_truncates_or_overflows (cfg : Settings) (hour : Z) :
  is_peak cfg hour = false ->
  (Z.abs (vehicle_rate cfg) < 2 ^ 53 ->
   hourly_rate cfg hour = Ok (Z.quot (vehicle_rate cfg) 2))
  /\ (2 ^ 1025 <= Z.abs (vehicle_rate cfg) ->
      hourly_rate cfg hour = Raise OverflowError).
Proof.
  intros Hp. split; [now apply hourly_rate_off_peak |].
  now apply hourly_rate_overflow.
Qed.

Lemma off_peak_rate_truncates_or_overflows_witness :
  let cfg := mkSettings 24 "1" (8 # 1, 10 # 1)%Q (-5) in
  hourly_rate cfg 0 = Ok (-2) /\ -5 / 2 = -3.
Proof.
  split; [| reflexivity].
  refine (proj1 (off_peak_rate_truncates_or_overflows
                   (mkSettings 24 "1" (8 # 1, 10 # 1)%Q (-5)) 0 _) _).
  - vm_compute; reflexivity.
  - vm_compute; reflexivity.
Defined.

(** ** Configurations are not validated *)

Lemma vehicle_process_start_zero (m : string) (v : Vehicle) (st : list Road) :
  Exists (fun r => capacity r = 0) st ->
  vehicle_process_start m v st = (Raise ZeroDivisionError, st).
Proof.
  intros Hex. unfold vehicle_process_start.
  apply bind_Raise.
  destruct (String.eqb m "1").
  - unfold optimize_traffic_flow. rewrite optimize_loop_unfold.
    now rewrite (min_by_ratio_zero st Hex).
  - rewrite balance_traffic_flow_unfold. unfold sorted_by_ratio.
    now rewrite (ratios_zero st Hex).
Qed.

Lemma run_nonpositive_horizon (cfg : Settings) (rnd : Random)
    (rs : list Road) (n : nat) :
  time_window cfg <= 0 ->
  vehicles (state_of (run cfg rnd n (initial_sim rs))) = [].
Proof.
  intros Hh.
  destruct n as [| n]; [reflexivity |].
  cbn [run]. unfold loop_once, within_horizon, peek. cbn.
  change (0 + 0) with 0.
  destruct (Z.leb_spec 0 (time_window cfg)); [| reflexivity].
  unfold generator_next.
  destruct (Z.ltb_spec 0 (time_window cfg)); [lia |].
  destruct n as [| n]; [reflexivity |].
  cbn [run]. unfold loop_once, within_horizon, peek. cbn.
  change (0 + 0) with 0.
  destruct (Z.leb_spec 0 (time_window cfg)); [| reflexivity].
  destruct n as [| n]; reflexivity.
Qed.

Lemma no_peak_in_reversed_window (cfg : Settings) (hour : Z) :
  (snd (peak_hours cfg) < fst (peak_hours cfg))%Q ->
  is_peak cfg hour = false.
Proof.
  intros Hrev. destruct (is_peak cfg hour) eqn:Hp; [| reflexivity].
  apply is_peak_spec in Hp as [Hlo Hhi]. exfalso.
  apply (Qlt_not_le _ _ Hrev). eapply Qle_trans; eauto.
Qed.

(** ** The history of a road counts the completed vehicle processes *)

(** *** The queue *)

Lemma pop_perm (q : list event) (e : event) (rest : list event) :
  pop q = Some (e, rest) -> q ≡ₚ e :: rest.
Proof.
  revert e rest. induction q as [| x q IH]; intros e rest Hpop; [discriminate |].
  cbn in Hpop. destruct (pop q) as [[m rest'] |] eqn:Hq.
  - specialize (IH m rest' eq_refl).
    destruct (event_before x m); injection Hpop as <- <-.
    + reflexivity.
    + rewrite IH. apply Permutation_swap.
  - injection Hpop as <- <-. destruct q; [reflexivity |].
    cbn in Hq. destruct (pop q) as [[? ?] |]; [destruct (event_before _ _) |];
      discriminate.
Qed.

Lemma event_before_time (a b : event) :
  (if event_before a b then ev_time a <= ev_time b
   else ev_time b <= ev_time a).
Proof.
  unfold event_before.
  destruct (Z.ltb_spec (ev_time a) (ev_time b)); [lia |].
  destruct (Z.ltb_spec (ev_time b) (ev_time a)); [lia |].
  repeat destruct (_ <? _)%nat; lia.
Qed.

Lemma pop_least (q : list event) (e : event) (rest : list event) :
  pop q = Some (e, rest) -> Forall (fun x => ev_time e <= ev_time x) q.
Proof.
  revert e rest. induction q as [| x q IH]; intros e rest Hpop; [constructor |].
  cbn in Hpop. destruct (pop q) as [[m rest'] |] eqn:Hq.
  - specialize (IH m rest' eq_refl).
    pose proof (event_before_time x m) as Hxm.
    destruct (event_before x m); injection Hpop as <- <-.
    + constructor; [lia |].
      eapply Forall_impl; [exact IH |]. cbn. intros; lia.
    + constructor; [lia | exact IH].
  - injection Hpop as <- <-. destruct q.
    + constructor; [lia | constructor].
    + cbn in Hq. destruct (pop q) as [[? ?] |]; [destruct (event_before _ _) |];
        discriminate.
Qed.

Lemma pop_None (q : list event) : pop q = None -> q = [].
Proof.
  destruct q as [| x q]; [reflexivity |]. cbn.
  destruct (pop q) as [[? ?] |]; [destruct (event_before _ _) |]; discriminate.
Qed.

Lemma held_on_perm (i : nat) (q q' : list event) :
  q ≡ₚ q' -> held_on i q = held_on i q'.
Proof. intros Hp. unfold held_on. now rewrite Hp. Qed.

Lemma held_on_app (i : nat) (q q' : list event) :
  held_on i (q ++ q') = (held_on i q + held_on i q')%nat.
Proof. unfold held_on. now rewrite filter_app, length_app. Qed.

Lemma held_on_cons (i : nat) (e : event) (q : list event) :
  held_on i (e :: q) = (held_on i [e] + held_on i q)%nat.
Proof. apply (held_on_app i [e] q). Qed.

Lemma count_for_snoc (i : nat) (log : list (Z * nat)) (k : Z) (j : nat) :
  count_for i (log ++ [(k, j)])
  = (count_for i log + if decide (j = i) then 1 else 0)%nat.
Proof.
  unfold count_for. rewrite filter_app, length_app. f_equal.
  rewrite filter_cons. cbn [snd]. destruct (decide (j = i)); reflexivity.
Qed.

(** *** Loads are the only thing the policies and the start of a vehicle
    process change *)

Lemma preserves_frame_ret {A} (a : A) : preserves_frame (ret a).
Proof. intros st. reflexivity. Qed.

Lemma preserves_frame_raise {A} (e : exn) : preserves_frame (@raise A e).
Proof. intros st. reflexivity. Qed.

Lemma preserves_frame_reading {A} (f : list Road -> Result A) :
  preserves_frame (reading f).
Proof. intros st. reflexivity. Qed.

Lemma preserves_frame_update (i : nat) (f : Road -> Road) :
  (forall r, frame (f r) = frame r) -> preserves_frame (update i f).
Proof. intros Hf st. cbn. now apply frame_alter_load. Qed.

Lemma preserves_frame_bind {A B} (m : M A) (k : A -> M B) :
  preserves_frame m -> (forall a, preserves_frame (k a)) ->
  preserves_frame (bind m k).
Proof.
  intros Hm Hk st. unfold bind. specialize (Hm st).
  destruct (m st) as [[a | e] st1]; cbn [snd] in *.
  - now rewrite (Hk a st1).
  - exact Hm.
Qed.

Lemma preserves_frame_optimize_loop (vs : list Vehicle) :
  forall a, preserves_frame (optimize_loop vs a).
Proof.
  induction vs as [| v vs IH]; intros a; cbn [optimize_loop].
  - apply preserves_frame_ret.
  - apply preserves_frame_bind; [apply preserves_frame_reading |].
    intros best. apply preserves_frame_bind; [| intros _; apply IH].
    apply preserves_frame_update, frame_add_load.
Qed.

Lemma preserves_frame_balance_loop (rs : list nat) (vs : list Vehicle) :
  forall a, preserves_frame (balance_loop rs vs a).
Proof.
  induction vs as [| v vs IH]; intros a st.
  - reflexivity.
  - rewrite balance_loop_unfold.
    destruct (first_fit _ _ _) as [[i road] |]; [| apply IH].
    rewrite IH. apply frame_alter_load, frame_add_load.
Qed.

Lemma preserves_frame_start (m : string) (v : Vehicle) :
  preserves_frame (vehicle_process_start m v).
Proof.
  unfold vehicle_process_start.
  apply preserves_frame_bind.
  - destruct (String.eqb m "1").
    + apply preserves_frame_optimize_loop.
    + apply preserves_frame_bind; [apply preserves_frame_reading |].
      intros rs. apply preserves_frame_balance_loop.
  - intros a. apply preserves_frame_bind.
    + unfold subscript. destruct (a !! vehicle_id v);
        [apply preserves_frame_ret | apply preserves_frame_raise].
    + intros road_name.
      apply preserves_frame_bind; [apply preserves_frame_reading |].
      intros i. apply preserves_frame_bind; [| intros _; apply preserves_frame_ret].
      apply preserves_frame_update, frame_add_load.
Qed.

Lemma frame_history (st st' : list Road) (i : nat) (r' : Road) :
  frame <$> st' = frame <$> st -> st' !! i = Some r' ->
  exists r, st !! i = Some r /\ history r' = history r.
Proof.
  intros Hfr Hi.
  assert (frame <$> st' !! i = Some (frame r')) as H by now rewrite Hi.
  rewrite <- list_lookup_fmap, Hfr, list_lookup_fmap in H.
  destruct (st !! i) as [r |]; [| discriminate].
  exists r. split; [reflexivity |].
  cbn in H. unfold frame in H. congruence.
Qed.

(** The end of a vehicle process appends one entry to the history of its
    road and to no other; when it raises, no history has changed. *)
Lemma resume_history (v : Vehicle) (i : nat) (st st' : list Road)
    (res : Result unit) :
  vehicle_process_resume v i st = (res, st') ->
  forall j r', st' !! j = Some r' ->
  exists r, st !! j = Some r
    /\ length (history r')
       = (length (history r)
          + match res with
            | Ok _ => if decide (i = j) then 1 else 0
            | Raise _ => 0
            end)%nat.
Proof.
  rewrite vehicle_process_resume_unfold. cbn zeta.
  destruct (ratio_at i _) as [x | e]; intros [= <- <-] j r' Hj.
  - destruct (decide (i = j)) as [<- | Hne].
    + rewrite !list_lookup_alter_eq in Hj.
      destruct (st !! i) as [r |]; [| discriminate].
      cbn in Hj. injection Hj as <-. exists r. split; [reflexivity |].
      cbn. rewrite length_app. reflexivity.
    + rewrite !list_lookup_alter_ne in Hj by assumption.
      exists r'. split; [assumption | lia].
  - destruct (frame_history st _ j r'
                (frame_alter_load _ i st (frame_release (weight v))) Hj)
      as (r & Hr & Hh).
    exists r. split; [assumption |]. rewrite Hh. lia.
Qed.

(** *** What one hour of the generator adds to the queue *)

Lemma spawn_effect (rnd : Random) (n : nat) :
  forall s,
    now (spawn rnd n s) = now s
    /\ roads (spawn rnd n s) = roads s
    /\ assigned_log (spawn rnd n s) = assigned_log s
    /\ completed_log (spawn rnd n s) = completed_log s
    /\ exists added,
         queue (spawn rnd n s) = queue s ++ added
         /\ Forall (fun e => (exists v, ev_kind e = InitVehicle v)
                             /\ ev_time e = now s) added.
Proof.
  induction n as [| n IH]; intros s.
  - repeat split. exists []. now rewrite app_nil_r.
  - cbn [spawn].
    destruct (IH (add_vehicle (new_vehicle rnd s) s))
      as (Hnow & Hroads & Hasg & Hcmp & added & Hq & Hadded).
    cbn [add_vehicle schedule now roads assigned_log completed_log queue] in *.
    repeat split; try assumption.
    eexists (_ :: added). split.
    + rewrite Hq, <- app_assoc. reflexivity.
    + constructor; [| exact Hadded].
      cbn. split; [eauto | lia].
Qed.

Lemma generator_next_effect (cfg : Settings) (rnd : Random) (hour : Z)
    (s : Sim) :
  let s' := generator_next cfg rnd hour s in
  roads s' = roads s
  /\ assigned_log s' = assigned_log s
  /\ completed_log s' = completed_log s
  /\ exists added,
       queue s' = queue s ++ added
       /\ Forall (generated (time_window cfg) hour (now s)) added.
Proof.
  cbn zeta. unfold generator_next, generator_hour.
  destruct (Z.ltb_spec hour (time_window cfg)) as [Hlt | Hge].
  - destruct (num_vehicles cfg rnd hour) as [n | e].
    + destruct (spawn_effect rnd n s)
        as (Hnow & Hroads & Hasg & Hcmp & added & Hq & Hadded).
      cbn [schedule now roads assigned_log completed_log queue].
      repeat split; try assumption.
      eexists (added ++ [_]). split.
      * rewrite Hq, <- app_assoc. reflexivity.
      * apply Forall_app. split.
        -- eapply Forall_impl; [exact Hadded |].
           intros e [[v Hk] Ht]. unfold generated. rewrite Hk. auto.
        -- constructor; [| constructor].
           unfold generated. cbn. rewrite Hnow. auto.
    + cbn [schedule now roads assigned_log completed_log queue].
      repeat split. eexists [_]. split; [reflexivity |].
      constructor; [| constructor]. unfold generated. cbn. split; [lia | lia].
  - cbn [schedule now roads assigned_log completed_log queue].
    repeat split. eexists [_]. split; [reflexivity |].
    constructor; [| constructor]. unfold generated. cbn. split; lia.
Qed.

Lemma generated_timing (H hour t : Z) (e : event) :
  generated H hour t e -> (hour < H -> t = hour) -> t <= H -> timing H e.
Proof.
  unfold generated, timing. destruct (ev_kind e); intros Hg Ht Hle;
    try contradiction; try lia.
Qed.

Lemma generated_not_held (H hour t : Z) (i : nat) (q : list event) :
  Forall (generated H hour t) q -> held_on i q = 0%nat.
Proof.
  induction 1 as [| e q He _ IH]; [reflexivity |].
  rewrite held_on_cons, IH. unfold held_on.
  rewrite filter_cons_False; [reflexivity |].
  unfold holds, generated in *. destruct (ev_kind e); tauto.
Qed.

Lemma held_on_singleton (i : nat) (e : event) :
  held_on i [e] = if decide (holds i e) then 1%nat else 0%nat.
Proof.
  unfold held_on. rewrite filter_cons. destruct (decide (holds i e)); reflexivity.
Qed.

(** *** One step of the event loop *)

Ltac sim_fields :=
  cbn [schedule log_assigned log_completed with_roads advance
       now queue next_eid roads vehicles assigned_log completed_log].

Lemma held_on_snoc (i : nat) (q : list event) (e : event) :
  held_on i (q ++ [e])
  = (held_on i q + if decide (holds i e) then 1 else 0)%nat.
Proof. now rewrite held_on_app, held_on_singleton. Qed.

Lemma dispatch_accounted (cfg : Settings) (rnd : Random) (ev : event)
    (rest : list event) (s : Sim) :
  let H := time_window cfg in
  let s' := snd (dispatch cfg rnd (ev_kind ev) (advance ev rest s)) in
  (forall i r, roads s !! i = Some r ->
     length (history r) = count_for i (completed_log s)) ->
  (forall i, (count_for i (completed_log s)
              + (held_on i [ev] + held_on i rest)
              <= count_for i (assigned_log s))%nat) ->
  timing H ev -> Forall (timing H) rest -> ev_time ev <= H ->
  accounted H s'.
Proof.
  intros H s' Hhist Hle Htim Hrest Hdue. subst s'.
  assert (forall i, count_for i (completed_log s) + held_on i rest
                    <= count_for i (assigned_log s))%nat as Hle'
    by (intros i; specialize (Hle i); lia).
  unfold timing in Htim.
  destruct (ev_kind ev) as [| hour | v | v i | | e] eqn:Hk; cbn [dispatch snd].
  - (* InitGenerator *)
    destruct (generator_next_effect cfg rnd 0 (advance ev rest s))
      as (Hr & Ha & Hc & added & Hq & Hadded).
    cbn [advance now queue roads assigned_log completed_log] in *.
    constructor.
    + rewrite Hr, Hc. exact Hhist.
    + intros i. rewrite Ha, Hc, Hq, held_on_app.
      rewrite (generated_not_held _ _ _ i added Hadded).
      specialize (Hle' i). lia.
    + rewrite Hq. apply Forall_app. split; [exact Hrest |].
      eapply Forall_impl; [exact Hadded |].
      intros e He. eapply generated_timing; [exact He | lia | exact Hdue].
  - (* ResumeGenerator *)
    destruct (generator_next_effect cfg rnd (hour + 1) (advance ev rest s))
      as (Hr & Ha & Hc & added & Hq & Hadded).
    cbn [advance now queue roads assigned_log completed_log] in *.
    constructor.
    + rewrite Hr, Hc. exact Hhist.
    + intros i. rewrite Ha, Hc, Hq, held_on_app.
      rewrite (generated_not_held _ _ _ i added Hadded).
      specialize (Hle' i). lia.
    + rewrite Hq. apply Forall_app. split; [exact Hrest |].
      eapply Forall_impl; [exact Hadded |].
      intros e He. eapply generated_timing; [exact He | lia | exact Hdue].
  - (* InitVehicle *)
    cbn [advance roads].
    pose proof (preserves_frame_start (method cfg) v (roads s)) as Hfr.
    destruct (vehicle_process_start (method cfg) v (roads s))
      as [[i | e] st]; cbn [snd] in *.
    + constructor; sim_fields.
      * intros j r' Hj.
        destruct (frame_history _ _ j r' Hfr Hj) as (r & Hr & ->). eauto.
      * intros j. rewrite count_for_snoc, held_on_snoc.
        specialize (Hle' j).
        destruct (decide (holds _ _)) as [Hh | Hh]; unfold holds in Hh;
          cbn in Hh; destruct (decide (i = j)); try lia; contradiction.
      * apply Forall_app. split; [exact Hrest |].
        constructor; [| constructor]. unfold timing. cbn. lia.
    + constructor; sim_fields.
      * intros j r' Hj.
        destruct (frame_history _ _ j r' Hfr Hj) as (r & Hr & ->). eauto.
      * intros j. rewrite held_on_snoc.
        specialize (Hle' j).
        destruct (decide (holds _ _)) as [Hh | Hh]; unfold holds in Hh;
          cbn in Hh; [contradiction | lia].
      * apply Forall_app. split; [exact Hrest |].
        constructor; [| constructor]. unfold timing. cbn. lia.
  - (* ResumeVehicle *)
    cbn [advance roads].
    pose proof (resume_history v i (roads s)) as Hres.
    destruct (vehicle_process_resume v i (roads s)) as [[u | e] st];
      specialize (Hres _ _ eq_refl); cbn [snd].
    + constructor; sim_fields.
      * intros j r' Hj. destruct (Hres j r' Hj) as (r & Hr & ->).
        rewrite count_for_snoc, (Hhist j r Hr). reflexivity.
      * intros j. rewrite count_for_snoc, held_on_snoc.
        specialize (Hle j). rewrite held_on_singleton in Hle.
        destruct (decide (holds j ev)) as [Hh | Hh] in Hle;
          unfold holds in Hh; rewrite Hk in Hh;
          (destruct (decide (holds _ _)) as [Hh' | Hh'];
           [unfold holds in Hh'; cbn in Hh'; contradiction |]);
          destruct (decide (i = j)); try lia; contradiction.
      * apply Forall_app. split; [exact Hrest |].
        constructor; [| constructor]. unfold timing. cbn. lia.
    + constructor; sim_fields.
      * intros j r' Hj. destruct (Hres j r' Hj) as (r & Hr & ->).
        rewrite Nat.add_0_r. eauto.
      * intros j. rewrite held_on_snoc. specialize (Hle' j).
        destruct (decide (holds _ _)) as [Hh' | Hh'];
          [unfold holds in Hh'; cbn in Hh'; contradiction | lia].
      * apply Forall_app. split; [exact Hrest |].
        constructor; [| constructor]. unfold timing. cbn. lia.
  - (* ProcessEnded *)
    constructor; sim_fields; auto.
  - (* ProcessFailed *)
    constructor; sim_fields; auto.
Qed.

Lemma dispatch_balanced (cfg : Settings) (rnd : Random) (ev : event)
    (rest : list event) (s : Sim) (u : unit) (s' : Sim) :
  (Forall not_failed (ev :: rest) ->
   forall i, count_for i (assigned_log s)
             = (count_for i (completed_log s)
                + (held_on i [ev] + held_on i rest))%nat) ->
  dispatch cfg rnd (ev_kind ev) (advance ev rest s) = (Ok u, s') ->
  balanced s'.
Proof.
  intros Hbal Hd Hnf i.
  destruct (ev_kind ev) as [| hour | v | v j | | e] eqn:Hk;
    cbn [dispatch] in Hd.
  - (* InitGenerator *)
    injection Hd as _ <-.
    destruct (generator_next_effect cfg rnd 0 (advance ev rest s))
      as (Hr & Ha & Hc & added & Hq & Hadded).
    rewrite Hq in Hnf |- *. apply Forall_app in Hnf as [Hnf _].
    rewrite Ha, Hc, held_on_app, (generated_not_held _ _ _ i added Hadded).
    sim_fields. rewrite Hbal.
    + rewrite held_on_singleton.
      destruct (decide (holds i ev)) as [Hh | Hh]; [| lia].
      unfold holds in Hh. now rewrite Hk in Hh.
    + constructor; [| exact Hnf]. unfold not_failed. now rewrite Hk.
  - (* ResumeGenerator *)
    injection Hd as _ <-.
    destruct (generator_next_effect cfg rnd (hour + 1) (advance ev rest s))
      as (Hr & Ha & Hc & added & Hq & Hadded).
    rewrite Hq in Hnf |- *. apply Forall_app in Hnf as [Hnf _].
    rewrite Ha, Hc, held_on_app, (generated_not_held _ _ _ i added Hadded).
    sim_fields. rewrite Hbal.
    + rewrite held_on_singleton.
      destruct (decide (holds i ev)) as [Hh | Hh]; [| lia].
      unfold holds in Hh. now rewrite Hk in Hh.
    + constructor; [| exact Hnf]. unfold not_failed. now rewrite Hk.
  - (* InitVehicle *)
    destruct (vehicle_process_start _ _ _) as [[k | e] st];
      injection Hd as _ <-; sim_fields; revert Hnf; sim_fields; intros Hnf;
      apply Forall_app in Hnf as [Hnf Hlast].
    + rewrite count_for_snoc, held_on_snoc, Hbal.
      * rewrite held_on_singleton.
        destruct (decide (holds i ev)) as [Hh | Hh];
          [unfold holds in Hh; now rewrite Hk in Hh |].
        destruct (decide (holds _ _)) as [Hh' | Hh']; unfold holds in Hh';
          cbn in Hh'; destruct (decide (k = i)); try lia; contradiction.
      * constructor; [| exact Hnf]. unfold not_failed. now rewrite Hk.
    + rewrite Forall_singleton in Hlast. contradiction.
  - (* ResumeVehicle *)
    destruct (vehicle_process_resume _ _ _) as [[u' | e] st];
      injection Hd as _ <-; sim_fields; revert Hnf; sim_fields; intros Hnf;
      apply Forall_app in Hnf as [Hnf Hlast].
    + rewrite count_for_snoc, held_on_snoc, Hbal.
      * rewrite held_on_singleton.
        destruct (decide (holds i ev)) as [Hh | Hh]; unfold holds in Hh;
          rewrite Hk in Hh;
          (destruct (decide (holds _ _)) as [Hh' | Hh'];
           [unfold holds in Hh'; cbn in Hh'; contradiction |]);
          destruct (decide (j = i)); try lia; contradiction.
      * constructor; [| exact Hnf]. unfold not_failed. now rewrite Hk.
    + rewrite Forall_singleton in Hlast. contradiction.
  - (* ProcessEnded *)
    injection Hd as _ <-. revert Hnf. sim_fields. intros Hnf. rewrite Hbal.
    + rewrite held_on_singleton.
      destruct (decide (holds i ev)) as [Hh | Hh]; [| lia].
      unfold holds in Hh. now rewrite Hk in Hh.
    + constructor; [| exact Hnf]. unfold not_failed. now rewrite Hk.
  - discriminate.
Qed.

Lemma within_horizon_pop (cfg : Settings) (s : Sim) :
  within_horizon cfg s = true ->
  exists ev rest, pop (queue s) = Some (ev, rest)
                  /\ ev_time ev <= time_window cfg.
Proof.
  unfold within_horizon, peek.
  destruct (pop (queue s)) as [[ev rest] |]; [| discriminate].
  intros Hle. exists ev, rest. split; [reflexivity | lia].
Qed.

Lemma step_accounted (cfg : Settings) (rnd : Random) (s : Sim) :
  accounted (time_window cfg) s -> within_horizon cfg s = true ->
  accounted (time_window cfg) (snd (step cfg rnd s)).
Proof.
  intros [Hhist Hle Htim] Hw.
  destruct (within_horizon_pop cfg s Hw) as (ev & rest & Hpop & Hdue).
  unfold step. rewrite Hpop.
  pose proof (pop_perm _ _ _ Hpop) as Hperm.
  rewrite Hperm in Htim. apply Forall_cons in Htim as [Hev Hrest].
  apply dispatch_accounted; try assumption.
  intros i. specialize (Hle i).
  rewrite (held_on_perm i _ _ Hperm), held_on_cons in Hle. exact Hle.
Qed.

Lemma step_balanced (cfg : Settings) (rnd : Random) (s : Sim) (u : unit)
    (s' : Sim) :
  balanced s -> step cfg rnd s = (Ok u, s') -> balanced s'.
Proof.
  intros Hbal. unfold step.
  destruct (pop (queue s)) as [[ev rest] |] eqn:Hpop; [| discriminate].
  pose proof (pop_perm _ _ _ Hpop) as Hperm.
  apply dispatch_balanced.
  intros Hnf i. rewrite <- held_on_cons, <- (held_on_perm i _ _ Hperm).
  apply Hbal. now rewrite Hperm.
Qed.

(** Every state of a run is accounted for, and balanced unless the run
    was left by an exception. *)
Lemma run_invariant (cfg : Settings) (rnd : Random) (n : nat) :
  forall s, accounted (time_window cfg) s -> balanced s ->
  accounted (time_window cfg) (state_of (run cfg rnd n s))
  /\ match run cfg rnd n s with
     | Running s' | Finished s' => balanced s'
     | Aborted _ _ => True
     end.
Proof.
  induction n as [| n IH]; intros s Hacc Hbal; [now split |].
  cbn [run]. unfold loop_once.
  destruct (within_horizon cfg s) eqn:Hw; [| now split].
  pose proof (step_accounted cfg rnd s Hacc Hw) as Hacc'.
  destruct (step cfg rnd s) as [[u | e] s'] eqn:Hstep; cbn [snd] in Hacc'.
  - apply IH; [exact Hacc' |]. now apply (step_balanced cfg rnd s u).
  - now split.
Qed.

Lemma run_Finished (cfg : Settings) (rnd : Random) (n : nat) :
  forall s s', run cfg rnd n s = Finished s' -> within_horizon cfg s' = false.
Proof.
  induction n as [| n IH]; intros s s' Hrun; [discriminate |].
  cbn [run] in Hrun. unfold loop_once in Hrun.
  destruct (within_horizon cfg s) eqn:Hw.
  - destruct (step cfg rnd s) as [[u | e] s1]; [eauto | discriminate].
  - now injection Hrun as <-.
Qed.

(** Past the horizon test only a generator that never started can be left
    in the queue. *)
Lemma beyond_horizon (cfg : Settings) (s : Sim) :
  Forall (timing (time_window cfg)) (queue s) ->
  within_horizon cfg s = false ->
  Forall (fun e => ev_kind e = InitGenerator) (queue s).
Proof.
  intros Htim Hw. unfold within_horizon, peek in Hw.
  destruct (pop (queue s)) as [[m rest] |] eqn:Hpop.
  - pose proof (pop_least _ _ _ Hpop) as Hleast.
    apply Z.leb_gt in Hw.
    apply Forall_forall. intros e He.
    rewrite Forall_forall in Htim, Hleast.
    specialize (Htim e He). specialize (Hleast e He).
    unfold timing in Htim. destruct (ev_kind e); try reflexivity; lia.
  - apply pop_None in Hpop. rewrite Hpop. constructor.
Qed.

Lemma initial_accounted (H : Z) (rs : list Road) :
  Forall (fun r => history r = []) rs ->
  accounted H (initial_sim rs) /\ balanced (initial_sim rs).
Proof.
  intros Hfresh.
  assert (forall i, held_on i (queue (initial_sim rs)) = 0%nat) as Hheld.
  { intros i.
    change (queue (initial_sim rs))
      with [mkEvent (0 + 0) URGENT 0 InitGenerator].
    rewrite held_on_singleton.
    destruct (decide (holds i _)) as [Hh | Hh]; [destruct Hh | reflexivity]. }
  split; [constructor |].
  - intros i r Hi. rewrite Forall_forall in Hfresh.
    rewrite (Hfresh r); [reflexivity |].
    apply list_elem_of_lookup. eauto.
  - intros i. rewrite Hheld. cbn. lia.
  - constructor; [| constructor]. reflexivity.
  - intros _ i. rewrite Hheld. reflexivity.
Qed.

(** *** Under policy "1" every vehicle process is assigned a road *)

Lemma find_road_ok (n : string) (st : list Road) :
  forall k, (exists r, r ∈ st /\ name r = n) ->
  exists i, find_road n k st = Ok i.
Proof.
  induction st as [| r0 st IH]; intros k (r & Hin & Hn).
  - inversion Hin.
  - cbn. destruct (String.eqb_spec (name r0) n) as [Heq | Hne]; [eauto |].
    apply IH. exists r. split; [| exact Hn].
    apply elem_of_cons in Hin as [-> | Hin]; [contradiction | exact Hin].
Qed.

Lemma start_policy_A_assigns (v : Vehicle) (st : list Road) :
  st <> [] -> Forall nonzero_capacity st ->
  exists i st', vehicle_process_start "1" v st = (Ok i, st').
Proof.
  intros Hne Hall. unfold vehicle_process_start.
  change (String.eqb "1" "1") with true. cbn match.
  destruct (min_by_ratio_ok st Hne Hall) as [[j r] Hmin].
  pose proof (min_by_ratio_spec st j r Hall Hmin) as (Hj & _).
  set (st1 := alter (add_load (weight v)) j st).
  assert (optimize_traffic_flow [v] st
          = (Ok (<[vehicle_id v := name r]> ∅), st1)) as Hopt.
  { unfold optimize_traffic_flow. rewrite optimize_loop_unfold, Hmin.
    reflexivity. }
  rewrite (bind_Ok _ _ _ _ _ Hopt).
  unfold subscript. rewrite lookup_insert_eq.
  rewrite (bind_Ok _ _ st1 (name r) st1 eq_refl).
  destruct (find_road_ok (name r) st1 0%nat) as [i Hi].
  { exists (add_load (weight v) r). split; [| reflexivity].
    apply list_elem_of_lookup. exists j.
    subst st1. now rewrite list_lookup_alter_eq, Hj. }
  rewrite (bind_Ok _ _ st1 i st1) by (unfold reading; now rewrite Hi).
  unfold bind, update, ret. eauto.
Qed.

Lemma unstarted_not_held (i : nat) (q : list event) :
  Forall (fun e => ev_kind e = InitGenerator) q -> held_on i q = 0%nat.
Proof.
  induction 1 as [| e q He _ IH]; [reflexivity |].
  unfold held_on in *. rewrite filter_cons_False; [exact IH |].
  unfold holds. now rewrite He.
Qed.

(** ** Under policy "1" a run reaches its horizon *)

(** For a rate from 0 to 10^9 the generator draws the arrivals of every
    hour: the half of the rate is exact and the sampler accepts it. *)
Lemma poisson_arrivals (cfg : Settings) (rnd : Random) (hour : Z) :
  0 <= vehicle_rate cfg <= 1000000000 ->
  num_vehicles cfg rnd hour = Ok (arrivals cfg rnd hour).
Proof.
  intros Hr.
  assert (2 ^ 53 = 9007199254740992) as Hp by reflexivity.
  assert (exists n, num_vehicles cfg rnd hour = Ok n) as [n Hn].
  { unfold num_vehicles. destruct (is_peak cfg hour) eqn:Hpeak.
    - rewrite (hourly_rate_peak cfg hour Hpeak).
      rewrite poisson_accepts by lia. eauto.
    - rewrite (hourly_rate_off_peak cfg hour Hpeak) by lia.
      pose proof (Z.quot_pos (vehicle_rate cfg) 2 ltac:(lia) ltac:(lia)).
      pose proof (Z.quot_le_upper_bound (vehicle_rate cfg) 2
                    (vehicle_rate cfg) ltac:(lia) ltac:(lia)).
      rewrite poisson_accepts by lia. eauto. }
  unfold arrivals. now rewrite Hn.
Qed.

Lemma generator_cost_from_unfold (cfg : Settings) (rnd : Random) (hour : Z) :
  generator_cost_from cfg rnd hour
  = if hour <? time_window cfg
    then (3 * arrivals cfg rnd hour + 1
          + generator_cost_from cfg rnd (hour + 1))%nat
    else 1%nat.
Proof.
  unfold generator_cost_from.
  destruct (Z.ltb_spec hour (time_window cfg)) as [Hlt | Hge].
  - replace (Z.to_nat (time_window cfg - hour))
      with (S (Z.to_nat (time_window cfg - (hour + 1)))) by lia.
    reflexivity.
  - replace (Z.to_nat (time_window cfg - hour)) with 0%nat by lia.
    reflexivity.
Qed.

Lemma spawn_count (cfg : Settings) (rnd : Random) (n : nat) :
  forall s len, exists added,
    queue (spawn rnd n s) = queue s ++ added
    /\ pending cfg rnd added = (3 * n)%nat
    /\ Forall (safe_event len) added.
Proof.
  induction n as [| n IH]; intros s len.
  - exists []. cbn. rewrite app_nil_r. repeat split. constructor.
  - cbn [spawn].
    destruct (IH (add_vehicle (new_vehicle rnd s) s) len)
      as (added & Hq & Hcost & Hsafe).
    cbn [add_vehicle schedule queue] in Hq.
    eexists (_ :: added). split; [| split].
    + rewrite Hq, <- app_assoc. reflexivity.
    + unfold pending in *. cbn [sum_list_with]. rewrite Hcost.
      unfold cost. cbn. lia.
    + constructor; [exact I | exact Hsafe].
Qed.

Lemma generator_next_cost (cfg : Settings) (rnd : Random) (hour : Z)
    (s : Sim) (len : nat) :
  0 <= vehicle_rate cfg <= 1000000000 ->
  exists added,
    queue (generator_next cfg rnd hour s) = queue s ++ added
    /\ pending cfg rnd added = generator_cost_from cfg rnd hour
    /\ Forall (safe_event len) added.
Proof.
  intros Hr. rewrite generator_cost_from_unfold.
  unfold generator_next, generator_hour.
  destruct (hour <? time_window cfg).
  - rewrite (poisson_arrivals cfg rnd hour Hr).
    destruct (spawn_count cfg rnd (arrivals cfg rnd hour) s len)
      as (added & Hq & Hcost & Hsafe).
    cbn [schedule queue].
    eexists (added ++ [_]). split; [| split].
    + rewrite Hq, <- app_assoc. reflexivity.
    + unfold pending in *. rewrite sum_list_with_app, Hcost.
      cbn [sum_list_with]. unfold cost at 1. cbn [ev_kind]. lia.
    + apply Forall_app. split; [exact Hsafe |].
      constructor; [exact I | constructor].
  - cbn [schedule queue]. eexists [_]. split; [reflexivity |].
    split; [reflexivity |]. constructor; [exact I | constructor].
Qed.

Lemma find_road_bound (n : string) (st : list Road) :
  forall k i, find_road n k st = Ok i -> (i < k + length st)%nat.
Proof.
  induction st as [| r st IH]; intros k i Hf; [discriminate |].
  cbn in Hf. destruct (String.eqb (name r) n).
  - injection Hf as <-. cbn. lia.
  - apply IH in Hf. cbn. lia.
Qed.

Lemma start_in_range (m : string) (v : Vehicle) (st st' : list Road)
    (i : nat) :
  vehicle_process_start m v st = (Ok i, st') -> (i < length st)%nat.
Proof.
  unfold vehicle_process_start, bind.
  set (policy := if String.eqb m "1" then optimize_traffic_flow [v]
                 else balance_traffic_flow [v]).
  assert (preserves_frame policy) as Hpol.
  { subst policy. destruct (String.eqb m "1").
    - apply preserves_frame_optimize_loop.
    - apply preserves_frame_bind; [apply preserves_frame_reading |].
      intros rs. apply preserves_frame_balance_loop. }
  specialize (Hpol st).
  destruct (policy st) as [[a | e] st1]; [| discriminate].
  cbn [snd] in Hpol. apply (f_equal length) in Hpol.
  rewrite !length_fmap in Hpol.
  unfold subscript. destruct (a !! vehicle_id v) as [n |]; [| discriminate].
  unfold ret, reading, update.
  destruct (find_road n 0 st1) as [j | e] eqn:Hfind; [| discriminate].
  intros [= <- _]. apply find_road_bound in Hfind. lia.
Qed.

Lemma resume_ok (v : Vehicle) (i : nat) (st : list Road) :
  (i < length st)%nat -> Forall nonzero_capacity st ->
  exists st', vehicle_process_resume v i st = (Ok tt, st')
              /\ length st' = length st
              /\ Forall nonzero_capacity st'.
Proof.
  intros Hi Hall. rewrite vehicle_process_resume_unfold. cbn zeta.
  destruct (lookup_lt_is_Some_2 st i Hi) as [r Hr].
  assert (nonzero_capacity r) as Hc.
  { rewrite Forall_forall in Hall. apply Hall, list_elem_of_lookup. eauto. }
  unfold ratio_at. rewrite list_lookup_alter_eq, Hr. cbn [fmap option_fmap option_map].
  rewrite (ratio_nonzero (release (weight v) r)) by exact Hc.
  eexists. split; [reflexivity |]. split.
  - now rewrite !length_alter.
  - apply Forall_alter; [apply Forall_alter; [exact Hall |] |]; auto.
Qed.

Lemma pending_snoc (cfg : Settings) (rnd : Random) (q : list event)
    (e : event) :
  pending cfg rnd (q ++ [e]) = (pending cfg rnd q + cost cfg rnd e)%nat.
Proof.
  unfold pending. rewrite sum_list_with_app. cbn [sum_list_with]. lia.
Qed.

Lemma dispatch_safe (cfg : Settings) (rnd : Random) (ev : event)
    (rest : list event) (s : Sim) :
  method cfg = "1"%string -> 0 <= vehicle_rate cfg <= 1000000000 ->
  roads s <> [] -> Forall nonzero_capacity (roads s) ->
  safe_event (length (roads s)) ev ->
  Forall (safe_event (length (roads s))) rest ->
  exists s',
    dispatch cfg rnd (ev_kind ev) (advance ev rest s) = (Ok tt, s')
    /\ safe s'
    /\ S (pending cfg rnd (queue s'))
       = (cost cfg rnd ev + pending cfg rnd rest)%nat.
Proof.
  intros Hm Hr Hne Hall Hev Hrest.
  unfold safe_event in Hev. unfold cost.
  destruct (ev_kind ev) as [| hour | v | v i | | e] eqn:Hk; cbn [dispatch].
  - (* InitGenerator *)
    eexists. split; [reflexivity |].
    destruct (generator_next_effect cfg rnd 0 (advance ev rest s))
      as (Hroads & _).
    destruct (generator_next_cost cfg rnd 0 (advance ev rest s)
                (length (roads s)) Hr) as (added & Hq & Hcost & Hsafe).
    cbn [advance roads queue] in Hroads, Hq.
    split; [constructor |]; rewrite ?Hroads, ?Hq; try assumption.
    + apply Forall_app. now split.
    + unfold pending in *. rewrite sum_list_with_app, Hcost. lia.
  - (* ResumeGenerator *)
    eexists. split; [reflexivity |].
    destruct (generator_next_effect cfg rnd (hour + 1) (advance ev rest s))
      as (Hroads & _).
    destruct (generator_next_cost cfg rnd (hour + 1) (advance ev rest s)
                (length (roads s)) Hr) as (added & Hq & Hcost & Hsafe).
    cbn [advance roads queue] in Hroads, Hq.
    split; [constructor |]; rewrite ?Hroads, ?Hq; try assumption.
    + apply Forall_app. now split.
    + unfold pending in *. rewrite sum_list_with_app, Hcost. lia.
  - (* InitVehicle *)
    cbn [advance roads]. rewrite Hm.
    destruct (start_policy_A_assigns v (roads s) Hne Hall) as (i & st & Hst).
    pose proof (preserves_frame_start "1" v (roads s)) as Hfr.
    pose proof (start_in_range _ _ _ _ _ Hst) as Hi.
    rewrite Hst in Hfr |- *. cbn [snd] in Hfr.
    assert (length st = length (roads s)) as Hlen.
    { apply (f_equal length) in Hfr. now rewrite !length_fmap in Hfr. }
    eexists. split; [reflexivity |]. sim_fields.
    split; [constructor |]; sim_fields.
    + now apply (frame_nonempty (roads s)).
    + now apply (nonzero_frame (roads s)).
    + rewrite Hlen. apply Forall_app. split; [exact Hrest |].
      constructor; [| constructor]. unfold safe_event. cbn. exact Hi.
    + rewrite pending_snoc. unfold cost at 1. cbn [ev_kind]. lia.
  - (* ResumeVehicle *)
    cbn [advance roads].
    destruct (resume_ok v i (roads s) Hev Hall) as (st & Hst & Hlen & Hall').
    rewrite Hst. eexists. split; [reflexivity |]. sim_fields.
    split; [constructor |]; sim_fields.
    + intros ->. rewrite <- Hlen in Hev. cbn in Hev. lia.
    + exact Hall'.
    + rewrite Hlen. apply Forall_app. split; [exact Hrest |].
      constructor; [exact I | constructor].
    + rewrite pending_snoc. unfold cost at 1. cbn [ev_kind]. lia.
  - (* ProcessEnded *)
    eexists. split; [reflexivity |]. split; [constructor |]; sim_fields;
      try assumption. lia.
  - contradiction.
Qed.

Lemma step_safe (cfg : Settings) (rnd : Random) (s : Sim) :
  method cfg = "1"%string -> 0 <= vehicle_rate cfg <= 1000000000 ->
  safe s -> within_horizon cfg s = true ->
  exists s',
    step cfg rnd s = (Ok tt, s') /\ safe s'
    /\ S (pending cfg rnd (queue s')) = pending cfg rnd (queue s).
Proof.
  intros Hm Hr [Hne Hall Hq] Hw.
  destruct (within_horizon_pop cfg s Hw) as (ev & rest & Hpop & _).
  pose proof (pop_perm _ _ _ Hpop) as Hperm.
  unfold step. rewrite Hpop.
  rewrite Hperm in Hq. apply Forall_cons in Hq as [Hev Hrest].
  destruct (dispatch_safe cfg rnd ev rest s Hm Hr Hne Hall Hev Hrest)
    as (s' & Hd & Hsafe & Hcost).
  exists s'. split; [exact Hd |]. split; [exact Hsafe |].
  rewrite Hcost. unfold pending. rewrite Hperm. reflexivity.
Qed.

Lemma run_finishes (cfg : Settings) (rnd : Random) (n : nat) :
  method cfg = "1"%string -> 0 <= vehicle_rate cfg <= 1000000000 ->
  forall s, safe s -> (pending cfg rnd (queue s) <= n)%nat ->
  exists s', run cfg rnd (S n) s = Finished s'.
Proof.
  intros Hm Hr. induction n as [| n IH]; intros s Hsafe Hcost.
  - cbn [run]. unfold loop_once.
    destruct (within_horizon cfg s) eqn:Hw; [| eauto].
    destruct (step_safe cfg rnd s Hm Hr Hsafe Hw) as (s' & _ & _ & Hdec). lia.
  - change (run cfg rnd (S (S n)) s)
      with (match loop_once cfg rnd s with
            | Running s' => run cfg rnd (S n) s'
            | o => o
            end).
    unfold loop_once.
    destruct (within_horizon cfg s) eqn:Hw; [| eauto].
    destruct (step_safe cfg rnd s Hm Hr Hsafe Hw) as (s' & -> & Hsafe' & Hdec).
    apply IH; [exact Hsafe' | lia].
Qed.

Lemma policy_A_run_finishes (cfg : Settings) (rnd : Random) (rs : list Road) :
  method cfg = "1"%string -> 0 <= vehicle_rate cfg <= 1000000000 ->
  rs <> [] -> Forall nonzero_capacity rs ->
  exists n s, run cfg rnd n (initial_sim rs) = Finished s.
Proof.
  intros Hm Hr Hne Hall.
  destruct (run_finishes cfg rnd (pending cfg rnd (queue (initial_sim rs)))
              Hm Hr (initial_sim rs)) as [s Hs].
  - constructor; cbn; [assumption | assumption |].
    constructor; [exact I | constructor].
  - reflexivity.
  - eauto.
Qed.

(** C7, as the code has it.  From fresh roads, at every point of a run
    (after any number of loop iterations, and where the loop was left),
    the length of a road's history is the number of vehicle processes
    that ran to their end on it, which is at most the number of processes
    that were assigned to it; once the loop has been left by its horizon
    test the two numbers are equal.  Under policy "1", with roads of
    nonzero capacity and a rate from 0 to 10^9 (so that the half of the
    rate does not overflow and np.random.poisson takes it), a vehicle
    process always gets a road and the run does reach that point. *)
Theorem history_counts_completed_processes (cfg : Settings) (rnd : Random)
    (rs : list Road) (n : nat) :
  Forall (fun r => history r = []) rs ->
  let o := run cfg rnd n (initial_sim rs) in
  (forall i r, roads (state_of o) !! i = Some r ->
     length (history r) = count_for i (completed_log (state_of o))
     /\ (length (history r)
         <= count_for i (assigned_log (state_of o)))%nat)
  /\ (forall s, o = Finished s ->
      forall i r, roads s !! i = Some r ->
        length (history r) = count_for i (assigned_log s))
  /\ (method cfg = "1"%string -> 0 <= vehicle_rate cfg <= 1000000000 ->
      rs <> [] -> Forall nonzero_capacity rs ->
      (forall v st, st <> [] -> Forall nonzero_capacity st ->
         exists i st', vehicle_process_start (method cfg) v st = (Ok i, st'))
      /\ exists m s,
           run cfg rnd m (initial_sim rs) = Finished s
           /\ forall i r, roads s !! i = Some r ->
                length (history r) = count_for i (assigned_log s)).
Proof.
  intros Hfresh o.
  destruct (initial_accounted (time_window cfg) rs Hfresh) as [Hacc0 Hbal0].
  assert (forall k s, run cfg rnd k (initial_sim rs) = Finished s ->
          forall i r, roads s !! i = Some r ->
            length (history r) = count_for i (assigned_log s)) as Hfin.
  { intros k s Ho i r Hi.
    destruct (run_invariant cfg rnd k (initial_sim rs) Hacc0 Hbal0)
      as [[Hhist _ Htim] Hbal].
    rewrite Ho in Hhist, Htim, Hbal. cbn [state_of] in Hhist, Htim.
    pose proof (run_Finished cfg rnd k _ _ Ho) as Hw.
    pose proof (beyond_horizon cfg s Htim Hw) as Hq.
    rewrite (Hhist i r Hi), Hbal.
    - rewrite (unstarted_not_held i _ Hq). lia.
    - eapply Forall_impl; [exact Hq |].
      intros e He. unfold not_failed. now rewrite He. }
  split; [| split].
  - destruct (run_invariant cfg rnd n (initial_sim rs) Hacc0 Hbal0)
      as [[Hhist Hle _] _].
    fold o in Hhist, Hle.
    intros i r Hi. split; [now apply Hhist |].
    rewrite (Hhist i r Hi). specialize (Hle i). lia.
  - intros s Ho. now apply (Hfin n).
  - intros Hm Hr Hne Hall. split.
    + intros v st. rewrite Hm. apply start_policy_A_assigns.
    + destruct (policy_A_run_finishes cfg rnd rs Hm Hr Hne Hall)
        as (m & s & Hrun).
      exists m, s. split; [exact Hrun |]. now apply (Hfin m).
Qed.

Lemma history_counts_completed_processes_witness :
  let cfg := mkSettings 1 "1" (6 # 1, 8 # 1)%Q 20 in
  let rnd := mkRandom (fun _ => 2%nat) (fun _ => 0%nat) (fun _ => 0%nat) in
  let rs := [Road_init "Mandela" 10; Road_init "Portmore" 10] in
  (exists s,
     run cfg rnd 12 (initial_sim rs) = Finished s
     /\ forall i r, roads s !! i = Some r ->
          length (history r) = count_for i (assigned_log s))
  /\ exists m s,
       run cfg rnd m (initial_sim rs) = Finished s
       /\ forall i r, roads s !! i = Some r ->
            length (history r) = count_for i (assigned_log s).
Proof.
  intros cfg rnd rs.
  pose proof (history_counts_completed_processes cfg rnd rs 12
                ltac:(repeat constructor)) as (_ & Hfin & Hpol).
  split.
  - eexists. split; [vm_compute; reflexivity |].
    apply Hfin. vm_compute. reflexivity.
  - apply Hpol.
    + reflexivity.
    + split; discriminate.
    + discriminate.
    + repeat constructor; discriminate.
Defined.

(** C7 as written fails in its last part: under policy "1", while a
    vehicle is held, its road has been assigned one vehicle and has an
    empty history. *)
Lemma held_vehicle_has_no_history_entry :
  let rnd := mkRandom (fun _ => 1%nat) (fun _ => 0%nat) (fun _ => 0%nat) in
  exists s r,
    simulate rnd 2 (start_simulation "1" 1 (6 # 1, 8 # 1)%Q 20 [10; 10])
      = Ok (Running s)
    /\ roads s !! 0%nat = Some r
    /\ length (history r) = 0%nat
    /\ count_for 0 (assigned_log s) = 1%nat.
Proof.
  eexists _, _. split; [vm_compute; reflexivity |].
  split; [reflexivity |]. split; reflexivity.
Qed.

(** * Further properties of the code *)

(** ** The two policies *)

Lemma total_load_alter (w : Z) (st : list Road) :
  forall i r, st !! i = Some r ->
  total_load (alter (add_load w) i st) = total_load st + w.
Proof.
  unfold total_load.
  induction st as [| r0 st IH]; intros [| i] r Hi; try discriminate.
  - cbn. lia.
  - cbn in Hi |- *. rewrite (IH i r Hi). lia.
Qed.

Lemma names_alter_load (w : Z) (i : nat) (st : list Road) :
  name <$> alter (add_load w) i st = name <$> st.
Proof.
  rewrite (list_fmap_alter name (add_load w) id).
  - apply list_alter_id. reflexivity.
  - apply Forall_forall. intros r _. reflexivity.
Qed.

Lemma min_scan_Ok_nonzero (rest : list Road) :
  forall best k i b, min_scan best k i rest = Ok b ->
  Forall nonzero_capacity rest.
Proof.
  induction rest as [| r rest IH]; intros best k i b Hscan; [constructor |].
  cbn in Hscan. destruct (ratio r) as [x | e] eqn:Hr; [| discriminate].
  apply ratio_Ok_inv in Hr as [Hc _].
  constructor; [exact Hc |].
  destruct (Qltb x k); eapply IH; exact Hscan.
Qed.

Lemma min_by_ratio_Ok_inv (st : list Road) (i : nat) (r : Road) :
  min_by_ratio st = Ok (i, r) ->
  st <> [] /\ Forall nonzero_capacity st /\ first_min_ratio st i r.
Proof.
  intros Hmin.
  assert (Forall nonzero_capacity st) as Hall.
  { destruct st as [| r0 rest]; [discriminate |]. cbn in Hmin.
    destruct (ratio r0) as [x | e] eqn:Hr; [| discriminate].
    apply ratio_Ok_inv in Hr as [Hc _].
    constructor; [exact Hc |]. eapply min_scan_Ok_nonzero; exact Hmin. }
  split; [| split; [exact Hall | now apply min_by_ratio_spec]].
  intros ->. discriminate.
Qed.

Lemma min_scan_Raise_inv (rest : list Road) :
  forall best k i e, min_scan best k i rest = Raise e ->
  Exists (fun r => capacity r = 0) rest /\ e = ZeroDivisionError.
Proof.
  induction rest as [| r rest IH]; intros best k i e Hscan; [discriminate |].
  cbn in Hscan. destruct (ratio r) as [x | e'] eqn:Hr.
  - destruct (Qltb x k); apply IH in Hscan as [Hex ->];
      (split; [now apply Exists_cons_tl | reflexivity]).
  - apply ratio_Raise_inv in Hr as [Hc ->]. injection Hscan as <-.
    split; [now apply Exists_cons_hd | reflexivity].
Qed.

Lemma min_by_ratio_Raise_inv (st : list Road) (e : exn) :
  min_by_ratio st = Raise e ->
  (st = [] /\ e = ValueError)
  \/ (Exists (fun r => capacity r = 0) st /\ e = ZeroDivisionError).
Proof.
  intros Hmin. destruct st as [| r0 rest]; cbn in Hmin.
  - left. injection Hmin as <-. auto.
  - right. destruct (ratio r0) as [x | e'] eqn:Hr.
    + apply min_scan_Raise_inv in Hmin as [Hex ->].
      split; [now apply Exists_cons_tl | reflexivity].
    + apply ratio_Raise_inv in Hr as [Hc ->]. injection Hmin as <-.
      split; [now apply Exists_cons_hd | reflexivity].
Qed.

Lemma ratios_Raise_inv (st : list Road) (e : exn) :
  ratios st = Raise e ->
  Exists (fun r => capacity r = 0) st /\ e = ZeroDivisionError.
Proof.
  induction st as [| r st IH]; [discriminate |]. cbn.
  destruct (ratio r) as [x | e'] eqn:Hr.
  - destruct (ratios st) as [ks | e'']; [discriminate |].
    intros [= <-]. destruct (IH eq_refl) as [Hex ->]. split; [| reflexivity].
    now apply Exists_cons_tl.
  - apply ratio_Raise_inv in Hr as [Hc ->]. intros [= <-].
    split; [| reflexivity]. now apply Exists_cons_hd.
Qed.

(** X1.  Neither policy changes the name, the capacity or the history of
    any road, nor the number of roads, whether it returns or raises: the
    loads are all they write. *)
Theorem policies_write_loads_only (vs : list Vehicle) (st : list Road) :
  let after_A := snd (optimize_traffic_flow vs st) in
  let after_B := snd (balance_traffic_flow vs st) in
  length after_A = length st
  /\ length after_B = length st
  /\ forall i r,
       st !! i = Some r ->
       (exists rA, after_A !! i = Some rA /\ name rA = name r
                   /\ capacity rA = capacity r /\ history rA = history r)
       /\ (exists rB, after_B !! i = Some rB /\ name rB = name r
                      /\ capacity rB = capacity r /\ history rB = history r).
Proof.
  cbn zeta.
  assert (forall st', frame <$> st' = frame <$> st ->
          length st' = length st
          /\ forall i r, st !! i = Some r ->
             exists r', st' !! i = Some r' /\ name r' = name r
                        /\ capacity r' = capacity r /\ history r' = history r)
    as Hframe.
  { intros st' Hfr. split.
    - apply (f_equal length) in Hfr. now rewrite !length_fmap in Hfr.
    - intros i r Hi.
      assert (frame <$> st !! i = Some (frame r)) as H by now rewrite Hi.
      rewrite <- list_lookup_fmap, <- Hfr, list_lookup_fmap in H.
      destruct (st' !! i) as [r' |]; [| discriminate].
      exists r'. cbn in H. unfold frame in H.
      repeat split; congruence. }
  destruct (Hframe _ (preserves_frame_optimize_loop vs ∅ st)) as [HlA HA].
  assert (preserves_frame (balance_traffic_flow vs)) as HB'.
  { apply preserves_frame_bind; [apply preserves_frame_reading |].
    intros rs. apply preserves_frame_balance_loop. }
  destruct (Hframe _ (HB' st)) as [HlB HB].
  split; [exact HlA |]. split; [exact HlB |].
  intros i r Hi. split; [now apply HA | now apply HB].
Qed.

Lemma policies_write_loads_only_witness :
  exists rB,
    snd (balance_traffic_flow [mkVehicle 0 3 1] [mkRoad "A" 10 4 [1 # 2]%Q])
      !! 0%nat = Some rB
    /\ history rB = [1 # 2]%Q.
Proof.
  destruct (policies_write_loads_only [mkVehicle 0 3 1]
              [mkRoad "A" 10 4 [1 # 2]%Q]) as (_ & _ & Hkeep).
  destruct (Hkeep 0%nat (mkRoad "A" 10 4 [1 # 2]%Q) eq_refl)
    as (_ & rB & HrB & _ & _ & Hh).
  exists rB. split; [exact HrB | exact Hh].
Defined.

Lemma optimize_loop_total (vs : list Vehicle) :
  forall a st a' st',
    optimize_loop vs a st = (Ok a', st') ->
    total_load st' = total_load st + total_weight vs
    /\ dom a' = dom a ∪ list_to_set (vehicle_id <$> vs)
    /\ forall k n, a' !! k = Some n ->
         a !! k = Some n \/ n ∈ name <$> st.
Proof.
  induction vs as [| v vs IH]; intros a st a' st' Hrun.
  - cbn in Hrun. unfold ret in Hrun. injection Hrun as <- <-.
    cbn. split; [lia |]. split; [set_solver | auto].
  - rewrite optimize_loop_unfold in Hrun.
    destruct (min_by_ratio st) as [[i r] |] eqn:Hmin; [| discriminate].
    cbn [fst snd] in Hrun.
    apply min_by_ratio_Ok_inv in Hmin as (_ & _ & Hi & _).
    destruct (IH _ _ _ _ Hrun) as (Hload & Hdom & Hnames).
    split; [| split].
    + rewrite Hload, (total_load_alter _ _ _ _ Hi).
      change (total_weight (v :: vs)) with (weight v + total_weight vs). lia.
    + rewrite Hdom, dom_insert_L. cbn. set_solver.
    + intros k n Hk. destruct (Hnames k n Hk) as [Hin | Hin].
      * destruct (decide (vehicle_id v = k)) as [<- | Hne].
        -- rewrite lookup_insert_eq in Hin. injection Hin as <-.
           right. apply list_elem_of_fmap. exists r. split; [reflexivity |].
           apply list_elem_of_lookup. eauto.
        -- rewrite lookup_insert_ne in Hin by assumption. now left.
      * right. now rewrite names_alter_load in Hin.
Qed.

(** X2.  When [optimize_traffic_flow] returns, every vehicle of the batch
    has an entry in the mapping, every entry is the name of a road of the
    list, and the loads have grown by exactly the weights of the batch. *)
Theorem optimize_places_whole_batch (vs : list Vehicle) (st : list Road)
    (a : gmap Z string) (st' : list Road) :
  optimize_traffic_flow vs st = (Ok a, st') ->
  dom a = list_to_set (vehicle_id <$> vs)
  /\ (forall k n, a !! k = Some n -> n ∈ name <$> st)
  /\ total_load st' = total_load st + total_weight vs.
Proof.
  intros Hrun. destruct (optimize_loop_total vs ∅ st a st' Hrun)
    as (Hload & Hdom & Hnames).
  split; [| split].
  - rewrite Hdom. set_solver.
  - intros k n Hk. destruct (Hnames k n Hk) as [Hin | Hin]; [| exact Hin].
    rewrite lookup_empty in Hin. discriminate.
  - exact Hload.
Qed.

Lemma optimize_places_whole_batch_witness :
  exists a st',
    optimize_traffic_flow [mkVehicle 0 2 1; mkVehicle 1 3 1]
      [mkRoad "A" 10 4 []; mkRoad "B" 5 1 []] = (Ok a, st')
    /\ total_load st' = 10.
Proof.
  assert (exists a st',
            optimize_traffic_flow [mkVehicle 0 2 1; mkVehicle 1 3 1]
              [mkRoad "A" 10 4 []; mkRoad "B" 5 1 []] = (Ok a, st'))
    as (a & st' & Hrun) by (eexists _, _; vm_compute; reflexivity).
  exists a, st'. split; [exact Hrun |].
  pose proof (optimize_places_whole_batch
                [mkVehicle 0 2 1; mkVehicle 1 3 1]
                [mkRoad "A" 10 4 []; mkRoad "B" 5 1 []] a st' Hrun)
    as (_ & _ & Hload).
  exact Hload.
Defined.

(** X3.  [optimize_traffic_flow] raises only for a non-empty batch, with
    ValueError when there is no road and ZeroDivisionError when a road has
    capacity zero; it raises before it has changed any load.  An empty
    batch returns the empty mapping whatever the roads are. *)
Theorem optimize_raises_exactly_when (vs : list Vehicle) (st : list Road) :
  (forall e st', optimize_traffic_flow vs st = (Raise e, st') ->
     st' = st /\ vs <> []
     /\ ((st = [] /\ e = ValueError)
         \/ (Exists (fun r => capacity r = 0) st /\ e = ZeroDivisionError)))
  /\ (vs <> [] -> st = [] ->
      optimize_traffic_flow vs st = (Raise ValueError, st))
  /\ (vs = [] -> optimize_traffic_flow vs st = (Ok ∅, st)).
Proof.
  split; [| split].
  - intros e st' Hrun. destruct vs as [| v vs]; [discriminate |].
    unfold optimize_traffic_flow in Hrun.
    rewrite optimize_loop_unfold in Hrun.
    destruct (min_by_ratio st) as [[i r] | e0] eqn:Hmin.
    + exfalso. apply min_by_ratio_Ok_inv in Hmin as (Hne & Hall & _).
      cbn [fst snd] in Hrun.
      destruct (optimize_loop_ok vs (<[vehicle_id v := name r]> ∅)
                  (alter (add_load (weight v)) i st))
        as (a' & st'' & Hok & _).
      * apply (frame_nonempty st); [| exact Hne].
        apply frame_alter_load, frame_add_load.
      * apply (nonzero_frame st); [| exact Hall].
        apply frame_alter_load, frame_add_load.
      * congruence.
    + injection Hrun as <- <-. split; [reflexivity |].
      split; [discriminate |]. now apply min_by_ratio_Raise_inv.
  - intros Hvs ->. destruct vs as [| v vs]; [congruence | reflexivity].
  - intros ->. reflexivity.
Qed.

Lemma optimize_raises_exactly_when_witness :
  optimize_traffic_flow [mkVehicle 0 1 1] [] = (Raise ValueError, []).
Proof.
  apply (optimize_raises_exactly_when [mkVehicle 0 1 1] []);
    [discriminate | reflexivity].
Defined.

Lemma balance_loop_no_roads (vs : list Vehicle) :
  forall a, balance_loop [] vs a [] = (Ok a, []).
Proof.
  induction vs as [| v vs IH]; intros a; [reflexivity |].
  rewrite balance_loop_unfold. cbn [first_fit]. apply IH.
Qed.

(** X4.  [balance_traffic_flow] raises only ZeroDivisionError, only when a
    road has capacity zero, and before it has changed any load; on an empty
    list of roads it returns the empty mapping for any batch, so that every
    vehicle of the batch is left without a road. *)
Theorem balance_raises_exactly_when (vs : list Vehicle) (st : list Road) :
  (forall e st', balance_traffic_flow vs st = (Raise e, st') ->
     st' = st /\ e = ZeroDivisionError
     /\ Exists (fun r => capacity r = 0) st)
  /\ (st = [] -> balance_traffic_flow vs st = (Ok ∅, st)).
Proof.
  split.
  - intros e st' Hrun. rewrite balance_traffic_flow_unfold in Hrun.
    unfold sorted_by_ratio in Hrun.
    destruct (ratios st) as [ks | e0] eqn:Hks.
    + destruct (balance_loop_ok
                  (snd <$> stable_sort (zip ks (seq 0 (length ks)))) vs ∅ st)
        as (a & st'' & Hok & _). congruence.
    + injection Hrun as <- <-.
      destruct (ratios_Raise_inv st e0 Hks) as [Hex ->]. auto.
  - intros ->. rewrite balance_traffic_flow_unfold. cbn.
    apply balance_loop_no_roads.
Qed.

Lemma balance_raises_exactly_when_witness :
  balance_traffic_flow [mkVehicle 0 1 1; mkVehicle 1 2 1] []
  = (Ok ∅, []).
Proof.
  apply (balance_raises_exactly_when [mkVehicle 0 1 1; mkVehicle 1 2 1] []).
  reflexivity.
Defined.

(** X5.  [balance_traffic_flow] never takes a road above its capacity:
    if every load is within capacity before the call, it is afterwards. *)
Theorem balance_keeps_loads_within_capacity (vs : list Vehicle)
    (st : list Road) (a : gmap Z string) (st' : list Road) :
  Forall within_capacity st ->
  balance_traffic_flow vs st = (Ok a, st') ->
  Forall within_capacity st'.
Proof. apply balance_traffic_flow_within_capacity. Qed.

Lemma balance_keeps_loads_within_capacity_witness :
  Forall within_capacity
    (snd (balance_traffic_flow [mkVehicle 0 3 1; mkVehicle 1 3 1]
            [mkRoad "A" 4 0 []; mkRoad "B" 5 1 []])).
Proof.
  eapply (balance_keeps_loads_within_capacity
            [mkVehicle 0 3 1; mkVehicle 1 3 1]
            [mkRoad "A" 4 0 []; mkRoad "B" 5 1 []]).
  - repeat constructor; unfold within_capacity; cbn; lia.
  - vm_compute. reflexivity.
Defined.

(** X6.  A vehicle that fits on no road is left out by policy "2": the
    mapping is empty, no load has changed, and the vehicle process raises
    KeyError on its subscript, the roads still untouched. *)
Theorem vehicle_without_room_raises_KeyError (m : string) (v : Vehicle)
    (st : list Road) :
  m <> "1"%string ->
  Forall nonzero_capacity st ->
  Forall (fun r => capacity r < current_load r + weight v) st ->
  balance_traffic_flow [v] st = (Ok ∅, st)
  /\ vehicle_process_start m v st = (Raise KeyError, st).
Proof. apply no_room_raises_KeyError. Qed.

Lemma vehicle_without_room_raises_KeyError_witness :
  vehicle_process_start "2" (mkVehicle 7 3 1)
    [mkRoad "A" 4 2 []; mkRoad "B" 5 3 []]
  = (Raise KeyError, [mkRoad "A" 4 2 []; mkRoad "B" 5 3 []]).
Proof.
  apply (vehicle_without_room_raises_KeyError "2" (mkVehicle 7 3 1)
           [mkRoad "A" 4 2 []; mkRoad "B" 5 3 []]).
  - discriminate.
  - repeat constructor; discriminate.
  - repeat constructor; cbn; lia.
Defined.

(** ** Policy B tries the roads in ascending order of ratio *)

Lemma insert_by_key_perm (x : Q * nat) (l : list (Q * nat)) :
  insert_by_key x l ≡ₚ x :: l.
Proof.
  induction l as [| y l IH]; [reflexivity |]. cbn.
  destruct (Qleb (fst x) (fst y)); [reflexivity |].
  rewrite IH. apply Permutation_swap.
Qed.

Lemma stable_sort_perm (l : list (Q * nat)) : stable_sort l ≡ₚ l.
Proof.
  induction l as [| x l IH]; [reflexivity |].
  cbn. rewrite insert_by_key_perm. now rewrite IH.
Qed.

Lemma key_le_weak (x y : Q * nat) :
  (fst x <= fst y)%Q -> (snd x <= snd y)%nat -> key_le x y.
Proof.
  intros Hq Hn. destruct (Qle_lt_or_eq _ _ Hq); [left | right]; auto.
Qed.

Lemma key_le_fst (x y : Q * nat) : key_le x y -> (fst x <= fst y)%Q.
Proof.
  intros [Hlt | [Heq _]]; [now apply Qlt_le_weak | rewrite Heq; apply Qle_refl].
Qed.

Lemma insert_ascending (x : Q * nat) (l : list (Q * nat)) :
  ascending l -> Forall (fun y => (snd x < snd y)%nat) l ->
  ascending (insert_by_key x l).
Proof.
  induction l as [| y l IH]; intros Hasc Hidx; cbn.
  - split; [constructor | exact I].
  - destruct Hasc as [Hy Hasc]. apply Forall_cons in Hidx as [Hxy Hidx].
    destruct (Qleb (fst x) (fst y)) eqn:Hcmp.
    + apply Qleb_le in Hcmp. split; [| split; assumption].
      constructor; [apply key_le_weak; [exact Hcmp | lia] |].
      rewrite Forall_forall in Hy, Hidx |- *. intros z Hz.
      apply key_le_weak; [| specialize (Hidx z Hz); lia].
      eapply Qle_trans; [exact Hcmp | apply key_le_fst, Hy, Hz].
    + assert (fst y < fst x)%Q as Hlt.
      { unfold Qleb in Hcmp. apply Qgt_alt.
        destruct (fst x ?= fst y)%Q; congruence. }
      split; [| now apply IH].
      rewrite insert_by_key_perm. constructor; [now left | exact Hy].
Qed.

Lemma sorted_positions_ascending (ks : list Q) :
  forall s,
    ascending (stable_sort (zip ks (seq s (length ks))))
    /\ Forall (fun y => (s <= snd y)%nat) (zip ks (seq s (length ks))).
Proof.
  induction ks as [| k ks IH]; intros s; [split; [exact I | constructor] |].
  destruct (IH (S s)) as [Hasc Hidx]. cbn [length seq zip zip_with]. split.
  - cbn [stable_sort foldr]. apply insert_ascending; [exact Hasc |].
    fold (stable_sort (zip ks (seq (S s) (length ks)))).
    rewrite stable_sort_perm.
    eapply Forall_impl; [exact Hidx |]. cbn. intros; lia.
  - constructor; [cbn; lia |].
    eapply Forall_impl; [exact Hidx |]. cbn. intros; lia.
Qed.

Lemma ratios_lookup (st : list Road) (ks : list Q) :
  ratios st = Ok ks ->
  length ks = length st
  /\ forall i r, st !! i = Some r -> ks !! i = Some (float_ratio r).
Proof.
  revert ks. induction st as [| r0 st IH]; intros ks Hks.
  - injection Hks as <-. split; [reflexivity | intros i r Hi; discriminate].
  - cbn in Hks. destruct (ratio r0) as [x |] eqn:Hr; [| discriminate].
    destruct (ratios st) as [ks' |]; [| discriminate].
    injection Hks as <-. apply ratio_Ok_inv in Hr as [_ ->].
    destruct (IH ks' eq_refl) as [Hlen Hlook]. split; [cbn; now rewrite Hlen |].
    intros [| i] r Hi; cbn in Hi |- *; [now injection Hi as <- | auto].
Qed.

Lemma first_fit_split (w : Z) (st : list Road) (l : list (Q * nat)) :
  forall i r, first_fit w (snd <$> l) st = Some (i, r) ->
  exists l1 x l2,
    l = l1 ++ x :: l2 /\ snd x = i /\ st !! i = Some r /\ fits w r
    /\ Forall (fun y => forall r', st !! snd y = Some r' -> ~ fits w r') l1.
Proof.
  induction l as [| y l IH]; intros i r Hfit; [discriminate |].
  cbn in Hfit. destruct (st !! snd y) as [ry |] eqn:Hy.
  - destruct (Z.leb_spec (current_load ry + w) (capacity ry)) as [Hroom | Hfull].
    + injection Hfit as <- <-. exists [], y, l.
      repeat split; [exact Hy | exact Hroom | constructor].
    + destruct (IH i r Hfit) as (l1 & x & l2 & -> & Hx & Hi & Hr & Hl1).
      exists (y :: l1), x, l2. repeat split; try assumption.
      constructor; [| exact Hl1].
      intros r' Hr'. rewrite Hy in Hr'. injection Hr' as <-.
      unfold fits. lia.
  - destruct (IH i r Hfit) as (l1 & x & l2 & -> & Hx & Hi & Hr & Hl1).
    exists (y :: l1), x, l2. repeat split; try assumption.
    constructor; [| exact Hl1]. intros r' Hr'. congruence.
Qed.

Lemma first_fit_None_inv (w : Z) (st : list Road) (rs : list nat) :
  first_fit w rs st = None ->
  forall i r, i ∈ rs -> st !! i = Some r -> ~ fits w r.
Proof.
  induction rs as [| j rs IH]; intros Hnone i r Hin Hi; [inversion Hin |].
  cbn in Hnone. apply elem_of_cons in Hin as [-> | Hin].
  - rewrite Hi in Hnone.
    destruct (Z.leb_spec (current_load r + w) (capacity r)); [discriminate |].
    unfold fits. lia.
  - destruct (st !! j) as [rj |]; [| eauto].
    destruct (current_load rj + w <=? capacity rj); [discriminate | eauto].
Qed.

Lemma ascending_after (l1 : list (Q * nat)) (x : Q * nat)
    (l2 : list (Q * nat)) :
  ascending (l1 ++ x :: l2) -> Forall (key_le x) l2.
Proof.
  induction l1 as [| y l1 IH]; cbn; intros [Hy Hasc]; [exact Hy | auto].
Qed.

Lemma sorted_has_every_road (st : list Road) (ks : list Q) (j : nat)
    (r : Road) :
  ratios st = Ok ks -> st !! j = Some r ->
  (float_ratio r, j) ∈ stable_sort (zip ks (seq 0 (length ks))).
Proof.
  intros Hks Hj. destruct (ratios_lookup st ks Hks) as [Hlen Hlook].
  rewrite stable_sort_perm. apply list_elem_of_lookup. exists j.
  apply lookup_zip_Some. split; [now apply Hlook |].
  apply lookup_seq. split; [reflexivity |].
  rewrite Hlen. eapply lookup_lt_Some; exact Hj.
Qed.

Lemma sorted_entry (st : list Road) (ks : list Q) (x : Q * nat) (r : Road) :
  ratios st = Ok ks ->
  x ∈ stable_sort (zip ks (seq 0 (length ks))) ->
  st !! snd x = Some r -> fst x = float_ratio r.
Proof.
  intros Hks Hx Hr. destruct (ratios_lookup st ks Hks) as [_ Hlook].
  rewrite stable_sort_perm in Hx.
  apply list_elem_of_lookup in Hx as [p Hp]. destruct x as [k i].
  apply lookup_zip_Some in Hp as [Hk Hi].
  apply lookup_seq in Hi as [Hi _]. cbn in Hi, Hr |- *. subst i.
  rewrite (Hlook p r Hr) in Hk. congruence.
Qed.

(** X7.  For one vehicle, and loads and capacities that doubles hold
    exactly, [balance_traffic_flow] either finds no road with room, and
    then returns the empty mapping and changes nothing, or it assigns the
    road that has room and the least ratio at the time of the call, the
    ratio being the double that the division computes, the first such road
    of the list, and adds the weight to it and to no other. *)
Theorem balance_assigns_least_ratio_with_room (v : Vehicle) (st : list Road)
    (a : gmap Z string) (st' : list Road) :
  exact_in_doubles st [v] ->
  balance_traffic_flow [v] st = (Ok a, st') ->
  (a = ∅ /\ st' = st /\ Forall (fun r => ~ fits (weight v) r) st)
  \/ exists i r,
       st !! i = Some r /\ fits (weight v) r
       /\ a = {[ vehicle_id v := name r ]}
       /\ st' = alter (add_load (weight v)) i st
       /\ forall j r', st !! j = Some r' -> fits (weight v) r' ->
            (float_ratio r < float_ratio r')%Q
            \/ ((float_ratio r == float_ratio r')%Q /\ (i <= j)%nat).
Proof.
  intros _.
  rewrite balance_traffic_flow_unfold. unfold sorted_by_ratio.
  destruct (ratios st) as [ks |] eqn:Hks; [| discriminate].
  set (sorted := stable_sort (zip ks (seq 0 (length ks)))).
  rewrite balance_loop_unfold.
  destruct (first_fit (weight v) (snd <$> sorted) st) as [[i r] |] eqn:Hfit.
  - intros [= <- <-]. right. exists i, r.
    destruct (first_fit_split _ _ _ _ _ Hfit)
      as (l1 & x & l2 & Hsplit & Hx & Hi & Hroom & Hl1).
    split; [exact Hi |]. split; [exact Hroom |].
    split; [apply insert_empty |]. split; [reflexivity |].
    intros j r' Hj Hroom'.
    pose proof (sorted_has_every_road st ks j r' Hks Hj) as Hin.
    fold sorted in Hin.
    assert (x ∈ sorted) as Hxin
      by (rewrite Hsplit; apply elem_of_app; right; apply list_elem_of_here).
    pose proof (sorted_entry st ks x r Hks Hxin ltac:(now rewrite Hx)) as Hkx.
    rewrite Hsplit in Hin.
    apply elem_of_app in Hin as [Hin | Hin].
    + rewrite Forall_forall in Hl1. exfalso.
      exact (Hl1 _ Hin r' Hj Hroom').
    + apply elem_of_cons in Hin as [Hin | Hin].
      * right. rewrite <- Hin in Hx. cbn in Hx. subst j.
        rewrite Hi in Hj. injection Hj as <-. split; [reflexivity | lia].
      * destruct (sorted_positions_ascending ks 0) as [Hasc _].
        fold sorted in Hasc. rewrite Hsplit in Hasc.
        apply ascending_after in Hasc. rewrite Forall_forall in Hasc.
        specialize (Hasc _ Hin). unfold key_le in Hasc.
        rewrite Hkx, Hx in Hasc. cbn [fst snd] in Hasc. exact Hasc.
  - intros [= <- <-]. left. split; [reflexivity |]. split; [reflexivity |].
    apply Forall_forall. intros r Hr.
    apply list_elem_of_lookup in Hr as [j Hj].
    apply (first_fit_None_inv _ _ _ Hfit j r); [| exact Hj].
    apply list_elem_of_fmap. exists (float_ratio r, j).
    split; [reflexivity |]. now apply (sorted_has_every_road st).
Qed.

Lemma balance_assigns_least_ratio_with_room_witness :
  exists a st',
    balance_traffic_flow [mkVehicle 0 3 1]
      [mkRoad "A" 10 9 []; mkRoad "B" 10 5 []; mkRoad "C" 20 10 []]
    = (Ok a, st')
    /\ a = {[ 0 := "B"%string ]}.
Proof.
  assert (balance_traffic_flow [mkVehicle 0 3 1]
            [mkRoad "A" 10 9 []; mkRoad "B" 10 5 []; mkRoad "C" 20 10 []]
          = (Ok {[ 0 := "B"%string ]},
             [mkRoad "A" 10 9 []; mkRoad "B" 10 8 []; mkRoad "C" 20 10 []]))
    as Hrun by (vm_compute; reflexivity).
  eexists _, _. split; [exact Hrun |].
  destruct (balance_assigns_least_ratio_with_room (mkVehicle 0 3 1)
              [mkRoad "A" 10 9 []; mkRoad "B" 10 5 []; mkRoad "C" 20 10 []]
              _ _ ltac:(repeat split; repeat constructor; cbn; lia) Hrun)
    as [(Ha & _) | _]; [| reflexivity].
  vm_compute in Ha. discriminate.
Defined.

(** ** The vehicle process, from assignment to release *)

Lemma find_road_first (n : string) (st : list Road) :
  forall k i, find_road n k st = Ok i ->
  exists p r, i = (k + p)%nat /\ st !! p = Some r /\ name r = n
              /\ forall q r', (q < p)%nat -> st !! q = Some r' -> name r' <> n.
Proof.
  induction st as [| r0 st IH]; intros k i Hf; [discriminate |].
  cbn in Hf. destruct (String.eqb_spec (name r0) n) as [Heq | Hne].
  - injection Hf as <-. exists 0%nat, r0.
    repeat split; [lia | exact Heq |]. intros q r' Hq. lia.
  - destruct (IH _ _ Hf) as (p & r & -> & Hp & Hn & Hfirst).
    exists (S p), r. repeat split; [lia | exact Hp | exact Hn |].
    intros [| q] r' Hq Hr'; cbn in Hr'.
    + now injection Hr' as <-.
    + apply (Hfirst q r'); [lia | exact Hr'].
Qed.

Lemma find_road_missing (n : string) (st : list Road) :
  forall k e, find_road n k st = Raise e ->
  e = RuntimeError /\ Forall (fun r => name r <> n) st.
Proof.
  induction st as [| r0 st IH]; intros k e Hf.
  - injection Hf as <-. split; [reflexivity | constructor].
  - cbn in Hf. destruct (String.eqb_spec (name r0) n) as [Heq | Hne];
      [discriminate |].
    destruct (IH _ _ Hf) as [-> Hall]. split; [reflexivity |].
    now constructor.
Qed.

(** X8.  The lookup of the assigned road by its name finds the first road
    of the list that has the name; it fails, with RuntimeError, exactly
    when no road has it. *)
Theorem find_road_first_of_that_name (n : string) (st : list Road) :
  (forall i, find_road n 0 st = Ok i ->
     exists r, st !! i = Some r /\ name r = n
       /\ forall q r', (q < i)%nat -> st !! q = Some r' -> name r' <> n)
  /\ (forall e, find_road n 0 st = Raise e ->
        e = RuntimeError /\ Forall (fun r => name r <> n) st)
  /\ (forall i r, st !! i = Some r -> name r = n ->
        exists j, find_road n 0 st = Ok j /\ (j <= i)%nat).
Proof.
  split; [| split].
  - intros i Hf. destruct (find_road_first n st 0 i Hf)
      as (p & r & -> & Hp & Hn & Hfirst). eauto.
  - intros e Hf. now apply (find_road_missing n st 0).
  - intros i r Hi Hn. destruct (find_road n 0 st) as [j | e] eqn:Hf.
    + exists j. split; [reflexivity |].
      destruct (find_road_first n st 0 j Hf) as (p & r' & -> & _ & _ & Hfirst).
      destruct (decide (i < p)%nat) as [Hlt | Hge]; [| lia].
      exfalso. exact (Hfirst i r Hlt Hi Hn).
    + destruct (find_road_missing n st 0 e Hf) as [_ Hall].
      rewrite Forall_forall in Hall. exfalso.
      apply (Hall r); [apply list_elem_of_lookup; eauto | exact Hn].
Qed.

Lemma find_road_first_of_that_name_witness :
  exists j, find_road "B" 0 [Road_init "A" 1; Road_init "B" 2; Road_init "B" 3]
            = Ok j /\ (j <= 2)%nat.
Proof.
  apply (find_road_first_of_that_name "B"
           [Road_init "A" 1; Road_init "B" 2; Road_init "B" 3])
    with (i := 2%nat) (r := Road_init "B" 3); reflexivity.
Defined.

Lemma find_road_NoDup (st : list Road) (i : nat) (r : Road) :
  NoDup (name <$> st) -> st !! i = Some r ->
  find_road (name r) 0 st = Ok i.
Proof.
  intros Hnd Hi. destruct (find_road (name r) 0 st) as [j | e] eqn:Hf.
  - destruct (find_road_first _ _ _ _ Hf) as (p & rj & -> & Hrj & Hn & _).
    f_equal. cbn.
    apply (NoDup_lookup (name <$> st) p i (name r) Hnd);
      rewrite list_lookup_fmap; [rewrite Hrj | rewrite Hi]; cbn; congruence.
  - destruct (find_road_missing _ _ _ _ Hf) as [_ Hall].
    rewrite Forall_forall in Hall. exfalso.
    apply (Hall r); [apply list_elem_of_lookup; eauto | reflexivity].
Qed.

(** What either policy does with a batch of one vehicle. *)
Lemma policy_single (m : string) (v : Vehicle) (st : list Road)
    (a : gmap Z string) (st1 : list Road) :
  (if String.eqb m "1" then optimize_traffic_flow [v]
   else balance_traffic_flow [v]) st = (Ok a, st1) ->
  (a = ∅ /\ st1 = st)
  \/ exists j r, st !! j = Some r
       /\ a = <[vehicle_id v := name r]> ∅
       /\ st1 = alter (add_load (weight v)) j st.
Proof.
  destruct (String.eqb m "1").
  - unfold optimize_traffic_flow. rewrite optimize_loop_unfold.
    destruct (min_by_ratio st) as [[j r] |] eqn:Hmin; [| discriminate].
    apply min_by_ratio_Ok_inv in Hmin as (_ & _ & Hj & _).
    cbn. unfold ret. intros [= <- <-]. right. eauto.
  - rewrite balance_traffic_flow_unfold.
    destruct (sorted_by_ratio st) as [rs |]; [| discriminate].
    rewrite balance_loop_unfold.
    destruct (first_fit _ _ _) as [[j r] |] eqn:Hfit.
    + apply first_fit_fits in Hfit as [Hj _].
      cbn. unfold ret. intros [= <- <-]. right. eauto.
    + cbn. unfold ret. intros [= <- <-]. now left.
Qed.

Lemma vehicle_process_start_inv (m : string) (v : Vehicle) (st : list Road)
    (i : nat) (st' : list Road) :
  NoDup (name <$> st) ->
  vehicle_process_start m v st = (Ok i, st') ->
  exists r, st !! i = Some r
    /\ st' = alter (add_load (weight v)) i (alter (add_load (weight v)) i st).
Proof.
  intros Hnd. unfold vehicle_process_start, bind.
  destruct ((if String.eqb m "1" then optimize_traffic_flow [v]
             else balance_traffic_flow [v]) st) as [[a | e] st1] eqn:Hpol;
    [| discriminate].
  apply policy_single in Hpol as [[-> ->] | (j & r & Hj & -> & ->)].
  - unfold subscript. rewrite lookup_empty. discriminate.
  - unfold subscript. rewrite lookup_insert_eq. unfold ret, reading, update.
    rewrite (find_road_NoDup _ j (add_load (weight v) r)).
    + intros [= <- <-]. eauto.
    + now rewrite names_alter_load.
    + now rewrite list_lookup_alter_eq, Hj.
Qed.

(** X9.  With distinct road names, a vehicle process that reaches its
    timeout has added its weight twice to the road it was assigned, once
    in the policy and once in [vehicle_process], and has changed no other
    road. *)
Theorem vehicle_process_adds_weight_twice (m : string) (v : Vehicle)
    (st : list Road) (i : nat) (st' : list Road) :
  NoDup (name <$> st) ->
  vehicle_process_start m v st = (Ok i, st') ->
  exists r r',
    st !! i = Some r /\ st' !! i = Some r'
    /\ current_load r' = current_load r + 2 * weight v
    /\ forall j, j <> i -> st' !! j = st !! j.
Proof.
  intros Hnd Hstart.
  destruct (vehicle_process_start_inv m v st i st' Hnd Hstart) as (r & Hi & ->).
  exists r, (add_load (weight v) (add_load (weight v) r)).
  split; [exact Hi |]. split; [| split].
  - now rewrite !list_lookup_alter_eq, Hi.
  - cbn. lia.
  - intros j Hj. now rewrite !list_lookup_alter_ne by congruence.
Qed.

Lemma vehicle_process_adds_weight_twice_witness :
  exists r', snd (vehicle_process_start "2" (mkVehicle 0 3 1)
                    [mkRoad "A" 10 4 []; mkRoad "B" 10 1 []]) !! 1%nat
             = Some r'
             /\ current_load r' = 7.
Proof.
  destruct (vehicle_process_adds_weight_twice "2" (mkVehicle 0 3 1)
              [mkRoad "A" 10 4 []; mkRoad "B" 10 1 []] 1
              [mkRoad "A" 10 4 []; mkRoad "B" 10 7 []])
    as (r & r' & Hr & Hr' & Hload & _).
  - apply (bool_decide_unpack _). vm_compute. exact I.
  - vm_compute. reflexivity.
  - exists r'. split; [exact Hr' |].
    injection Hr as <-. exact Hload.
Defined.

(** X10.  With distinct road names, the second half of a vehicle process
    that was assigned a road never raises, whenever the event loop gets to
    resume it.  Resumed on the roads as its start left them, with no other
    process in between, its release leaves [max 0 (load + weight)] on the
    road, where [load] is the load before the vehicle arrived, the history
    of the road gains that load over the capacity as its last entry, and
    no other road is touched.  Resumed after other processes have changed
    the loads and the histories (the capacities being those of the start,
    as they are throughout a run), it takes its weight off the load that
    the road has by then, with 0 as the floor, appends the ratio of that
    load to the history of the road, and touches no other road. *)
Theorem vehicle_process_leaves_its_weight (m : string) (v : Vehicle)
    (st : list Road) (i : nat) (st' : list Road) :
  NoDup (name <$> st) ->
  vehicle_process_start m v st = (Ok i, st') ->
  (exists r st'' r'',
    st !! i = Some r
    /\ vehicle_process_resume v i st' = (Ok tt, st'')
    /\ st'' !! i = Some r''
    /\ current_load r'' = Z.max 0 (current_load r + weight v)
    /\ history r''
       = history r
         ++ [round_double (inject_Z (Z.max 0 (current_load r + weight v))
                           / inject_Z (capacity r))]
    /\ forall j, j <> i -> st'' !! j = st !! j)
  /\ (forall st1, capacity <$> st1 = capacity <$> st ->
      exists r1 st'' r'',
        st1 !! i = Some r1
        /\ vehicle_process_resume v i st1 = (Ok tt, st'')
        /\ st'' !! i = Some r''
        /\ current_load r'' = Z.max 0 (current_load r1 - weight v)
        /\ history r''
           = history r1
             ++ [round_double
                   (inject_Z (Z.max 0 (current_load r1 - weight v))
                    / inject_Z (capacity r1))]
        /\ forall j, j <> i -> st'' !! j = st1 !! j).
Proof.
  intros Hnd Hstart.
  destruct (vehicle_process_start_inv m v st i st' Hnd Hstart) as (r & Hi & ->).
  assert (capacity r <> 0) as Hc.
  { intros Hc0.
    assert (Exists (fun r => capacity r = 0) st) as Hex.
    { apply Exists_exists. exists r. split; [| exact Hc0].
      apply list_elem_of_lookup. eauto. }
    rewrite (vehicle_process_start_zero m v st Hex) in Hstart.
    discriminate. }
  split; cycle 1.
  { intros st1 Hcap.
    assert (exists r1, st1 !! i = Some r1 /\ capacity r1 = capacity r)
      as (r1 & Hi1 & Hc1).
    { assert ((capacity <$> st1) !! i = Some (capacity r)) as H
        by now rewrite Hcap, list_lookup_fmap, Hi.
      rewrite list_lookup_fmap in H.
      destruct (st1 !! i) as [r1 |]; [| discriminate].
      exists r1. split; [reflexivity |]. cbn in H. congruence. }
    set (r2 := release (weight v) r1).
    assert (capacity r2 <> 0) as Hc2 by (cbn; congruence).
    exists r1, (alter (append_history (float_ratio r2)) i
                  (alter (release (weight v)) i st1)),
           (append_history (float_ratio r2) r2).
    split; [exact Hi1 |].
    split.
    { rewrite vehicle_process_resume_unfold. cbn zeta.
      unfold ratio_at. rewrite list_lookup_alter_eq, Hi1.
      cbn [fmap option_fmap option_map].
      now rewrite ratio_nonzero by exact Hc2. }
    split; [now rewrite !list_lookup_alter_eq, Hi1 |].
    split; [reflexivity |].
    split; [reflexivity |].
    intros j Hj. now rewrite !list_lookup_alter_ne by congruence. }
  set (r2 := release (weight v) (add_load (weight v) (add_load (weight v) r))).
  set (st2 := alter (add_load (weight v)) i (alter (add_load (weight v)) i st)).
  assert (vehicle_process_resume v i st2
          = (Ok tt, alter (append_history (float_ratio r2)) i
                      (alter (release (weight v)) i st2))) as Hres.
  { rewrite vehicle_process_resume_unfold. cbn zeta.
    unfold ratio_at. subst st2. rewrite !list_lookup_alter_eq, Hi.
    cbn [fmap option_fmap option_map].
    now rewrite ratio_nonzero by exact Hc. }
  assert (current_load r + weight v + weight v - weight v
          = current_load r + weight v) as Hsimp by lia.
  exists r, (alter (append_history (float_ratio r2)) i
               (alter (release (weight v)) i st2)),
         (append_history (float_ratio r2) r2).
  split; [exact Hi |]. split; [exact Hres |].
  split; [subst st2; now rewrite !list_lookup_alter_eq, Hi |].
  assert (current_load r2 = Z.max 0 (current_load r + weight v)) as Hload
    by (unfold r2, release, add_load, set_load; cbn [current_load];
        now rewrite Hsimp).
  split; [exact Hload |].
  split.
  { unfold append_history. cbn [history]. f_equal.
    unfold float_ratio, exact_ratio. now rewrite Hload. }
  intros j Hj. subst st2. now rewrite !list_lookup_alter_ne by congruence.
Qed.

Lemma vehicle_process_leaves_its_weight_witness :
  (exists st'' r'',
     vehicle_process_resume (mkVehicle 0 3 1) 1
       [mkRoad "A" 10 4 []; mkRoad "B" 10 7 []] = (Ok tt, st'')
     /\ st'' !! 1%nat = Some r''
     /\ current_load r'' = 4)
  /\ (exists st'' r'',
       vehicle_process_resume (mkVehicle 0 3 1) 1
         [mkRoad "A" 10 6 []; mkRoad "B" 10 20 [(1 # 2)%Q]] = (Ok tt, st'')
       /\ st'' !! 1%nat = Some r''
       /\ current_load r'' = 17).
Proof.
  destruct (vehicle_process_leaves_its_weight "1" (mkVehicle 0 3 1)
              [mkRoad "A" 10 4 []; mkRoad "B" 10 1 []] 1
              [mkRoad "A" 10 4 []; mkRoad "B" 10 7 []])
    as ((r & st'' & r'' & Hr & Hres & Hr'' & Hload & _) & Hlater).
  - apply (bool_decide_unpack _). vm_compute. exact I.
  - vm_compute. reflexivity.
  - split.
    + exists st'', r''. split; [exact Hres |]. split; [exact Hr'' |].
      injection Hr as <-. exact Hload.
    + destruct (Hlater [mkRoad "A" 10 6 []; mkRoad "B" 10 20 [(1 # 2)%Q]]
                  eq_refl)
        as (r1 & st1 & r1'' & Hr1 & Hres1 & Hr1'' & Hload1 & _).
      exists st1, r1''. split; [exact Hres1 |]. split; [exact Hr1'' |].
      injection Hr1 as <-. exact Hload1.
Defined.

(** X11.  The end of a vehicle process on road [i]: with a nonzero
    capacity it releases the weight and appends the new ratio to the
    history of that road; with capacity zero the release is made and the
    append raises ZeroDivisionError, so the load has changed and the
    history has not. *)
Theorem vehicle_process_resume_cases (v : Vehicle) (i : nat)
    (st : list Road) (r : Road) :
  st !! i = Some r ->
  (capacity r <> 0 ->
   vehicle_process_resume v i st
   = (Ok tt,
      <[i := append_history (float_ratio (release (weight v) r))
               (release (weight v) r)]> st))
  /\ (capacity r = 0 ->
      vehicle_process_resume v i st
      = (Raise ZeroDivisionError, <[i := release (weight v) r]> st)).
Proof.
  intros Hi.
  assert (alter (release (weight v)) i st = <[i := release (weight v) r]> st)
    as Hrel.
  { apply list_eq. intros j. destruct (decide (i = j)) as [<- | Hne].
    - rewrite list_lookup_alter_eq, Hi.
      now rewrite list_lookup_insert_eq by (eapply lookup_lt_Some; eauto).
    - now rewrite list_lookup_alter_ne, list_lookup_insert_ne by assumption. }
  rewrite vehicle_process_resume_unfold. cbn zeta.
  unfold ratio_at. rewrite list_lookup_alter_eq, Hi.
  cbn [fmap option_fmap option_map]. split; intros Hc.
  - rewrite ratio_nonzero by exact Hc. f_equal. rewrite Hrel.
    apply list_eq. intros j. destruct (decide (i = j)) as [<- | Hne].
    + rewrite list_lookup_alter_eq.
      rewrite !list_lookup_insert_eq
        by (rewrite ?length_insert; eapply lookup_lt_Some; eauto).
      reflexivity.
    + now rewrite list_lookup_alter_ne, !list_lookup_insert_ne by assumption.
  - rewrite ratio_zero by exact Hc. now rewrite Hrel.
Qed.

Lemma vehicle_process_resume_cases_witness :
  vehicle_process_resume (mkVehicle 0 3 1) 0 [mkRoad "Z" 0 5 []]
  = (Raise ZeroDivisionError, [mkRoad "Z" 0 2 []]).
Proof.
  apply (vehicle_process_resume_cases (mkVehicle 0 3 1) 0
           [mkRoad "Z" 0 5 []] (mkRoad "Z" 0 5 []) eq_refl).
  reflexivity.
Defined.

(** ** The event loop *)

Lemma run_guarded_invariant (cfg : Settings) (rnd : Random)
    (P : Sim -> Prop) :
  (forall s, P s -> within_horizon cfg s = true ->
             P (snd (step cfg rnd s))) ->
  forall n s, P s -> P (state_of (run cfg rnd n s)).
Proof.
  intros Hstep. induction n as [| n IH]; intros s Hs; [exact Hs |].
  cbn [run]. unfold loop_once.
  destruct (within_horizon cfg s) eqn:Hw; [| exact Hs].
  specialize (Hstep s Hs Hw).
  destruct (step cfg rnd s) as [[u | e] s']; cbn [snd] in Hstep.
  - now apply IH.
  - exact Hstep.
Qed.

(** A property that the steps which return keep, given one that all
    steps keep, holds wherever a run stands without having raised. *)
Lemma run_ok_invariant (cfg : Settings) (rnd : Random)
    (P Q : Sim -> Prop) :
  (forall s, P s -> within_horizon cfg s = true ->
             P (snd (step cfg rnd s))) ->
  (forall s u s', P s -> Q s -> within_horizon cfg s = true ->
                  step cfg rnd s = (Ok u, s') -> Q s') ->
  forall n s, P s -> Q s ->
  match run cfg rnd n s with
  | Running s' | Finished s' => Q s'
  | Aborted _ _ => True
  end.
Proof.
  intros HP HQ. induction n as [| n IH]; intros s Hp Hq; [exact Hq |].
  cbn [run]. unfold loop_once.
  destruct (within_horizon cfg s) eqn:Hw; [| exact Hq].
  pose proof (HP s Hp Hw) as Hp'.
  destruct (step cfg rnd s) as [[u | e] s'] eqn:Hstep; cbn [snd] in Hp'.
  - apply IH; [exact Hp' |]. now apply (HQ s u).
  - exact I.
Qed.

Lemma step_timing (cfg : Settings) (rnd : Random) (s : Sim) :
  Forall (timing (time_window cfg)) (queue s) ->
  within_horizon cfg s = true ->
  Forall (timing (time_window cfg)) (queue (snd (step cfg rnd s))).
Proof.
  intros Htim Hw.
  destruct (within_horizon_pop cfg s Hw) as (ev & rest & Hpop & Hdue).
  pose proof (pop_perm _ _ _ Hpop) as Hperm.
  unfold step. rewrite Hpop. rewrite Hperm in Htim.
  apply Forall_cons in Htim as [Hev Hrest].
  unfold timing in Hev.
  destruct (ev_kind ev) as [| hour | v | v i | | e] eqn:Hk; cbn [dispatch snd].
  - destruct (generator_next_effect cfg rnd 0 (advance ev rest s))
      as (_ & _ & _ & added & Hq & Hadded).
    cbn [advance now queue] in Hq, Hadded.
    rewrite Hq. apply Forall_app. split; [exact Hrest |].
    eapply Forall_impl; [exact Hadded |].
    intros e He. eapply generated_timing; [exact He | lia | exact Hdue].
  - destruct (generator_next_effect cfg rnd (hour + 1) (advance ev rest s))
      as (_ & _ & _ & added & Hq & Hadded).
    cbn [advance now queue] in Hq, Hadded.
    rewrite Hq. apply Forall_app. split; [exact Hrest |].
    eapply Forall_impl; [exact Hadded |].
    intros e He. eapply generated_timing; [exact He | lia | exact Hdue].
  - destruct (vehicle_process_start _ _ _) as [[i | e] st]; cbn [snd];
      sim_fields; (apply Forall_app; split; [exact Hrest |]);
      (constructor; [| constructor]); unfold timing; cbn; lia.
  - destruct (vehicle_process_resume _ _ _) as [[u | e] st]; cbn [snd];
      sim_fields; (apply Forall_app; split; [exact Hrest |]);
      (constructor; [| constructor]); unfold timing; cbn; lia.
  - sim_fields. exact Hrest.
  - sim_fields. exact Hrest.
Qed.

Lemma run_S (cfg : Settings) (rnd : Random) (n : nat) :
  forall s, run cfg rnd (S n) s
            = match run cfg rnd n s with
              | Running s' => loop_once cfg rnd s'
              | o => o
              end.
Proof.
  induction n as [| n IH]; intros s.
  - cbn. destruct (loop_once cfg rnd s); reflexivity.
  - change (run cfg rnd (S (S n)) s)
      with (match loop_once cfg rnd s with
            | Running s' => run cfg rnd (S n) s'
            | o => o
            end).
    change (run cfg rnd (S n) s)
      with (match loop_once cfg rnd s with
            | Running s' => run cfg rnd n s'
            | o => o
            end).
    destruct (loop_once cfg rnd s) as [s' | s' | e s']; [apply IH | |];
      reflexivity.
Qed.

Lemma generator_next_vehicles (cfg : Settings) (rnd : Random) (hour : Z)
    (s : Sim) :
  exists new,
    vehicles (generator_next cfg rnd hour s) = vehicles s ++ new
    /\ forall k v, new !! k = Some v ->
         vehicle_id v = Z.of_nat (length (vehicles s) + k) /\ well_formed v.
Proof.
  unfold generator_next, generator_hour.
  destruct (hour <? time_window cfg);
    [destruct (num_vehicles cfg rnd hour) as [n | e] |].
  - destruct (spawn_vehicles rnd n s) as (new & Hvs & _ & Hnew).
    exists new. split; [exact Hvs |].
    intros k v Hk. destruct (Hnew k v Hk) as (Hid & Hw & Hp).
    split; [exact Hid | split; assumption].
  - exists []. split; [cbn; now rewrite app_nil_r | intros k v Hk; discriminate].
  - exists []. split; [cbn; now rewrite app_nil_r | intros k v Hk; discriminate].
Qed.

Lemma step_vehicles (cfg : Settings) (rnd : Random) (s : Sim) :
  exists new,
    vehicles (snd (step cfg rnd s)) = vehicles s ++ new
    /\ forall k v, new !! k = Some v ->
         vehicle_id v = Z.of_nat (length (vehicles s) + k) /\ well_formed v.
Proof.
  assert (exists new : list Vehicle,
            vehicles s = vehicles s ++ new
            /\ forall k v, new !! k = Some v ->
                 vehicle_id v = Z.of_nat (length (vehicles s) + k)
                 /\ well_formed v) as Hsame.
  { exists []. split; [now rewrite app_nil_r | intros k v Hk; discriminate]. }
  unfold step. destruct (pop (queue s)) as [[ev rest] |]; [| exact Hsame].
  destruct (ev_kind ev) as [| hour | v | v i | | e]; cbn [dispatch].
  - apply (generator_next_vehicles cfg rnd 0 (advance ev rest s)).
  - apply (generator_next_vehicles cfg rnd (hour + 1) (advance ev rest s)).
  - destruct (vehicle_process_start _ _ _) as [[i | e] st]; exact Hsame.
  - destruct (vehicle_process_resume _ _ _) as [[u | e] st]; exact Hsame.
  - exact Hsame.
  - exact Hsame.
Qed.

(** X12.  At every point of a run, the vehicles created so far have the
    ids 0, 1, 2, ... in the order of their creation, so the ids are
    distinct, and each has a weight in {1, 2, 3} and a priority in
    {1, ..., 5}. *)
Theorem run_vehicles_numbered (cfg : Settings) (rnd : Random)
    (rs : list Road) (n : nat) :
  let s := state_of (run cfg rnd n (initial_sim rs)) in
  ids_sequential (vehicles s)
  /\ Forall well_formed (vehicles s)
  /\ NoDup (vehicle_id <$> vehicles s).
Proof.
  cbn zeta.
  assert (ids_sequential (vehicles (state_of (run cfg rnd n (initial_sim rs))))
          /\ Forall well_formed
               (vehicles (state_of (run cfg rnd n (initial_sim rs)))))
    as [Hseq Hwf].
  { apply (run_guarded_invariant cfg rnd
             (fun s => ids_sequential (vehicles s)
                       /\ Forall well_formed (vehicles s))).
    - intros s [Hseq Hwf] _.
      destruct (step_vehicles cfg rnd s) as (new & -> & Hnew). split.
      + intros i v Hi.
        destruct (decide (i < length (vehicles s))%nat) as [Hlt | Hge].
        * rewrite lookup_app_l in Hi by assumption. now apply Hseq.
        * rewrite lookup_app_r in Hi by lia.
          destruct (Hnew _ _ Hi) as [-> _]. f_equal. lia.
      + apply Forall_app. split; [exact Hwf |].
        apply Forall_forall. intros v Hv.
        apply list_elem_of_lookup in Hv as [k Hk]. now apply (Hnew k v).
    - split; [intros i v Hi; discriminate | constructor]. }
  split; [exact Hseq |]. split; [exact Hwf |].
  apply NoDup_alt. intros i j k Hi Hj.
  rewrite list_lookup_fmap in Hi, Hj.
  destruct (vehicles _ !! i) as [vi |] eqn:Hvi; [| discriminate].
  destruct (vehicles _ !! j) as [vj |] eqn:Hvj; [| discriminate].
  cbn in Hi, Hj. injection Hi as Hi. injection Hj as Hj.
  apply Hseq in Hvi, Hvj. lia.
Qed.



Lemma step_clock (cfg : Settings) (rnd : Random) (s : Sim) :
  not_in_the_past s -> within_horizon cfg s = true ->
  let s' := snd (step cfg rnd s) in
  not_in_the_past s' /\ now s <= now s' <= time_window cfg.
Proof.
  intros Hpast Hw. cbn zeta.
  destruct (within_horizon_pop cfg s Hw) as (ev & rest & Hpop & Hdue).
  pose proof (pop_perm _ _ _ Hpop) as Hperm.
  pose proof (pop_least _ _ _ Hpop) as Hleast.
  unfold not_in_the_past in Hpast.
  rewrite Hperm in Hpast, Hleast.
  apply Forall_cons in Hpast as [Hev _].
  apply Forall_cons in Hleast as [_ Hrest].
  unfold step. rewrite Hpop.
  assert (forall k p d (s1 : Sim),
            now s1 = ev_time ev -> 0 <= d ->
            Forall (fun e => ev_time ev <= ev_time e) (queue s1) ->
            not_in_the_past (schedule k p d s1) /\ now (schedule k p d s1) = ev_time ev)
    as Hsched.
  { intros k p d s1 Hnow Hd Hq. unfold not_in_the_past. cbn. rewrite Hnow.
    split; [| reflexivity]. apply Forall_app. split; [exact Hq |].
    constructor; [cbn; lia | constructor]. }
  assert (forall hour,
            let s1 := generator_next cfg rnd hour (advance ev rest s) in
            not_in_the_past s1 /\ now s1 = ev_time ev) as Hgen.
  { intros hour. cbn zeta. unfold generator_next, generator_hour.
    destruct (hour <? time_window cfg);
      [destruct (num_vehicles cfg rnd hour) as [n | e] |].
    - destruct (spawn_effect rnd n (advance ev rest s))
        as (Hnow & _ & _ & _ & added & Hq & Hadded).
      apply Hsched; [exact Hnow | lia |].
      rewrite Hq. apply Forall_app. split; [exact Hrest |].
      eapply Forall_impl; [exact Hadded |]. cbn. intros e [_ ->]. lia.
    - apply Hsched; [reflexivity | lia | exact Hrest].
    - apply Hsched; [reflexivity | lia | exact Hrest]. }
  destruct (ev_kind ev) as [| hour | v | v i | | e]; cbn [dispatch snd].
  - destruct (Hgen 0) as [H1 H2]. rewrite H2. split; [exact H1 | lia].
  - destruct (Hgen (hour + 1)) as [H1 H2]. rewrite H2. split; [exact H1 | lia].
  - destruct (vehicle_process_start _ _ _) as [[i | e] st]; cbn [snd];
      (edestruct Hsched as [H1 H2];
       [| | | rewrite H2; split; [exact H1 | lia]];
       [reflexivity | lia | exact Hrest]).
  - destruct (vehicle_process_resume _ _ _) as [[u | e] st]; cbn [snd];
      (edestruct Hsched as [H1 H2];
       [| | | rewrite H2; split; [exact H1 | lia]];
       [reflexivity | lia | exact Hrest]).
  - cbn. split; [exact Hrest | lia].
  - cbn. split; [exact Hrest | lia].
Qed.

(** X14.  Simulated time never runs backwards and never passes the
    horizon: each iteration of the loop leaves the clock where it was or
    moves it forward, to a time that is at most [time_window], and no
    event waiting in the queue is ever due in the past. *)
Theorem clock_is_monotone (cfg : Settings) (rnd : Random) (rs : list Road)
    (n : nat) :
  let s := state_of (run cfg rnd n (initial_sim rs)) in
  let s' := state_of (run cfg rnd (S n) (initial_sim rs)) in
  0 <= now s <= now s'
  /\ (now s = 0 \/ now s <= time_window cfg)
  /\ Forall (fun e => now s <= ev_time e) (queue s).
Proof.
  cbn zeta.
  assert (not_in_the_past (state_of (run cfg rnd n (initial_sim rs)))
          /\ 0 <= now (state_of (run cfg rnd n (initial_sim rs)))
          /\ (now (state_of (run cfg rnd n (initial_sim rs))) = 0
              \/ now (state_of (run cfg rnd n (initial_sim rs)))
                 <= time_window cfg)) as (Hpast & Hpos & Hbound).
  { apply (run_guarded_invariant cfg rnd
             (fun s => not_in_the_past s /\ 0 <= now s
                       /\ (now s = 0 \/ now s <= time_window cfg))).
    - intros s (Hp & H0 & _) Hw.
      destruct (step_clock cfg rnd s Hp Hw) as [Hp' Hnow].
      split; [exact Hp' |]. split; [lia | right; lia].
    - split; [| split; [reflexivity | now left]].
      unfold not_in_the_past.
      constructor; [vm_compute; discriminate | constructor]. }
  split; [| split; assumption].
  split; [exact Hpos |].
  rewrite run_S.
  destruct (run cfg rnd n (initial_sim rs)) as [s | s | e s] eqn:Hrun;
    cbn [state_of] in *; try lia.
  unfold loop_once. destruct (within_horizon cfg s) eqn:Hw; [| cbn; lia].
  destruct (step_clock cfg rnd s Hpast Hw) as [_ Hnow].
  destruct (step cfg rnd s) as [[u | e] s']; cbn [snd state_of] in *; lia.
Qed.

(** ** The number of vehicles of a run *)

Lemma arrivals_after_unfold (cfg : Settings) (rnd : Random) (hour : Z) :
  arrivals_after cfg rnd hour
  = if hour <? time_window cfg
    then (arrivals cfg rnd hour + arrivals_after cfg rnd (hour + 1))%nat
    else 0%nat.
Proof.
  unfold arrivals_after.
  destruct (Z.ltb_spec hour (time_window cfg)) as [Hlt | Hge].
  - replace (Z.to_nat (time_window cfg - hour))
      with (S (Z.to_nat (time_window cfg - (hour + 1)))) by lia.
    reflexivity.
  - replace (Z.to_nat (time_window cfg - hour)) with 0%nat by lia.
    reflexivity.
Qed.

Lemma started_vehicles_not_to_come (cfg : Settings) (rnd : Random) (t : Z)
    (q : list event) :
  Forall (fun e => (exists v, ev_kind e = InitVehicle v) /\ ev_time e = t) q ->
  sum_list_with (still_to_come cfg rnd) q = 0%nat
  /\ forall H, Forall (generator_timing H) q.
Proof.
  induction 1 as [| e q [[v Hk] _] _ [IH1 IH2]]; [split; [reflexivity | constructor] |].
  split.
  - cbn [sum_list_with]. rewrite IH1. unfold still_to_come. now rewrite Hk.
  - intros H. constructor; [| apply IH2].
    unfold generator_timing. now rewrite Hk.
Qed.

Lemma generator_next_count (cfg : Settings) (rnd : Random) (hour : Z)
    (s : Sim) :
  (hour < time_window cfg -> now s = hour) ->
  exists added,
    queue (generator_next cfg rnd hour s) = queue s ++ added
    /\ (length (vehicles (generator_next cfg rnd hour s))
        + sum_list_with (still_to_come cfg rnd) added
        <= length (vehicles s) + arrivals_after cfg rnd hour)%nat
    /\ (Forall not_failed added ->
        (length (vehicles (generator_next cfg rnd hour s))
         + sum_list_with (still_to_come cfg rnd) added
         = length (vehicles s) + arrivals_after cfg rnd hour)%nat)
    /\ Forall (generator_timing (time_window cfg)) added.
Proof.
  intros Hnow. rewrite arrivals_after_unfold.
  unfold generator_next, generator_hour, arrivals.
  destruct (Z.ltb_spec hour (time_window cfg)) as [Hlt | Hge];
    [destruct (num_vehicles cfg rnd hour) as [n | e] |].
  - destruct (spawn_effect rnd n s)
      as (Hnow' & _ & _ & _ & added & Hq & Hadded).
    destruct (spawn_vehicles rnd n s) as (new & Hvs & Hlen & _).
    destruct (started_vehicles_not_to_come cfg rnd _ _ Hadded) as [Hsum Htim].
    cbn [schedule queue vehicles].
    assert ((length (vehicles (spawn rnd n s))
             + sum_list_with (still_to_come cfg rnd)
                 (added ++ [mkEvent (now (spawn rnd n s) + 1) NORMAL
                              (next_eid (spawn rnd n s))
                              (ResumeGenerator hour)])
             = length (vehicles s)
               + (n + arrivals_after cfg rnd (hour + 1)))%nat) as Heq.
    { rewrite Hvs, length_app, Hlen, sum_list_with_app, Hsum.
      cbn [sum_list_with]. unfold still_to_come at 1. cbn [ev_kind]. lia. }
    eexists (added ++ [_]). split; [| split; [| split]].
    + rewrite Hq, <- app_assoc. reflexivity.
    + rewrite Heq. lia.
    + intros _. exact Heq.
    + apply Forall_app. split; [apply Htim |].
      constructor; [| constructor]. unfold generator_timing. cbn.
      rewrite Hnow', (Hnow Hlt). lia.
  - cbn [schedule queue vehicles]. eexists [_]. split; [reflexivity |].
    split; [cbn; lia |]. split.
    + intros Hnf. apply Forall_cons in Hnf as [Hnf _]. contradiction.
    + constructor; [exact I | constructor].
  - cbn [schedule queue vehicles]. eexists [_]. split; [reflexivity |].
    split; [cbn; lia |]. split; [intros _; cbn; lia |].
    constructor; [exact I | constructor].
Qed.

(** One step of the loop never adds to the vehicles created and still to
    come, and keeps their number as long as no process fails. *)
Lemma step_count (cfg : Settings) (rnd : Random) (s : Sim) :
  Forall (generator_timing (time_window cfg)) (queue s) ->
  within_horizon cfg s = true ->
  let s' := snd (step cfg rnd s) in
  (length (vehicles s') + sum_list_with (still_to_come cfg rnd) (queue s')
   <= length (vehicles s) + sum_list_with (still_to_come cfg rnd) (queue s))%nat
  /\ Forall (generator_timing (time_window cfg)) (queue s')
  /\ (is_Ok (fst (step cfg rnd s)) -> Forall not_failed (queue s') ->
      Forall not_failed (queue s)
      /\ (length (vehicles s')
          + sum_list_with (still_to_come cfg rnd) (queue s')
          = length (vehicles s)
            + sum_list_with (still_to_come cfg rnd) (queue s))%nat).
Proof.
  intros Htim Hw. cbn zeta.
  destruct (within_horizon_pop cfg s Hw) as (ev & rest & Hpop & Hdue).
  pose proof (pop_perm _ _ _ Hpop) as Hperm.
  unfold step. rewrite Hpop. rewrite Hperm in Htim.
  assert (sum_list_with (still_to_come cfg rnd) (queue s)
          = sum_list_with (still_to_come cfg rnd) (ev :: rest)) as ->
    by now rewrite Hperm.
  assert (Forall not_failed (ev :: rest) -> Forall not_failed (queue s))
    as Hback by (intros Hnf; now rewrite Hperm).
  apply Forall_cons in Htim as [Hev Hrest].
  cbn [sum_list_with]. unfold generator_timing in Hev.
  assert (forall k p d (s1 : Sim),
            queue s1 = rest -> vehicles s1 = vehicles s ->
            match k with InitGenerator | ResumeGenerator _ => False
                       | _ => True end ->
            (length (vehicles (schedule k p d s1))
             + sum_list_with (still_to_come cfg rnd) (queue (schedule k p d s1))
             = length (vehicles s)
               + (0 + sum_list_with (still_to_come cfg rnd) rest))%nat
            /\ Forall (generator_timing (time_window cfg))
                 (queue (schedule k p d s1))
            /\ (Forall not_failed (queue (schedule k p d s1)) ->
                Forall not_failed rest)) as Hsched.
  { intros k p d s1 Hq Hvs Hk. cbn [schedule queue vehicles].
    rewrite Hq, Hvs, sum_list_with_app. cbn [sum_list_with].
    unfold still_to_come at 2. unfold generator_timing at 1. cbn [ev_kind].
    split; [| split].
    - destruct k; try contradiction; lia.
    - apply Forall_app. split; [exact Hrest |].
      constructor; [| constructor]. unfold generator_timing. cbn [ev_kind].
      destruct k; try contradiction; exact I.
    - intros Hnf. now apply Forall_app in Hnf as [Hnf _]. }
  assert (still_to_come cfg rnd ev
          = match ev_kind ev with
            | InitGenerator => arrivals_after cfg rnd 0
            | ResumeGenerator hour => arrivals_after cfg rnd (hour + 1)
            | _ => 0%nat
            end) as -> by reflexivity.
  assert (not_failed ev
          = match ev_kind ev with ProcessFailed _ => False | _ => True end)
    as Hnfev by reflexivity.
  assert (forall hour,
            (hour < time_window cfg -> ev_time ev = hour) ->
            let s1 := generator_next cfg rnd hour (advance ev rest s) in
            (length (vehicles s1)
             + sum_list_with (still_to_come cfg rnd) (queue s1)
             <= length (vehicles s)
                + (arrivals_after cfg rnd hour
                   + sum_list_with (still_to_come cfg rnd) rest))%nat
            /\ Forall (generator_timing (time_window cfg)) (queue s1)
            /\ (Forall not_failed (queue s1) ->
                Forall not_failed rest
                /\ (length (vehicles s1)
                    + sum_list_with (still_to_come cfg rnd) (queue s1)
                    = length (vehicles s)
                      + (arrivals_after cfg rnd hour
                         + sum_list_with (still_to_come cfg rnd) rest))%nat))
    as Hgen.
  { intros hour Hhour. cbn zeta.
    destruct (generator_next_count cfg rnd hour (advance ev rest s) Hhour)
      as (added & Hq & Hle & Heq & Hadded).
    cbn [advance queue vehicles] in Hq, Hle, Heq.
    rewrite Hq, sum_list_with_app. split; [lia |].
    split; [apply Forall_app; now split |].
    intros Hnf. apply Forall_app in Hnf as [Hnf1 Hnf2].
    split; [exact Hnf1 |]. specialize (Heq Hnf2). lia. }
  destruct (ev_kind ev) as [| hour | v | v i | | e]; cbn [dispatch snd fst].
  - destruct (Hgen 0 ltac:(lia)) as (Hle & Ht & Heq).
    split; [exact Hle |]. split; [exact Ht |].
    intros _ Hnf. destruct (Heq Hnf) as [Hnf' Heq'].
    split; [| exact Heq']. apply Hback.
    constructor; [now rewrite Hnfev | exact Hnf'].
  - destruct (Hgen (hour + 1) ltac:(lia)) as (Hle & Ht & Heq).
    split; [exact Hle |]. split; [exact Ht |].
    intros _ Hnf. destruct (Heq Hnf) as [Hnf' Heq'].
    split; [| exact Heq']. apply Hback.
    constructor; [now rewrite Hnfev | exact Hnf'].
  - destruct (vehicle_process_start _ _ _) as [[i | e] st]; cbn [snd fst];
      match goal with
      | |- context [schedule ?k ?p ?d ?s1] =>
          destruct (Hsched k p d s1 eq_refl eq_refl I) as (Heq & Ht & Hnf')
      end;
      (split; [rewrite Heq; lia |]); (split; [exact Ht |]);
      intros _ Hnf; (split; [| exact Heq]); apply Hback;
      (constructor; [now rewrite Hnfev | now apply Hnf']).
  - destruct (vehicle_process_resume _ _ _) as [[u | e] st]; cbn [snd fst];
      match goal with
      | |- context [schedule ?k ?p ?d ?s1] =>
          destruct (Hsched k p d s1 eq_refl eq_refl I) as (Heq & Ht & Hnf')
      end;
      (split; [rewrite Heq; lia |]); (split; [exact Ht |]);
      intros _ Hnf; (split; [| exact Heq]); apply Hback;
      (constructor; [now rewrite Hnfev | now apply Hnf']).
  - cbn [advance queue vehicles]. split; [lia |]. split; [exact Hrest |].
    intros _ Hnf. split; [| lia]. apply Hback.
    constructor; [now rewrite Hnfev | exact Hnf].
  - cbn [advance queue vehicles]. split; [lia |]. split; [exact Hrest |].
    intros Hok. contradiction.
Qed.

Lemma timing_generator (H : Z) (e : event) :
  timing H e -> generator_timing H e.
Proof. unfold timing, generator_timing. now destruct (ev_kind e). Qed.

Lemma nothing_to_come_beyond_horizon (cfg : Settings) (rnd : Random)
    (s : Sim) :
  Forall (generator_timing (time_window cfg)) (queue s) ->
  within_horizon cfg s = false ->
  sum_list_with (still_to_come cfg rnd) (queue s) = 0%nat.
Proof.
  intros Htim Hw. unfold within_horizon, peek in Hw.
  destruct (pop (queue s)) as [[m rest] |] eqn:Hpop.
  - pose proof (pop_least _ _ _ Hpop) as Hleast.
    apply Z.leb_gt in Hw.
    assert (Forall (fun e => still_to_come cfg rnd e = 0%nat) (queue s)) as Hz.
    { apply Forall_forall. intros e He.
      rewrite Forall_forall in Htim, Hleast.
      specialize (Htim e He). specialize (Hleast e He).
      unfold generator_timing in Htim. unfold still_to_come.
      destruct (ev_kind e); try reflexivity; [| lia].
      rewrite arrivals_after_unfold.
      destruct (Z.ltb_spec 0 (time_window cfg)); [lia | reflexivity]. }
    clear -Hz. induction Hz as [| e q He _ IH]; [reflexivity |].
    cbn [sum_list_with]. now rewrite He, IH.
  - apply pop_None in Hpop. now rewrite Hpop.
Qed.

(** X15.  With a rate that is not negative, the vehicles of a run are
    those of the Poisson draws of the hours 0, ..., H - 1: at every point
    the number of vehicles created so far is at most their sum, and it is
    that sum once the loop has been left by its horizon test. *)
Theorem run_creates_the_drawn_vehicles (cfg : Settings) (rnd : Random)
    (rs : list Road) (n : nat) :
  0 <= vehicle_rate cfg ->
  let o := run cfg rnd n (initial_sim rs) in
  (length (vehicles (state_of o)) <= total_arrivals cfg rnd)%nat
  /\ (forall s, o = Finished s ->
        length (vehicles s) = total_arrivals cfg rnd).
Proof.
  intros _ o.
  set (H := time_window cfg).
  set (count := fun s : Sim =>
         (length (vehicles s)
          + sum_list_with (still_to_come cfg rnd) (queue s))%nat).
  set (P := fun s : Sim =>
         (count s <= total_arrivals cfg rnd)%nat
         /\ Forall (timing H) (queue s)).
  set (Q := fun s : Sim =>
         Forall not_failed (queue s) -> count s = total_arrivals cfg rnd).
  assert (count (initial_sim rs) = (0 + (total_arrivals cfg rnd + 0))%nat)
    as Hc0 by reflexivity.
  assert (P (initial_sim rs)) as HP0.
  { split; [rewrite Hc0; lia |]. constructor; [reflexivity | constructor]. }
  assert (Q (initial_sim rs)) as HQ0 by (intros _; rewrite Hc0; lia).
  assert (forall s, P s -> within_horizon cfg s = true ->
                    P (snd (step cfg rnd s))) as HPstep.
  { intros s [Hc Ht] Hw.
    destruct (step_count cfg rnd s) as (Hle & _ & _);
      [eapply Forall_impl; [exact Ht | apply timing_generator] | exact Hw |].
    split; [unfold count in *; lia | now apply step_timing]. }
  assert (forall s u s', P s -> Q s -> within_horizon cfg s = true ->
                         step cfg rnd s = (Ok u, s') -> Q s') as HQstep.
  { intros s u s' [Hc Ht] Hq Hw Hstep Hnf.
    destruct (step_count cfg rnd s) as (_ & _ & Heq);
      [eapply Forall_impl; [exact Ht | apply timing_generator] | exact Hw |].
    rewrite Hstep in Heq. cbn [fst snd] in Heq.
    destruct (Heq I Hnf) as [Hnf' Heq'].
    unfold count in *. rewrite Heq'. now apply Hq. }
  pose proof (run_guarded_invariant cfg rnd P HPstep n _ HP0) as [Hle Htim].
  pose proof (run_ok_invariant cfg rnd P Q HPstep HQstep n _ HP0 HQ0) as Hfin.
  fold o in Hle, Htim, Hfin.
  split; [unfold count in Hle; lia |].
  intros s Ho. rewrite Ho in Hle, Htim, Hfin. cbn [state_of] in *.
  pose proof (run_Finished cfg rnd n _ _ Ho) as Hw.
  pose proof (beyond_horizon cfg s Htim Hw) as Hgen.
  assert (count s = total_arrivals cfg rnd) as Hcount.
  { apply Hfin. eapply Forall_impl; [exact Hgen |].
    intros e He. unfold not_failed. now rewrite He. }
  unfold count in Hcount.
  rewrite (nothing_to_come_beyond_horizon cfg rnd s) in Hcount;
    [lia | | exact Hw].
  eapply Forall_impl; [exact Htim | apply timing_generator].
Qed.

Lemma run_creates_the_drawn_vehicles_witness :
  let cfg := mkSettings 2 "1" (6 # 1, 8 # 1)%Q 20 in
  let rnd := mkRandom (fun h => if h =? 0 then 2%nat else 1%nat)
                      (fun _ => 0%nat) (fun _ => 0%nat) in
  exists s,
    run cfg rnd 20 (initial_sim [Road_init "Mandela" 10]) = Finished s
    /\ length (vehicles s) = 3%nat.
Proof.
  intros cfg rnd.
  pose proof (run_creates_the_drawn_vehicles cfg rnd
                [Road_init "Mandela" 10] 20 ltac:(vm_compute; discriminate))
    as [_ Hfin].
  eexists. split; [vm_compute; reflexivity |].
  apply Hfin. vm_compute. reflexivity.
Defined.

(** ** The display *)

Lemma TrafficLight_update_phase (l : TrafficLight) :
  light_ok l ->
  light_ok (TrafficLight_update l)
  /\ position (TrafficLight_update l) = position l
  /\ phase (TrafficLight_update l)
     = if phase l + 1 =? 133 then 0 else phase l + 1.
Proof.
  unfold light_ok, phase, TrafficLight_update.
  destruct l as [p [| |] t]; cbn [state timer position]; intros [H0 Hb].
  - destruct (Z.ltb_spec 60 (t + 1)); cbn [state timer position];
      destruct (Z.eqb_spec (t + 1) 133); repeat split; lia.
  - destruct (Z.ltb_spec 10 (t + 1)); cbn [state timer position];
      destruct (Z.eqb_spec (61 + t + 1) 133); repeat split; lia.
  - destruct (Z.ltb_spec 60 (t + 1)); cbn [state timer position];
      destruct (Z.eqb_spec (72 + t + 1) 133); repeat split; lia.
Qed.

Lemma TrafficLight_iter_phase (p : Z * Z) (n : nat) :
  let l := Nat.iter n TrafficLight_update (TrafficLight_init p) in
  light_ok l /\ position l = p /\ phase l = Z.of_nat n mod 133.
Proof.
  cbn zeta. induction n as [| n (Hok & Hpos & Hph)].
  - repeat split; cbn; lia.
  - rewrite Nat.iter_succ.
    destruct (TrafficLight_update_phase _ Hok) as (Hok' & Hpos' & Hph').
    split; [exact Hok' |]. split; [congruence |].
    rewrite Hph', Hph.
    destruct (Z.eqb_spec (Z.of_nat n mod 133 + 1) 133);
      Z.div_mod_to_equations; lia.
Qed.

(** X16.  The traffic light runs through a cycle of 133 updates: from its
    creation it is green for the first 61 of them (counting the state
    before the first update), yellow for 11, red for 61, and then green
    again, and its timer is the number of updates spent in the state. *)
Theorem TrafficLight_cycle (p : Z * Z) (n : nat) :
  let l := Nat.iter n TrafficLight_update (TrafficLight_init p) in
  let k := Z.of_nat n mod 133 in
  position l = p
  /\ (k < 61 -> state l = Green /\ timer l = k)
  /\ (61 <= k < 72 -> state l = Yellow /\ timer l = k - 61)
  /\ (72 <= k -> state l = Red /\ timer l = k - 72)
  /\ Nat.iter (n + 133) TrafficLight_update (TrafficLight_init p) = l.
Proof.
  cbn zeta.
  destruct (TrafficLight_iter_phase p n) as (Hok & Hpos & Hph).
  destruct (TrafficLight_iter_phase p (n + 133)) as (Hok' & Hpos' & Hph').
  assert (Z.of_nat (n + 133) mod 133 = Z.of_nat n mod 133) as Hmod
    by (Z.div_mod_to_equations; lia).
  rewrite Hmod, <- Hph in Hph'. clear Hmod.
  assert (0 <= Z.of_nat n mod 133 < 133) as Hk
    by (apply Z.mod_pos_bound; lia).
  unfold light_ok, phase in *.
  destruct (Nat.iter n TrafficLight_update (TrafficLight_init p))
    as [q [| |] t];
    destruct (Nat.iter (n + 133) TrafficLight_update (TrafficLight_init p))
      as [q' [| |] t']; cbn in *;
    (split; [assumption |]);
    repeat split; try lia; try (f_equal; congruence || lia).
Qed.

Lemma TrafficLight_cycle_witness :
  state (Nat.iter 70 TrafficLight_update (TrafficLight_init (400, 350)))
  = Yellow.
Proof.
  destruct (TrafficLight_cycle (400, 350) 70) as (_ & _ & Hyellow & _).
  apply Hyellow. vm_compute. split; [discriminate | reflexivity].
Defined.

Lemma Qtrunc_bounds (q : Q) (k : Z) :
  0 <= k -> (q <= inject_Z k)%Q -> Qtrunc q <= k.
Proof.
  intros Hk Hq. unfold Qtrunc. unfold Qle in Hq. cbn in Hq.
  rewrite Z.mul_1_r in Hq.
  destruct (Z.le_gt_cases 0 (Qnum q)) as [Hpos | Hneg].
  - rewrite Z.quot_div_nonneg by lia.
    apply Z.div_le_upper_bound; lia.
  - assert (Qnum q ÷ Z.pos (Qden q) <= 0); [| lia].
    rewrite <- (Z.opp_involutive (Qnum q)), Z.quot_opp_l by lia.
    assert (0 <= (- Qnum q) ÷ Z.pos (Qden q)) by (apply Z.quot_pos; lia).
    lia.
Qed.

(** X17.  [Vehicle.move] keeps a vehicle on the screen and moving: the
    new speed is at least 1 whatever the congestion level, and at most 5
    when the level is not negative; the position advances by the speed
    and wraps to 0 when it would pass the right edge. *)
Theorem Vehicle_move_stays_on_screen (c : Q) (v : Sprite) :
  let v' := Vehicle_move c v in
  1 <= sprite_speed v'
  /\ sprite_x v' <= SCREEN_WIDTH
  /\ (sprite_x v' = 0 \/ sprite_x v' = sprite_x v + sprite_speed v')
  /\ (0 <= sprite_x v -> 0 <= sprite_x v')
  /\ ((0 <= c)%Q -> sprite_speed v' <= 5).
Proof.
  cbn zeta. unfold Vehicle_move. cbn [sprite_x sprite_speed].
  set (k := Qtrunc (5 * (1 - c))).
  assert ((0 <= c)%Q -> k <= 5) as Hk.
  { intros Hc. apply Qtrunc_bounds; [lia |].
    apply Qle_trans with (5 * (1 + - 0))%Q; [| vm_compute; discriminate].
    apply Qmult_le_l; [reflexivity |].
    apply Qplus_le_r. now apply Qopp_le_compat. }
  split; [lia |].
  destruct (Z.ltb_spec SCREEN_WIDTH (sprite_x v + Z.max 1 k)) as [Hwrap | Hin];
    unfold SCREEN_WIDTH in *.
  - split; [lia |]. split; [now left |]. split; [lia |].
    intros Hc. specialize (Hk Hc). lia.
  - split; [lia |]. split; [now right |]. split; [lia |].
    intros Hc. specialize (Hk Hc). lia.
Qed.

Lemma Vehicle_move_stays_on_screen_witness :
  sprite_speed (Vehicle_move (1 # 2) (mkSprite 799 5)) <= 5
  /\ 0 <= sprite_x (Vehicle_move (1 # 2) (mkSprite 799 5)).
Proof.
  destruct (Vehicle_move_stays_on_screen (1 # 2) (mkSprite 799 5))
    as (_ & _ & _ & Hx & Hs).
  split; [apply Hs; vm_compute; discriminate
         | apply Hx; vm_compute; discriminate].
Defined.

Lemma congestion_level_Raise_inv (st : list Road) (e : exn) :
  congestion_level st = Raise e ->
  e = ZeroDivisionError /\ (st = [] \/ Exists (fun r => capacity r = 0) st).
Proof.
  unfold congestion_level. destruct (ratios st) as [ks | e0] eqn:Hks.
  - destruct st as [| r st]; cbn [length Nat.eqb]; [| discriminate].
    intros [= <-]. auto.
  - intros [= <-]. destruct (ratios_Raise_inv st e0 Hks) as [Hex ->]. auto.
Qed.

Lemma congestion_level_Raise (st : list Road) :
  st = [] \/ Exists (fun r => capacity r = 0) st ->
  congestion_level st = Raise ZeroDivisionError.
Proof.
  unfold congestion_level. intros [-> | Hex]; [reflexivity |].
  now rewrite (ratios_zero st Hex).
Qed.

Lemma congestion_level_Ok (st : list Road) :
  st <> [] -> Forall nonzero_capacity st ->
  exists c, congestion_level st = Ok c /\ (c <= 1)%Q.
Proof.
  unfold congestion_level. intros Hne Hall.
  destruct (ratios_ok st Hall) as [ks ->].
  destruct st as [| r st]; [congruence |]. cbn [length Nat.eqb].
  eexists. split; [reflexivity |].
  destruct (Qltb _ 1) eqn:Hlt; [| apply Qle_refl].
  apply Qltb_lt in Hlt. now apply Qlt_le_weak.
Qed.

(** X18.  The congestion level of the display raises ZeroDivisionError
    exactly when there is no road or some road has capacity zero, and is
    otherwise at most 1. *)
Theorem congestion_level_defined_iff (st : list Road) :
  (forall e, congestion_level st = Raise e ->
     e = ZeroDivisionError
     /\ (st = [] \/ Exists (fun r => capacity r = 0) st))
  /\ (st = [] \/ Exists (fun r => capacity r = 0) st ->
      congestion_level st = Raise ZeroDivisionError)
  /\ (st <> [] -> Forall nonzero_capacity st ->
      exists c, congestion_level st = Ok c /\ (c <= 1)%Q).
Proof.
  split; [apply congestion_level_Raise_inv |].
  split; [apply congestion_level_Raise | apply congestion_level_Ok].
Qed.

Lemma congestion_level_defined_iff_witness :
  congestion_level [Road_init "Mandela" 1000; Road_init "Portmore" 0]
  = Raise ZeroDivisionError.
Proof.
  apply (congestion_level_defined_iff
           [Road_init "Mandela" 1000; Road_init "Portmore" 0]).
  right. right. left. reflexivity.
Defined.

Lemma capacities_of_frame (st st' : list Road) :
  frame <$> st' = frame <$> st -> capacity <$> st' = capacity <$> st.
Proof.
  intros Hfr.
  assert (forall l : list Road,
            capacity <$> l
            = (fun f : string * Z * list Q => snd (fst f)) <$> (frame <$> l))
    as Hcap.
  { intros l. rewrite <- list_fmap_compose. reflexivity. }
  now rewrite !Hcap, Hfr.
Qed.

Lemma capacities_alter (f : Road -> Road) (i : nat) (st : list Road) :
  (forall r, capacity (f r) = capacity r) ->
  capacity <$> alter f i st = capacity <$> st.
Proof.
  intros Hf. rewrite (list_fmap_alter capacity f id).
  - apply list_alter_id. reflexivity.
  - apply Forall_forall. intros r _. apply Hf.
Qed.

Lemma step_capacities (cfg : Settings) (rnd : Random) (s : Sim) :
  capacity <$> roads (snd (step cfg rnd s)) = capacity <$> roads s.
Proof.
  unfold step. destruct (pop (queue s)) as [[ev rest] |]; [| reflexivity].
  destruct (ev_kind ev) as [| hour | v | v i | | e]; cbn [dispatch snd].
  - destruct (generator_next_effect cfg rnd 0 (advance ev rest s)) as [-> _].
    reflexivity.
  - destruct (generator_next_effect cfg rnd (hour + 1) (advance ev rest s))
      as [-> _]. reflexivity.
  - cbn [advance roads].
    pose proof (preserves_frame_start (method cfg) v (roads s)) as Hfr.
    destruct (vehicle_process_start _ _ _) as [[i | e] st]; cbn [snd] in *;
      sim_fields; now apply capacities_of_frame.
  - cbn [advance roads].
    pose proof (vehicle_process_resume_unfold v i (roads s)) as Hres.
    cbn zeta in Hres.
    destruct (ratio_at i _) as [x | e]; rewrite Hres; cbn [snd]; sim_fields;
      rewrite ?capacities_alter; reflexivity.
  - reflexivity.
  - reflexivity.
Qed.

Lemma capacities_sound (st st' : list Road) :
  capacity <$> st' = capacity <$> st ->
  st <> [] -> Forall nonzero_capacity st ->
  st' <> [] /\ Forall nonzero_capacity st'.
Proof.
  intros Hcap Hne Hall. split.
  - intros ->. destruct st; [congruence | discriminate].
  - apply Forall_forall. intros r' Hr'.
    apply list_elem_of_lookup in Hr' as [i Hi].
    assert (capacity <$> st' !! i = Some (capacity r')) as H by now rewrite Hi.
    rewrite <- list_lookup_fmap, Hcap, list_lookup_fmap in H.
    destruct (st !! i) as [r |] eqn:Hr; [| discriminate].
    injection H as H. unfold nonzero_capacity. rewrite <- H.
    rewrite Forall_forall in Hall. apply Hall.
    apply list_elem_of_lookup. eauto.
Qed.

Lemma frames_follow_run (cfg : Settings) (rnd : Random) (x_draw : Z -> nat)
    (n : nat) :
  forall d, roads (simulator d) <> [] ->
            Forall nonzero_capacity (roads (simulator d)) ->
  match frames cfg rnd x_draw n d, run cfg rnd n (simulator d) with
  | Showing d', Running s' => simulator d' = s'
  | Closed d', Finished s' => simulator d' = s'
  | Crashed e d', Aborted e' s' => e = e' /\ simulator d' = s'
  | _, _ => False
  end.
Proof.
  induction n as [| n IH]; intros d Hne Hall; [reflexivity |].
  cbn [frames run]. unfold frame_once, loop_once.
  destruct (within_horizon cfg (simulator d)); [| reflexivity].
  pose proof (step_capacities cfg rnd (simulator d)) as Hcap.
  destruct (step cfg rnd (simulator d)) as [[u | e] s']; cbn [snd] in Hcap;
    [| split; reflexivity].
  destruct (capacities_sound _ _ Hcap Hne Hall) as [Hne' Hall'].
  destruct (congestion_level_Ok (roads s') Hne' Hall') as (c & -> & _).
  apply IH; assumption.
Qed.

(** X19.  With at least one road and no capacity of zero, the display
    adds no failure of its own: after any number of iterations the loop of
    [run_simulation_with_visualization] is where the event loop alone
    would be, with the same simulator state, running, left by the horizon
    test, or left by the same exception. *)
Theorem display_follows_event_loop (cfg : Settings) (rnd : Random)
    (x_draw : Z -> nat) (n : nat) (rs : list Road) :
  rs <> [] -> Forall nonzero_capacity rs ->
  match run_simulation_with_visualization cfg rnd x_draw n rs,
        run cfg rnd n (initial_sim rs) with
  | Showing d, Running s => simulator d = s
  | Closed d, Finished s => simulator d = s
  | Crashed e d, Aborted e' s => e = e' /\ simulator d = s
  | _, _ => False
  end.
Proof.
  intros Hne Hall.
  apply (frames_follow_run cfg rnd x_draw n
           (mkDisplay (initial_sim rs)
                      (TrafficLight_init (SCREEN_WIDTH / 2, 350)) []));
    assumption.
Qed.

Lemma display_follows_event_loop_witness :
  let cfg := mkSettings 1 "2" (6 # 1, 8 # 1)%Q 20 in
  let rnd := mkRandom (fun _ => 1%nat) (fun _ => 1%nat) (fun _ => 0%nat) in
  match run_simulation_with_visualization cfg rnd (fun _ => 0%nat) 3
          [Road_init "Mandela" 1],
        run cfg rnd 3 (initial_sim [Road_init "Mandela" 1]) with
  | Crashed e d, Aborted e' s => e = e' /\ simulator d = s
  | _, _ => False
  end.
Proof.
  intros cfg rnd.
  pose proof (display_follows_event_loop cfg rnd (fun _ => 0%nat) 3
                [Road_init "Mandela" 1] ltac:(discriminate)
                ltac:(repeat constructor; discriminate)) as H.
  vm_compute in H |- *. exact H.
Defined.

(** The first iteration of the loop on roads without a defined
    congestion level. *)
Lemma first_frame_raises (cfg : Settings) (rnd : Random)
    (x_draw : Z -> nat) (n : nat) (rs : list Road) :
  rs = [] \/ Exists (fun r => capacity r = 0) rs ->
  0 <= time_window cfg ->
  exists d,
    run_simulation_with_visualization cfg rnd x_draw (S n) rs
    = Crashed ZeroDivisionError d
    /\ roads (simulator d) = rs
    /\ assigned_log (simulator d) = []
    /\ now (simulator d) = 0.
Proof.
  intros Hbad Hh.
  unfold run_simulation_with_visualization. cbn [frames].
  unfold frame_once, within_horizon, peek. cbn [simulator].
  change (queue (initial_sim rs)) with [mkEvent (0 + 0) URGENT 0 InitGenerator].
  cbn [pop ev_time]. change (0 + 0) with 0.
  destruct (Z.leb_spec 0 (time_window cfg)); [| lia].
  unfold step.
  change (queue (initial_sim rs)) with [mkEvent 0 URGENT 0 InitGenerator].
  cbn [pop ev_kind dispatch].
  destruct (generator_next_effect cfg rnd 0
              (advance (mkEvent 0 URGENT 0 InitGenerator) [] (initial_sim rs)))
    as (Hroads & Hasg & _).
  assert (now (generator_next cfg rnd 0
                 (advance (mkEvent 0 URGENT 0 InitGenerator) []
                    (initial_sim rs))) = 0) as Hnow.
  { unfold generator_next, generator_hour.
    destruct (0 <? time_window cfg);
      [destruct (num_vehicles cfg rnd 0) as [k | e] |]; cbn [schedule now];
      [| reflexivity | reflexivity].
    now destruct (spawn_effect rnd k
                    (advance (mkEvent 0 URGENT 0 InitGenerator) []
                       (initial_sim rs))) as (-> & _). }
  cbn [advance roads assigned_log] in Hroads, Hasg.
  pose proof (congestion_level_Raise rs Hbad) as Hc.
  rewrite Hroads. change (roads (initial_sim rs)) with rs. rewrite Hc.
  eexists. split; [reflexivity |]. cbn [simulator].
  rewrite Hroads, Hasg. repeat split. exact Hnow.
Qed.

(** X20.  Without a road, or with a road of capacity zero, and a horizon
    that is not negative, [run_simulation_with_visualization] stops in
    its first iteration: the step starts the generator, and the
    congestion level raises ZeroDivisionError before any vehicle process
    has run. *)
Theorem display_crashes_on_zero_capacity (cfg : Settings) (rnd : Random)
    (x_draw : Z -> nat) (n : nat) (rs : list Road) :
  rs = [] \/ Exists (fun r => capacity r = 0) rs ->
  0 <= time_window cfg ->
  exists d,
    run_simulation_with_visualization cfg rnd x_draw (S n) rs
    = Crashed ZeroDivisionError d
    /\ roads (simulator d) = rs
    /\ assigned_log (simulator d) = []
    /\ now (simulator d) = 0.
Proof. apply first_frame_raises. Qed.

Lemma display_crashes_on_zero_capacity_witness :
  exists d,
    run_simulation_with_visualization
      (mkSettings 24 "1" (6 # 1, 8 # 1)%Q 20)
      (mkRandom (fun _ => 2%nat) (fun _ => 0%nat) (fun _ => 0%nat))
      (fun _ => 0%nat) 5 [Road_init "Mandela" 0; Road_init "Portmore" 800]
    = Crashed ZeroDivisionError d
    /\ assigned_log (simulator d) = [].
Proof.
  destruct (display_crashes_on_zero_capacity
              (mkSettings 24 "1" (6 # 1, 8 # 1)%Q 20)
              (mkRandom (fun _ => 2%nat) (fun _ => 0%nat) (fun _ => 0%nat))
              (fun _ => 0%nat) 4
              [Road_init "Mandela" 0; Road_init "Portmore" 800])
    as (d & Hd & _ & Hlog & _).
  - right. left. reflexivity.
  - vm_compute. discriminate.
  - exists d. split; [exact Hd | exact Hlog].
Defined.

(** *** What start_simulation lets through *)

(** With a negative horizon the loop is never entered. *)
Lemma negative_horizon_closes (cfg : Settings) (rnd : Random)
    (x_draw : Z -> nat) (n : nat) (rs : list Road) :
  time_window cfg < 0 ->
  run_simulation_with_visualization cfg rnd x_draw (S n) rs
  = Closed (mkDisplay (initial_sim rs)
                      (TrafficLight_init (SCREEN_WIDTH / 2, 350)) []).
Proof.
  intros Hh. unfold run_simulation_with_visualization. cbn [frames].
  unfold frame_once, within_horizon, peek. cbn [simulator].
  change (queue (initial_sim rs)) with [mkEvent (0 + 0) URGENT 0 InitGenerator].
  cbn [pop ev_time]. change (0 + 0) with 0.
  destruct (Z.leb_spec 0 (time_window cfg)); [lia | reflexivity].
Qed.

(** The simulator of the display is always where some number of
    iterations of the event loop alone would have left it. *)
Lemma frames_are_steps (cfg : Settings) (rnd : Random) (x_draw : Z -> nat)
    (n : nat) :
  forall d, exists k,
    simulator (display_of (frames cfg rnd x_draw n d))
    = state_of (run cfg rnd k (simulator d)).
Proof.
  induction n as [| n IH]; intros d; [now exists 0%nat |].
  cbn [frames]. unfold frame_once.
  destruct (within_horizon cfg (simulator d)) eqn:Hw; [| now exists 0%nat].
  destruct (step cfg rnd (simulator d)) as [[u | e] s'] eqn:Hstep.
  - destruct (congestion_level (roads s')) as [c | e].
    + match goal with
      | |- context [frames cfg rnd x_draw n ?d'] =>
          destruct (IH d') as [k Hk]
      end.
      exists (S k). rewrite Hk. cbn [simulator run]. unfold loop_once.
      now rewrite Hw, Hstep.
    + exists 1%nat. cbn [run display_of simulator]. unfold loop_once.
      now rewrite Hw, Hstep.
  - exists 1%nat. cbn [run display_of simulator]. unfold loop_once.
    now rewrite Hw, Hstep.
Qed.

Lemma visualize_started (m : string) (tw : Z) (peak : Q * Q)
    (rate c0 c1 : Z) (more : list Z) (rnd : Random) (x_draw : Z -> nat)
    (n : nat) :
  visualize rnd x_draw n (start_simulation m tw peak rate (c0 :: c1 :: more))
  = Ok (run_simulation_with_visualization (mkSettings tw m peak rate) rnd
          x_draw n [Road_init "Mandela" c0; Road_init "Portmore" c1]).
Proof. reflexivity. Qed.

(** C4, as the code has it.  [start_simulation] checks nothing: for any
    method, horizon, peak window, rate and capacities it builds the two
    roads and enters the loop.  A capacity of zero is found only there:
    with a horizon that is not negative, the first iteration of the loop
    raises ZeroDivisionError when it computes the congestion level, the
    generator started and no vehicle process assigned a road yet; with a
    negative horizon the loop is never entered.  A non-positive horizon
    gives a run without any vehicle; a peak window with [start > end]
    makes every hour off-peak. *)
Theorem start_simulation_checks_nothing (m : string) (tw : Z) (peak : Q * Q)
    (rate c0 c1 : Z) (more : list Z) :
  let cfg := mkSettings tw m peak rate in
  let rs := [Road_init "Mandela" c0; Road_init "Portmore" c1] in
  let started := start_simulation m tw peak rate (c0 :: c1 :: more) in
  started = Ok (cfg, initial_sim rs)
  /\ (c0 = 0 \/ c1 = 0 -> 0 <= tw ->
      forall rnd x_draw n, exists d,
        visualize rnd x_draw (S n) started = Ok (Crashed ZeroDivisionError d)
        /\ roads (simulator d) = rs
        /\ assigned_log (simulator d) = []
        /\ now (simulator d) = 0)
  /\ (tw < 0 ->
      forall rnd x_draw n, exists d,
        visualize rnd x_draw (S n) started = Ok (Closed d)
        /\ simulator d = initial_sim rs)
  /\ (tw <= 0 ->
      forall rnd x_draw n,
        match visualize rnd x_draw n started with
        | Ok o => vehicles (simulator (display_of o)) = []
        | Raise _ => False
        end)
  /\ ((snd peak < fst peak)%Q -> forall hour, is_peak cfg hour = false).
Proof.
  cbn zeta. split; [reflexivity |].
  split; [| split; [| split]].
  - intros Hz Hh rnd x_draw n. rewrite visualize_started.
    destruct (first_frame_raises (mkSettings tw m peak rate) rnd x_draw n
                [Road_init "Mandela" c0; Road_init "Portmore" c1])
      as (d & Hd & Hr & Ha & Hn).
    + right. destruct Hz as [-> | ->]; [left | right; left]; reflexivity.
    + exact Hh.
    + exists d. now rewrite Hd.
  - intros Hh rnd x_draw n. rewrite visualize_started.
    rewrite negative_horizon_closes by exact Hh.
    eexists. split; reflexivity.
  - intros Hh rnd x_draw n. rewrite visualize_started.
    destruct (frames_are_steps (mkSettings tw m peak rate) rnd x_draw n
                (mkDisplay
                   (initial_sim [Road_init "Mandela" c0;
                                 Road_init "Portmore" c1])
                   (TrafficLight_init (SCREEN_WIDTH / 2, 350)) []))
      as [k Hk].
    unfold run_simulation_with_visualization. rewrite Hk. cbn [simulator].
    now apply run_nonpositive_horizon.
  - intros Hrev hour. now apply no_peak_in_reversed_window.
Qed.

Lemma start_simulation_checks_nothing_witness :
  (exists d,
     visualize (mkRandom (fun _ => 1%nat) (fun _ => 0%nat) (fun _ => 0%nat))
       (fun _ => 0%nat) 3
       (start_simulation "2" 24 (10 # 1, 8 # 1)%Q 20 [0; 800])
     = Ok (Crashed ZeroDivisionError d)
     /\ assigned_log (simulator d) = [])
  /\ is_peak (mkSettings 24 "2" (10 # 1, 8 # 1)%Q 20) 9 = false.
Proof.
  destruct (start_simulation_checks_nothing "2" 24 (10 # 1, 8 # 1)%Q 20
              0 800 []) as (_ & Hzero & _ & _ & Hpeak).
  split.
  - destruct (Hzero ltac:(left; reflexivity) ltac:(discriminate)
                (mkRandom (fun _ => 1%nat) (fun _ => 0%nat) (fun _ => 0%nat))
                (fun _ => 0%nat) 2%nat) as (d & Hd & _ & Hlog & _).
    exists d. split; [exact Hd | exact Hlog].
  - apply Hpeak. reflexivity.
Defined.

(** C4 as written fails: a zero and a negative capacity, a negative
    horizon and a reversed peak window are all accepted and the state is
    created; with the zero capacity the loop is entered, the generator
    creates the vehicle of hour 0, and the first iteration ends in
    ZeroDivisionError before that vehicle is assigned a road. *)
Lemma malformed_configuration_is_started :
  let rnd := mkRandom (fun _ => 1%nat) (fun _ => 0%nat) (fun _ => 0%nat) in
  (exists cfg s,
     start_simulation "1" (-3) (10 # 1, 8 # 1)%Q 20 [0; -5] = Ok (cfg, s)
     /\ roads s = [Road_init "Mandela" 0; Road_init "Portmore" (-5)])
  /\ (exists d,
        visualize rnd (fun _ => 0%nat) 1
          (start_simulation "1" 24 (6 # 1, 8 # 1)%Q 20 [0; 10])
        = Ok (Crashed ZeroDivisionError d)
        /\ now (simulator d) = 0
        /\ vehicles (simulator d) = [mkVehicle 0 1 1]
        /\ assigned_log (simulator d) = []).
Proof.
  split.
  - eexists _, _. split; reflexivity.
  - eexists. split; [vm_compute; reflexivity |].
    split; [reflexivity |]. split; reflexivity.
Qed.

Lemma step_Raise_vehicles (cfg : Settings) (rnd : Random) (s : Sim)
    (e : exn) (s' : Sim) :
  step cfg rnd s = (Raise e, s') -> vehicles s' = vehicles s.
Proof.
  unfold step. destruct (pop (queue s)) as [[ev rest] |].
  - destruct (ev_kind ev) as [| hour | v | v i | | e0]; cbn [dispatch];
      try discriminate.
    + destruct (vehicle_process_start _ _ _) as [[i | e0] st]; discriminate.
    + destruct (vehicle_process_resume _ _ _) as [[u | e0] st]; discriminate.
    + now intros [= _ <-].
  - now intros [= _ <-].
Qed.

Lemma frames_invariant (cfg : Settings) (rnd : Random) (x_draw : Z -> nat)
    (P : Display -> Prop) :
  (forall d, P d -> P (display_of (frame_once cfg rnd x_draw d))) ->
  forall n d, P d -> P (display_of (frames cfg rnd x_draw n d)).
Proof.
  intros Hstep. induction n as [| n IH]; intros d Hd; [exact Hd |].
  cbn [frames]. specialize (Hstep d Hd).
  destruct (frame_once cfg rnd x_draw d) as [d' | d' | e d'];
    cbn [display_of] in Hstep; [now apply IH | exact Hstep | exact Hstep].
Qed.

Lemma Sprite_init_on_screen (draw : nat) : on_screen (Sprite_init draw).
Proof.
  unfold on_screen, Sprite_init, SCREEN_WIDTH. cbn.
  pose proof (Nat.mod_upper_bound draw 600 ltac:(lia)). lia.
Qed.

Lemma Vehicle_move_on_screen (c : Q) (v : Sprite) :
  on_screen v -> on_screen (Vehicle_move c v).
Proof.
  intros [[Hx _] _]. unfold on_screen, Vehicle_move, SCREEN_WIDTH in *.
  cbn [sprite_x sprite_speed].
  destruct (Z.ltb_spec 800 (sprite_x v + Z.max 1 (Qtrunc (5 * (1 - c)))));
    lia.
Qed.

(** X21.  At every point of [run_simulation_with_visualization] every
    vehicle created so far has its place on the screen: there is one
    position per vehicle, each between 0 and the screen width, and every
    drawn speed is at least 1. *)
Theorem vehicles_stay_on_screen (cfg : Settings) (rnd : Random)
    (x_draw : Z -> nat) (n : nat) (rs : list Road) :
  let d := display_of (run_simulation_with_visualization cfg rnd x_draw n rs) in
  length (sprites d) = length (vehicles (simulator d))
  /\ Forall on_screen (sprites d).
Proof.
  cbn zeta. unfold run_simulation_with_visualization.
  apply (frames_invariant cfg rnd x_draw
           (fun d => length (sprites d) = length (vehicles (simulator d))
                     /\ Forall on_screen (sprites d)));
    [| split; [reflexivity | constructor]].
  intros d [Hlen Hon]. unfold frame_once.
  destruct (within_horizon cfg (simulator d)); [| now split].
  destruct (step_vehicles cfg rnd (simulator d)) as (new & Hvs & _).
  destruct (step cfg rnd (simulator d)) as [[u | e] s'] eqn:Hstep;
    cbn [snd] in Hvs.
  - assert (length (sprites d
                    ++ new_sprites x_draw (vehicles s') (length (sprites d)))
            = length (vehicles s')
            /\ Forall on_screen
                 (sprites d
                  ++ new_sprites x_draw (vehicles s') (length (sprites d))))
      as [Hlen' Hon'].
    { unfold new_sprites. split.
      - rewrite length_app, length_fmap, length_drop, Hvs, length_app. lia.
      - apply Forall_app. split; [exact Hon |].
        apply Forall_fmap, Forall_forall. intros v _.
        apply Sprite_init_on_screen. }
    destruct (congestion_level (roads s')) as [c | e];
      cbn [display_of sprites simulator].
    + split; [now rewrite length_fmap |].
      apply Forall_fmap. eapply Forall_impl; [exact Hon' |].
      intros v Hv. now apply Vehicle_move_on_screen.
    + now split.
  - cbn [display_of sprites simulator]. split; [| exact Hon].
    now rewrite (step_Raise_vehicles _ _ _ _ _ Hstep).
Qed.

Lemma on_start_window (m : string) (tw : Z) (period : string)
    (rate c1 c2 : Z) :
  exists cfg s,
    on_start m tw period rate c1 c2 = Ok (cfg, s)
    /\ time_window cfg = tw /\ method cfg = m /\ vehicle_rate cfg = rate
    /\ peak_hours cfg
       = (if String.eqb period "morning" then (6 # 1, 8 # 1)%Q
          else if String.eqb period "midday" then (23 # 2, 27 # 2)%Q
          else (16 # 1, 19 # 1)%Q).
Proof. eexists _, _. repeat split. Qed.

(** X22.  [on_start] never fails on the two capacities it passes on, and
    the peak hours it selects are 6, 7, 8 for "morning", 12 and 13 for
    "midday" (the window is 11.5 to 13.5), and 16, ..., 19 for any other
    choice. *)
Theorem on_start_peak_hours (m : string) (tw : Z) (period : string)
    (rate c1 c2 : Z) :
  exists cfg s,
    on_start m tw period rate c1 c2 = Ok (cfg, s)
    /\ roads s = [Road_init "Mandela" c1; Road_init "Portmore" c2]
    /\ forall hour,
         is_peak cfg hour = true <->
         (period = "morning"%string /\ 6 <= hour <= 8)
         \/ (period = "midday"%string /\ 12 <= hour <= 13)
         \/ (period <> "morning"%string /\ period <> "midday"%string
             /\ 16 <= hour <= 19).
Proof.
  destruct (on_start_window m tw period rate c1 c2)
    as (cfg & s & Hstart & _ & _ & _ & Hpeak).
  exists cfg, s. split; [exact Hstart |].
  split; [injection Hstart as _ <-; reflexivity |].
  intros hour. rewrite is_peak_spec, Hpeak. unfold Qle. cbn.
  destruct (String.eqb_spec period "morning") as [-> | Hm]; cbn.
  - split; [intros; left; split; [reflexivity | lia] |].
    intros [[_ H] | [[H _] | (H & _)]]; [lia | discriminate | congruence].
  - destruct (String.eqb_spec period "midday") as [-> | Hd]; cbn.
    + split; [intros; right; left; split; [reflexivity | lia] |].
      intros [[H _] | [[_ H] | (_ & H & _)]];
        [discriminate | lia | congruence].
    + split; [intros; right; right; repeat split; assumption || lia |].
      intros [[H _] | [[H _] | (_ & _ & H)]]; [congruence | congruence | lia].
Qed.

Lemma on_start_peak_hours_witness :
  exists cfg s,
    on_start "2" 24 "midday" 20 1000 800 = Ok (cfg, s)
    /\ is_peak cfg 13 = true /\ is_peak cfg 11 = false.
Proof.
  destruct (on_start_peak_hours "2" 24 "midday" 20 1000 800)
    as (cfg & s & Hstart & _ & Hpeak).
  exists cfg, s. split; [exact Hstart |]. split.
  - apply Hpeak. right. left. split; [reflexivity | lia].
  - destruct (is_peak cfg 11) eqn:H11; [| reflexivity].
    apply Hpeak in H11 as [[H _] | [[_ H] | (_ & H & _)]];
      [discriminate | lia | congruence].
Defined.

(** ** The loads at the end of a run *)

Lemma sumZ_app {A} (f : A -> Z) (l k : list A) :
  sumZ f (l ++ k) = sumZ f l + sumZ f k.
Proof.
  unfold sumZ. induction l as [| x l IH]; cbn; [reflexivity | rewrite IH; lia].
Qed.

Lemma sumZ_cons {A} (f : A -> Z) (x : A) (l : list A) :
  sumZ f (x :: l) = f x + sumZ f l.
Proof. reflexivity. Qed.

Lemma sumZ_snoc {A} (f : A -> Z) (l : list A) (x : A) :
  sumZ f (l ++ [x]) = sumZ f l + f x.
Proof. rewrite sumZ_app, sumZ_cons. cbn. lia. Qed.

Lemma sumZ_perm {A} (f : A -> Z) (l k : list A) :
  l ≡ₚ k -> sumZ f l = sumZ f k.
Proof.
  unfold sumZ. induction 1; cbn; lia.
Qed.

Lemma sumZ_zero {A} (f : A -> Z) (l : list A) :
  Forall (fun x => f x = 0) l -> sumZ f l = 0.
Proof.
  unfold sumZ. induction 1 as [| x l Hx _ IH]; cbn; [reflexivity | lia].
Qed.

Lemma sumZ_nonneg {A} (f : A -> Z) (l : list A) :
  Forall (fun x => 0 <= f x) l -> 0 <= sumZ f l.
Proof.
  unfold sumZ. induction 1 as [| x l Hx _ IH]; cbn; lia.
Qed.

Lemma held_weight_on_bounds (i : nat) (e : event) :
  weights_ok e -> 0 <= held_weight_on i e <= held_weight e.
Proof.
  unfold weights_ok, held_weight_on, held_weight.
  destruct (ev_kind e); cbn; try lia.
  destruct (decide _); lia.
Qed.

Lemma total_load_alter_same (f : Road -> Road) (i : nat) (st : list Road) :
  (forall r, current_load (f r) = current_load r) ->
  total_load (alter f i st) = total_load st.
Proof.
  intros Hf. unfold total_load. revert i.
  induction st as [| r st IH]; intros [| i]; cbn; try reflexivity.
  - now rewrite Hf.
  - now rewrite IH.
Qed.

Lemma names_alter (f : Road -> Road) (i : nat) (st : list Road) :
  (forall r, name (f r) = name r) ->
  name <$> alter f i st = name <$> st.
Proof.
  intros Hf. rewrite (list_fmap_alter name f id).
  - apply list_alter_id. reflexivity.
  - apply Forall_forall. intros r _. apply Hf.
Qed.

Lemma total_weight_snoc (vs : list Vehicle) (v : Vehicle) :
  total_weight (vs ++ [v]) = total_weight vs + weight v.
Proof.
  change (sumZ weight (vs ++ [v]) = sumZ weight vs + weight v).
  rewrite sumZ_app. cbn. lia.
Qed.

Lemma spawn_weights (rnd : Random) (n : nat) :
  forall s, exists added,
    queue (spawn rnd n s) = queue s ++ added
    /\ total_weight (vehicles (spawn rnd n s))
       = total_weight (vehicles s) + sumZ waiting_weight added
    /\ Forall (fun e => held_weight e = 0 /\ 0 <= waiting_weight e
                        /\ not_failed e) added.
Proof.
  induction n as [| n IH]; intros s.
  - exists []. cbn. rewrite app_nil_r. repeat split; [lia | constructor].
  - cbn [spawn].
    destruct (IH (add_vehicle (new_vehicle rnd s) s)) as (added & Hq & Hw & Hall).
    cbn [add_vehicle schedule queue vehicles] in Hq, Hw.
    rewrite total_weight_snoc in Hw.
    eexists (_ :: added). split; [| split].
    + rewrite Hq, <- app_assoc. reflexivity.
    + rewrite Hw, sumZ_cons.
      match goal with
      | |- context [waiting_weight ?e] =>
          change (waiting_weight e) with (weight (new_vehicle rnd s))
      end. lia.
    + constructor; [| exact Hall].
      split; [reflexivity |]. split; [| exact I].
      change (0 <= choice [1; 2; 3]
                     (weight_draw rnd (Z.of_nat (length (vehicles s))))).
      pose proof (choice_weight
                    (weight_draw rnd (Z.of_nat (length (vehicles s))))) as Hin.
      rewrite !elem_of_cons, elem_of_nil in Hin. lia.
Qed.

Lemma generator_next_weights (cfg : Settings) (rnd : Random) (hour : Z)
    (s : Sim) :
  exists added,
    queue (generator_next cfg rnd hour s) = queue s ++ added
    /\ total_weight (vehicles (generator_next cfg rnd hour s))
       = total_weight (vehicles s) + sumZ waiting_weight added
    /\ Forall (fun e => held_weight e = 0 /\ 0 <= waiting_weight e) added.
Proof.
  unfold generator_next, generator_hour.
  destruct (hour <? time_window cfg);
    [destruct (num_vehicles cfg rnd hour) as [n | e] |].
  - destruct (spawn_weights rnd n s) as (added & Hq & Hw & Hall).
    cbn [schedule queue vehicles].
    eexists (added ++ [_]). split; [| split].
    + rewrite Hq, <- app_assoc. reflexivity.
    + rewrite Hw, sumZ_snoc.
      match goal with
      | |- context [waiting_weight ?e] =>
          change (waiting_weight e) with 0
      end. lia.
    + apply Forall_app. split.
      * eapply Forall_impl; [exact Hall |]. cbn. tauto.
      * constructor; [| constructor].
        unfold held_weight, waiting_weight. cbn. lia.
  - cbn [schedule queue vehicles]. eexists [_]. split; [reflexivity |].
    split; [rewrite sumZ_cons; cbn; lia |].
    constructor; [| constructor]. unfold held_weight, waiting_weight. cbn. lia.
  - cbn [schedule queue vehicles]. eexists [_]. split; [reflexivity |].
    split; [rewrite sumZ_cons; cbn; lia |].
    constructor; [| constructor]. unfold held_weight, waiting_weight. cbn. lia.
Qed.

(** The start of a vehicle process changes the roads only when it gets
    to its timeout. *)
Lemma vehicle_process_start_Raise (m : string) (v : Vehicle)
    (st : list Road) (e : exn) (st' : list Road) :
  vehicle_process_start m v st = (Raise e, st') -> st' = st.
Proof.
  unfold vehicle_process_start, bind.
  destruct ((if String.eqb m "1" then optimize_traffic_flow [v]
             else balance_traffic_flow [v]) st) as [[a | e0] st1] eqn:Hpol.
  - apply policy_single in Hpol as [[-> ->] | (j & r & Hj & -> & ->)].
    + unfold subscript. rewrite lookup_empty. now intros [= _ <-].
    + unfold subscript. rewrite lookup_insert_eq. unfold ret, reading, update.
      destruct (find_road (name r) 0 _) as [i | e1] eqn:Hfind; [discriminate |].
      exfalso. destruct (find_road_missing _ _ _ _ Hfind) as [_ Hall].
      rewrite Forall_forall in Hall.
      apply (Hall (add_load (weight v) r)); [| reflexivity].
      apply list_elem_of_lookup. exists j.
      now rewrite list_lookup_alter_eq, Hj.
  - intros [= _ <-].
    destruct (String.eqb m "1").
    + unfold optimize_traffic_flow in Hpol.
      rewrite optimize_loop_unfold in Hpol.
      destruct (min_by_ratio st) as [[j r] |]; [discriminate |].
      now injection Hpol as _ <-.
    + rewrite balance_traffic_flow_unfold in Hpol.
      destruct (sorted_by_ratio st) as [rs |].
      * destruct (balance_loop_ok rs [v] ∅ st) as (a & st2 & Hok & _).
        congruence.
      * now injection Hpol as _ <-.
Qed.

Lemma total_load_alter_lookup (f : Road -> Road) (st : list Road) :
  forall i,
  total_load (alter f i st)
  = total_load st + match st !! i with
                    | Some r => current_load (f r) - current_load r
                    | None => 0
                    end.
Proof.
  unfold total_load.
  induction st as [| r0 st IH]; intros [| i]; cbn; try lia.
  rewrite (IH i). apply Z.add_assoc.
Qed.

(** What the second half of a vehicle process does to the loads. *)
Lemma resume_loads (v : Vehicle) (j : nat) (st : list Road) :
  let st' := snd (vehicle_process_resume v j st) in
  name <$> st' = name <$> st
  /\ (forall k r', st' !! k = Some r' ->
        exists r, st !! k = Some r
          /\ current_load r'
             = if decide (k = j) then Z.max 0 (current_load r - weight v)
               else current_load r)
  /\ total_load st'
     = total_load st + match st !! j with
                       | Some r => Z.max 0 (current_load r - weight v)
                                   - current_load r
                       | None => 0
                       end.
Proof.
  assert (forall g : Road -> Road,
            (forall r, name (g r) = name r) ->
            (forall r, current_load (g r)
                       = Z.max 0 (current_load r - weight v)) ->
            name <$> alter g j st = name <$> st
            /\ (forall k r', alter g j st !! k = Some r' ->
                  exists r, st !! k = Some r
                    /\ current_load r'
                       = if decide (k = j)
                         then Z.max 0 (current_load r - weight v)
                         else current_load r)
            /\ total_load (alter g j st)
               = total_load st + match st !! j with
                                 | Some r => Z.max 0 (current_load r - weight v)
                                             - current_load r
                                 | None => 0
                                 end) as Halter.
  { intros g Hname Hload. split; [now apply names_alter | split].
    - intros k r' Hk. destruct (decide (k = j)) as [-> | Hne].
      + rewrite list_lookup_alter_eq in Hk.
        destruct (st !! j) as [r |]; [| discriminate].
        injection Hk as <-. eauto.
      + rewrite list_lookup_alter_ne in Hk by congruence. eauto.
    - rewrite total_load_alter_lookup.
      destruct (st !! j) as [r |]; [now rewrite Hload | reflexivity]. }
  rewrite vehicle_process_resume_unfold. cbn zeta.
  destruct (ratio_at j _) as [x | e]; cbn [snd].
  - rewrite list_alter_alter_eq. apply Halter; reflexivity.
  - apply Halter; reflexivity.
Qed.

Lemma resume_Ok_lookup (v : Vehicle) (j : nat) (st : list Road) (u : unit)
    (st' : list Road) :
  vehicle_process_resume v j st = (Ok u, st') -> is_Some (st !! j).
Proof.
  rewrite vehicle_process_resume_unfold. cbn zeta. unfold ratio_at.
  rewrite list_lookup_alter_eq.
  destruct (st !! j) as [r |]; [eauto | discriminate].
Qed.

Lemma dispatch_loaded (cfg : Settings) (rnd : Random) (ev : event)
    (rest : list event) (s : Sim) :
  NoDup (name <$> roads s) ->
  Forall weights_ok (ev :: rest) ->
  (forall i r, roads s !! i = Some r ->
     2 * (held_weight_on i ev + sumZ (held_weight_on i) rest)
     <= current_load r) ->
  loaded (snd (dispatch cfg rnd (ev_kind ev) (advance ev rest s))).
Proof.
  intros Hnd Hwt Hroad. apply Forall_cons in Hwt as [Hev Hrest].
  assert (forall i r, roads s !! i = Some r ->
            2 * sumZ (held_weight_on i) rest <= current_load r) as Hroad'.
  { intros i r Hi. specialize (Hroad i r Hi).
    pose proof (held_weight_on_bounds i ev Hev). lia. }
  assert (forall hour, loaded (generator_next cfg rnd hour (advance ev rest s)))
    as Hgen.
  { intros hour.
    destruct (generator_next_effect cfg rnd hour (advance ev rest s))
      as (Hr & _).
    destruct (generator_next_weights cfg rnd hour (advance ev rest s))
      as (added & Hq & _ & Hadded).
    cbn [advance queue roads] in Hr, Hq.
    constructor.
    - rewrite Hr. exact Hnd.
    - rewrite Hq. apply Forall_app. split; [exact Hrest |].
      eapply Forall_impl; [exact Hadded |].
      intros e [He1 He2]. split; lia.
    - intros i r Hi. rewrite Hr in Hi. rewrite Hq, sumZ_app.
      rewrite (sumZ_zero (held_weight_on i) added).
      + specialize (Hroad' i r Hi). lia.
      + eapply Forall_impl; [exact Hadded |]. intros e [He1 He2].
        assert (weights_ok e) as Hok by (split; lia).
        pose proof (held_weight_on_bounds i e Hok). lia. }
  assert (forall i, held_weight_on i ev
                    = match ev_kind ev with
                      | ResumeVehicle v j =>
                          if decide (j = i) then weight v else 0
                      | _ => 0
                      end) as Hon by reflexivity.
  unfold weights_ok, waiting_weight, held_weight in Hev.
  assert (forall (k : kind) (p : nat) (t : Z) (s1 : Sim),
            queue s1 = rest ->
            match k with InitVehicle _ | ResumeVehicle _ _ => False
                       | _ => True end ->
            Forall weights_ok (queue s1 ++ [mkEvent t p (next_eid s1) k])
            /\ forall i, sumZ (held_weight_on i)
                           (queue s1 ++ [mkEvent t p (next_eid s1) k])
                         = sumZ (held_weight_on i) rest) as Hplain.
  { intros k p t s1 -> Hkind. split.
    - apply Forall_app. split; [exact Hrest |].
      constructor; [| constructor].
      unfold weights_ok, waiting_weight, held_weight. cbn [ev_kind].
      destruct k; try contradiction; lia.
    - intros i. rewrite sumZ_snoc.
      assert (held_weight_on i (mkEvent t p (next_eid s1) k) = 0) as ->
        by (unfold held_weight_on; cbn [ev_kind];
            destruct k; try contradiction; reflexivity).
      lia. }
  destruct (ev_kind ev) as [| hour | v | v j | | e] eqn:Hk; cbn [dispatch snd].
  - apply Hgen.
  - apply Hgen.
  - cbn [advance roads].
    destruct (vehicle_process_start (method cfg) v (roads s))
      as [[i | e] st] eqn:Hst; cbn [snd].
    + destruct (vehicle_process_start_inv _ _ _ _ _ Hnd Hst) as (r & Hi & ->).
      constructor; sim_fields.
      * now rewrite !names_alter_load.
      * apply Forall_app. split; [exact Hrest |].
        constructor; [| constructor].
        unfold weights_ok, waiting_weight, held_weight. cbn [ev_kind]. lia.
      * intros k r' Hk'. rewrite sumZ_snoc.
        match goal with
        | |- context [held_weight_on k ?e] =>
            change (held_weight_on k e)
              with (if decide (i = k) then weight v else 0)
        end.
        destruct (decide (i = k)) as [<- | Hne].
        -- rewrite !list_lookup_alter_eq, Hi in Hk'. injection Hk' as <-.
           cbn. specialize (Hroad' i r Hi). lia.
        -- rewrite !list_lookup_alter_ne in Hk' by exact Hne.
           specialize (Hroad' k r' Hk'). lia.
    + apply vehicle_process_start_Raise in Hst as ->.
      destruct (Hplain (ProcessFailed e) NORMAL (ev_time ev + 0)
                  (with_roads (roads s) (advance ev rest s)) eq_refl I)
        as [Hw' Hs'].
      constructor; sim_fields.
      * exact Hnd.
      * exact Hw'.
      * intros k r' Hk'. rewrite Hs'. now apply Hroad'.
  - cbn [advance roads].
    pose proof (resume_loads v j (roads s)) as (Hn & Hl & _).
    assert (forall k r', snd (vehicle_process_resume v j (roads s)) !! k
                         = Some r' ->
              2 * sumZ (held_weight_on k) rest <= current_load r') as Hafter.
    { intros k r' Hk'. destruct (Hl k r' Hk') as (r & Hr & ->).
      specialize (Hroad k r Hr). rewrite Hon in Hroad.
      specialize (Hroad' k r Hr).
      destruct (decide (k = j)) as [-> | Hne].
      - rewrite decide_True in Hroad by reflexivity. lia.
      - exact Hroad'. }
    destruct (vehicle_process_resume v j (roads s)) as [[u | e] st];
      cbn [snd] in *.
    + destruct (Hplain ProcessEnded NORMAL (ev_time ev + 0)
                  (log_completed (vehicle_id v, j)
                     (with_roads st (advance ev rest s))) eq_refl I)
        as [Hw' Hs'].
      constructor; sim_fields.
      * rewrite Hn. exact Hnd.
      * exact Hw'.
      * intros k r' Hk'. rewrite Hs'. now apply Hafter.
    + destruct (Hplain (ProcessFailed e) NORMAL (ev_time ev + 0)
                  (with_roads st (advance ev rest s)) eq_refl I)
        as [Hw' Hs'].
      constructor; sim_fields.
      * rewrite Hn. exact Hnd.
      * exact Hw'.
      * intros k r' Hk'. rewrite Hs'. now apply Hafter.
  - constructor; sim_fields; [exact Hnd | exact Hrest | exact Hroad'].
  - constructor; sim_fields; [exact Hnd | exact Hrest | exact Hroad'].
Qed.

Lemma step_loaded (cfg : Settings) (rnd : Random) (s : Sim) :
  loaded s -> loaded (snd (step cfg rnd s)).
Proof.
  intros [Hnd Hwt Hroad]. unfold step.
  destruct (pop (queue s)) as [[ev rest] |] eqn:Hpop;
    [| now constructor].
  pose proof (pop_perm _ _ _ Hpop) as Hperm.
  apply dispatch_loaded; [exact Hnd | now rewrite <- Hperm |].
  intros i r Hi. rewrite <- sumZ_cons, <- (sumZ_perm _ _ _ Hperm).
  now apply Hroad.
Qed.

Lemma dispatch_load_balance (cfg : Settings) (rnd : Random) (l0 : Z)
    (ev : event) (rest : list event) (s : Sim) (u : unit) (s' : Sim) :
  NoDup (name <$> roads s) ->
  Forall weights_ok (ev :: rest) ->
  (forall i r, roads s !! i = Some r ->
     2 * (held_weight_on i ev + sumZ (held_weight_on i) rest)
     <= current_load r) ->
  (Forall not_failed (ev :: rest) ->
   total_load (roads s) + (waiting_weight ev + sumZ waiting_weight rest)
   = l0 + total_weight (vehicles s)
     + (held_weight ev + sumZ held_weight rest)) ->
  dispatch cfg rnd (ev_kind ev) (advance ev rest s) = (Ok u, s') ->
  load_balance l0 s'.
Proof.
  intros Hnd Hwt Hroad Hbal Hd Hnf.
  apply Forall_cons in Hwt as [Hev Hrest].
  assert (forall i, held_weight_on i ev
                    = match ev_kind ev with
                      | ResumeVehicle v j =>
                          if decide (j = i) then weight v else 0
                      | _ => 0
                      end) as Hon by reflexivity.
  assert (not_failed ev -> Forall not_failed rest ->
          total_load (roads s)
          + (match ev_kind ev with InitVehicle v => weight v | _ => 0 end
             + sumZ waiting_weight rest)
          = l0 + total_weight (vehicles s)
            + (match ev_kind ev with ResumeVehicle v _ => weight v | _ => 0 end
               + sumZ held_weight rest)) as Hbal'.
  { intros H1 H2. apply Hbal. now constructor. }
  clear Hbal. unfold not_failed in Hbal'.
  unfold weights_ok, waiting_weight, held_weight in Hev.
  assert (forall hour,
            Forall not_failed
              (queue (generator_next cfg rnd hour (advance ev rest s))) ->
            Forall not_failed rest
            /\ (total_load (roads s) + sumZ waiting_weight rest
                = l0 + total_weight (vehicles s) + sumZ held_weight rest ->
                total_load (roads (generator_next cfg rnd hour
                                     (advance ev rest s)))
                + sumZ waiting_weight
                    (queue (generator_next cfg rnd hour (advance ev rest s)))
                = l0 + total_weight
                         (vehicles (generator_next cfg rnd hour
                                      (advance ev rest s)))
                  + sumZ held_weight
                      (queue (generator_next cfg rnd hour
                                (advance ev rest s))))) as Hgen.
  { intros hour Hnf'.
    destruct (generator_next_effect cfg rnd hour (advance ev rest s))
      as (Hr & _).
    destruct (generator_next_weights cfg rnd hour (advance ev rest s))
      as (added & Hq & Hw & Hadded).
    cbn [advance queue roads vehicles] in Hr, Hq, Hw.
    rewrite Hq in Hnf'. apply Forall_app in Hnf' as [Hnf' _].
    split; [exact Hnf' |]. intros Heq.
    rewrite Hr, Hq, Hw, !sumZ_app.
    rewrite (sumZ_zero held_weight added); [lia |].
    eapply Forall_impl; [exact Hadded |]. now intros e [He _]. }
  destruct (ev_kind ev) as [| hour | v | v j | | e] eqn:Hk;
    cbn [dispatch] in Hd.
  - injection Hd as _ <-. destruct (Hgen 0 Hnf) as [Hnf' Heq].
    apply Heq. specialize (Hbal' I Hnf'). lia.
  - injection Hd as _ <-. destruct (Hgen (hour + 1) Hnf) as [Hnf' Heq].
    apply Heq. specialize (Hbal' I Hnf'). lia.
  - cbn [advance roads] in Hd.
    destruct (vehicle_process_start (method cfg) v (roads s))
      as [[i | e] st] eqn:Hst;
      injection Hd as _ <-; revert Hnf; sim_fields; intros Hnf;
      apply Forall_app in Hnf as [Hnf Hlast].
    + destruct (vehicle_process_start_inv _ _ _ _ _ Hnd Hst) as (r & Hi & ->).
      rewrite !sumZ_snoc.
      rewrite (total_load_alter (weight v) _ i (add_load (weight v) r))
        by (now rewrite list_lookup_alter_eq, Hi).
      rewrite (total_load_alter (weight v) _ i r Hi).
      specialize (Hbal' I Hnf).
      match goal with
      | |- context [waiting_weight ?e0] =>
          change (waiting_weight e0) with 0;
          change (held_weight e0) with (weight v)
      end. lia.
    + rewrite Forall_singleton in Hlast. contradiction.
  - cbn [advance roads] in Hd.
    pose proof (resume_loads v j (roads s)) as (_ & _ & Htot).
    destruct (vehicle_process_resume v j (roads s)) as [[u' | e] st] eqn:Hres;
      injection Hd as _ <-; revert Hnf; sim_fields; intros Hnf;
      apply Forall_app in Hnf as [Hnf Hlast].
    + destruct (resume_Ok_lookup _ _ _ _ _ Hres) as [r Hj].
      cbn [snd] in Htot. rewrite Hj in Htot.
      specialize (Hroad j r Hj). rewrite Hon, decide_True in Hroad
        by reflexivity.
      assert (0 <= sumZ (held_weight_on j) rest) as Hpos.
      { apply sumZ_nonneg. eapply Forall_impl; [exact Hrest |].
        intros e He. now apply held_weight_on_bounds. }
      specialize (Hbal' I Hnf). rewrite !sumZ_snoc, Htot.
      match goal with
      | |- context [waiting_weight ?e0] =>
          change (waiting_weight e0) with 0;
          change (held_weight e0) with 0
      end. lia.
    + rewrite Forall_singleton in Hlast. contradiction.
  - injection Hd as _ <-. revert Hnf. sim_fields. intros Hnf.
    specialize (Hbal' I Hnf). lia.
  - discriminate.
Qed.

Lemma step_load_balance (cfg : Settings) (rnd : Random) (l0 : Z) (s : Sim)
    (u : unit) (s' : Sim) :
  loaded s -> load_balance l0 s -> step cfg rnd s = (Ok u, s') ->
  load_balance l0 s'.
Proof.
  intros [Hnd Hwt Hroad] Hbal. unfold step.
  destruct (pop (queue s)) as [[ev rest] |] eqn:Hpop; [| discriminate].
  pose proof (pop_perm _ _ _ Hpop) as Hperm.
  apply dispatch_load_balance.
  - exact Hnd.
  - now rewrite <- Hperm.
  - intros i r Hi. rewrite <- sumZ_cons, <- (sumZ_perm _ _ _ Hperm).
    now apply Hroad.
  - intros Hnf. rewrite <- !sumZ_cons, <- !(sumZ_perm _ _ _ Hperm).
    apply Hbal. now rewrite Hperm.
Qed.

Lemma run_load_balance (cfg : Settings) (rnd : Random) (l0 : Z) (n : nat) :
  forall s, loaded s -> load_balance l0 s ->
  match run cfg rnd n s with
  | Running s' | Finished s' => load_balance l0 s'
  | Aborted _ _ => True
  end.
Proof.
  induction n as [| n IH]; intros s Hl Hb; [exact Hb |].
  cbn [run]. unfold loop_once.
  destruct (within_horizon cfg s); [| exact Hb].
  pose proof (step_loaded cfg rnd s Hl) as Hl'.
  destruct (step cfg rnd s) as [[u | e] s'] eqn:Hstep; cbn [snd] in Hl'.
  - apply IH; [exact Hl' |]. now apply (step_load_balance cfg rnd l0 s u).
  - exact I.
Qed.

(** X23. When a run is left by its horizon test, on roads of distinct
    names whose loads were not negative, the loads of the roads have
    grown by the weights of all the vehicles the run created: every
    vehicle that went through its process has left its weight behind,
    whatever the method. *)
Theorem run_leaves_every_weight (cfg : Settings) (rnd : Random)
    (rs : list Road) (n : nat) (s : Sim) :
  NoDup (name <$> rs) ->
  Forall (fun r => 0 <= current_load r) rs ->
  run cfg rnd n (initial_sim rs) = Finished s ->
  total_load (roads s) = total_load rs + total_weight (vehicles s).
Proof.
  intros Hnd Hpos Hrun.
  assert (loaded (initial_sim rs)) as Hl.
  { constructor.
    - exact Hnd.
    - constructor; [| constructor]. split; cbn; lia.
    - intros i r Hi. rewrite Forall_forall in Hpos.
      change (2 * (0 + 0) <= current_load r).
      apply (Hpos r). now apply list_elem_of_lookup_2 with i. }
  assert (load_balance (total_load rs) (initial_sim rs)) as Hb.
  { intros _.
    change (total_load rs + (0 + 0) = total_load rs + 0 + (0 + 0)). lia. }
  pose proof (run_load_balance cfg rnd (total_load rs) n _ Hl Hb) as Hfin.
  rewrite Hrun in Hfin.
  assert (Forall (timing (time_window cfg)) (queue s)) as Htim.
  { change s with (state_of (Finished s)). rewrite <- Hrun.
    apply (run_guarded_invariant cfg rnd
             (fun s => Forall (timing (time_window cfg)) (queue s))).
    - intros s0 H0 Hw. now apply step_timing.
    - constructor; [reflexivity | constructor]. }
  pose proof (beyond_horizon cfg s Htim (run_Finished _ _ _ _ _ Hrun)) as Hgen.
  unfold load_balance in Hfin.
  rewrite (sumZ_zero waiting_weight), (sumZ_zero held_weight) in Hfin.
  - rewrite !Z.add_0_r in Hfin. apply Hfin.
    eapply Forall_impl; [exact Hgen |].
    intros e He. unfold not_failed. now rewrite He.
  - eapply Forall_impl; [exact Hgen |].
    intros e He. unfold held_weight. now rewrite He.
  - eapply Forall_impl; [exact Hgen |].
    intros e He. unfold waiting_weight. now rewrite He.
Qed.

Lemma run_leaves_every_weight_witness :
  let cfg := mkSettings 2 "1" (6 # 1, 8 # 1)%Q 20 in
  let rnd := mkRandom (fun h => if h =? 0 then 2%nat else 1%nat)
                      (fun i => Z.to_nat i) (fun _ => 0%nat) in
  let rs := [Road_init "Mandela" 10; Road_init "Portmore" 10] in
  exists s,
    run cfg rnd 20 (initial_sim rs) = Finished s
    /\ total_weight (vehicles s) = 6
    /\ total_load (roads s) = 0 + 6.
Proof.
  intros cfg rnd rs. eexists. split; [vm_compute; reflexivity |].
  split; [reflexivity |].
  apply (run_leaves_every_weight cfg rnd rs 20).
  - apply (bool_decide_unpack _). vm_compute. reflexivity.
  - repeat constructor; discriminate.
  - vm_compute. reflexivity.
Defined.
